(** * Reverse-mode sweeps of [ADFun]: [Reverse] and [myReverse]

    Shallow embedding of [cppad/local/reverse.hpp].

    - [size_t] is a 64-bit machine word; every index computation of the
      source is written with the wrapping word operations.
    - [Base] is the template parameter of [ADFun<Base>]: an arbitrary type
      with the constants and operations the two functions use.  Its
      arithmetic is exact: no rounding is modelled.
    - [pod_vector<Base>], [VectorBase] and [std::vector<size_t>] are lists;
      an access outside a vector is undefined in C++ and is a fault here.
    - The two functions run in a state-and-error monad over the engine
      object ([this]), the local [Partial] of [Reverse] and the vector
      [value]; a failure carries the state it happened in.
    - [ReverseSweep] and [myReverseSweep] live in another header.  The entry
      points take them as parameters; a model of them from the spec follows
      the entry points and is used where a statement is about the
      propagation itself, and to run the entry points on concrete tapes.
    - Not translated: [CheckSimpleVector] (a compile-time check), the two
      [if(false)] blocks of [myReverse], the text in comments, and the block
      under [DEBUG_KASPER], which only prints.
    - The source file goes on (lines 382-519) with the header of the radix
      sort, [struct radix] and the two functions of the namespace [radix].
      Its member functions are embedded as functions on the object and the
      local vectors that return [None] where the C++ program aborts or
      leaves the defined behaviour; the values of the unsigned type [T] are
      integers, and the index type [I] is a parameter. *)

From Stdlib Require Import String ZArith Lia List Bool.
From Stdlib Require Import Sorted Permutation.
From coqutil Require Import Word.Interface Word.Properties Word.Naive.
Import ListNotations.
Local Open Scope Z_scope.

(** ** Machine words *)

Definition size_t : Type := Naive.word64.

Definition sz (z : Z) : size_t := word.of_Z z.

(** The value of a word, and the list position it denotes. *)
Definition uns (a : size_t) : Z := word.unsigned a.
Definition idx (a : size_t) : nat := Z.to_nat (uns a).

(** The unsigned operations of the source on [size_t]; they wrap around. *)
Definition wadd (a b : size_t) : size_t := word.add a b.
Definition wsub (a b : size_t) : size_t := word.sub a b.
Definition wmul (a b : size_t) : size_t := word.mul a b.
Definition wltu (a b : size_t) : bool := word.ltu a b.
Definition weqb (a b : size_t) : bool := word.eqb a b.

Arguments sz : simpl never.
Arguments uns : simpl never.
Arguments wadd : simpl never.
Arguments wsub : simpl never.
Arguments wmul : simpl never.
Arguments wltu : simpl never.
Arguments weqb : simpl never.

Declare Scope size_scope.
Delimit Scope size_scope with sz.
Notation "a +w b" := (wadd a b) (at level 50, left associativity) : size_scope.
Notation "a -w b" := (wsub a b) (at level 50, left associativity) : size_scope.
Notation "a *w b" := (wmul a b) (at level 40, left associativity) : size_scope.
Notation "a <w b" := (wltu a b) (at level 70, no associativity) : size_scope.
Notation "a ==w b" := (weqb a b) (at level 70, no associativity) : size_scope.
Local Open Scope size_scope.

Definition wordmax : Z := 2 ^ 64.

(** ** Vectors *)

(** [v.size()] *)
Definition size {A} (v : list A) : size_t := sz (Z.of_nat (length v)).
Arguments size : simpl never.

(** [v[i]] as an rvalue *)
Definition vget {A} (v : list A) (i : size_t) : option A := nth_error v (idx i).

Fixpoint upd {A} (v : list A) (n : nat) (x : A) : option (list A) :=
  match v, n with
  | [], _ => None
  | _ :: t, O => Some (x :: t)
  | h :: t, S n' => option_map (cons h) (upd t n' x)
  end.

(** [v[i] = x] *)
Definition vset {A} (v : list A) (i : size_t) (x : A) : option (list A) :=
  upd v (idx i) x.

(** ** The scalar type [Base] *)

Class Scalar (Base : Type) : Type := {
  zero : Base;                      (* Base(0) *)
  one : Base;                       (* Base(1.0) *)
  add : Base -> Base -> Base;       (* operator+ *)
  mul : Base -> Base -> Base        (* operator*, for the chain rule *)
}.

(** ** The operator layer

    [OpCode], [NumRes] and the [tape_point] record are declared in other
    headers of CppAD; the sweeps below only use what is listed here. *)

Class OpLayer : Type := {
  OpCode : Type;
  OpCode_eqb : OpCode -> OpCode -> bool;
  InvOp : OpCode;
  NumRes : OpCode -> size_t
}.

(** ** Outcomes and the state-and-error monad *)

Inductive error : Type :=
| AssertKnown (msg : string)         (* CPPAD_ASSERT_KNOWN failed *)
| AssertUnknown                      (* CPPAD_ASSERT_UNKNOWN failed *)
| OutOfRange.                        (* access outside a vector *)

Inductive outcome (S A : Type) : Type :=
| Ok (a : A) (s : S)
| Err (e : error) (s : S).
Arguments Ok {S A} a s.
Arguments Err {S A} e s.

Definition M (S A : Type) : Type := S -> outcome S A.

Definition ret {S A} (a : A) : M S A := fun s => Ok a s.

Definition bind {S A B} (c : M S A) (f : A -> M S B) : M S B :=
  fun s => match c s with
           | Ok a s' => f a s'
           | Err e s' => Err e s'
           end.

Definition raise {S A} (e : error) : M S A := fun s => Err e s.

Definition final_state {S A} (o : outcome S A) : S :=
  match o with Ok _ s => s | Err _ s => s end.

Declare Scope monad_scope.
Delimit Scope monad_scope with monad.
Notation "x <- c ;; k" := (bind c (fun x => k))
  (at level 61, c at next level, right associativity) : monad_scope.
Notation "c ;; k" := (bind c (fun _ => k))
  (at level 61, right associativity) : monad_scope.
Local Open Scope monad_scope.

Section Engine.

Context {Base : Type} {BaseOps : Scalar Base} {Ops : OpLayer}.

(** Modelled from the spec: the per-operation record behind [tp_] and
    [play_] ("for each operation, its kind, operand addresses, and number of
    result slots"); [reverse.hpp] reads the fields [op] and [var_index]. *)
Record tape_point : Type := mk_tape_point {
  op : OpCode;
  op_arg : list size_t;
  var_index : size_t
}.

(** Modelled from the spec: the recording [play_] as the sequence of its
    operation records, in recorded order. *)
Definition player : Type := list tape_point.

(** The members of [ADFun<Base>] that [reverse.hpp] mentions. *)
Record ADFun : Type := mk_ADFun {
  ind_taddr_ : list size_t;
  dep_taddr_ : list size_t;
  total_num_var_ : size_t;
  taylor_per_var_ : size_t;
  taylor_col_dim_ : size_t;
  taylor_ : list Base;
  play_ : player;
  Partial : list Base;               (* the member buffer *)
  tp_ : list tape_point;
  op_mark_index_ : list size_t;
  op_inv_index_ : list size_t
}.

Definition set_Partial (P : list Base) (F : ADFun) : ADFun :=
  mk_ADFun (ind_taddr_ F) (dep_taddr_ F) (total_num_var_ F) (taylor_per_var_ F)
    (taylor_col_dim_ F) (taylor_ F) (play_ F) P (tp_ F) (op_mark_index_ F)
    (op_inv_index_ F).

(** ** Machine state *)

Record State : Type := mk_State {
  this : ADFun;                      (* the engine object *)
  frame_Partial : list Base;         (* the local [Partial] of [Reverse] *)
  value : list Base                  (* the vector [value] *)
}.

Definition Run (A : Type) : Type := M State A.

Definition get_this : Run ADFun := fun s => Ok (this s) s.
Definition put_this (F : ADFun) : Run unit :=
  fun s => Ok tt (mk_State F (frame_Partial s) (value s)).
Definition get_frame_Partial : Run (list Base) := fun s => Ok (frame_Partial s) s.
Definition put_frame_Partial (P : list Base) : Run unit :=
  fun s => Ok tt (mk_State (this s) P (value s)).
Definition get_Partial : Run (list Base) := fun s => Ok (Partial (this s)) s.
Definition put_Partial (P : list Base) : Run unit :=
  fun s => Ok tt (mk_State (set_Partial P (this s)) (frame_Partial s) (value s)).
Definition get_value : Run (list Base) := fun s => Ok (value s) s.
Definition put_value (v : list Base) : Run unit :=
  fun s => Ok tt (mk_State (this s) (frame_Partial s) v).

Definition of_option {A} (o : option A) : Run A :=
  match o with Some a => ret a | None => raise OutOfRange end.

(** [v[i]] read from a vector that is not written by the function *)
Definition at_ {A} (v : list A) (i : size_t) : Run A := of_option (vget v i).

(** Reads and writes of the three vectors that are written. *)
Definition frame_Partial_at (i : size_t) : Run Base :=
  P <- get_frame_Partial ;; at_ P i.
Definition frame_Partial_set (i : size_t) (x : Base) : Run unit :=
  P <- get_frame_Partial ;; P' <- of_option (vset P i x) ;; put_frame_Partial P'.
Definition Partial_at (i : size_t) : Run Base :=
  P <- get_Partial ;; at_ P i.
Definition Partial_set (i : size_t) (x : Base) : Run unit :=
  P <- get_Partial ;; P' <- of_option (vset P i x) ;; put_Partial P'.
Definition value_set (i : size_t) (x : Base) : Run unit :=
  v <- get_value ;; v' <- of_option (vset v i x) ;; put_value v'.

(** Modelled from the spec: [CPPAD_ASSERT_KNOWN] ("fail with an
    invalid-argument condition if violated"); the macro is defined in
    another header. *)
Definition CPPAD_ASSERT_KNOWN (exp : bool) (msg : string) : Run unit :=
  if exp then ret tt else raise (AssertKnown msg).

(** Modelled from the spec: [CPPAD_ASSERT_UNKNOWN], the internal
    consistency check of the same header. *)
Definition CPPAD_ASSERT_UNKNOWN (exp : bool) : Run unit :=
  if exp then ret tt else raise AssertUnknown.

(** [for(i = start; ...; i++) body(i)], [count] iterations *)
Fixpoint for_from (start : Z) (count : nat) (body : size_t -> Run unit) : Run unit :=
  match count with
  | O => ret tt
  | S c => body (sz start) ;; for_from (start + 1) c body
  end.

(** [for(i = 0; i < m; i++) body(i)] *)
Definition for_lt (m : size_t) (body : size_t -> Run unit) : Run unit :=
  for_from 0 (idx m) body.

(** [for(it = v.begin(); it != v.end(); it++) body( *it )] *)
Fixpoint for_each (v : list size_t) (body : size_t -> Run unit) : Run unit :=
  match v with
  | [] => ret tt
  | x :: t => body x ;; for_each t body
  end.

(** [play_.GetOp(i)] *)
Definition GetOp (play : player) (i : size_t) : Run OpCode :=
  tp <- at_ play i ;; ret (op tp).

(** A member of the engine object, read at this point of the run. *)
Definition member {A} (f : ADFun -> A) : Run A := fun s => Ok (f (this s)) s.

(** ** The sweeps

    [ReverseSweep] and [myReverseSweep] are defined in [reverse_sweep.hpp];
    the entry points below are stated for arbitrary ones.  [ReverseSweep]
    works on the buffer it is handed.  [myReverseSweep] is handed the engine
    object itself ([this]), whose member buffer is the [Partial] argument. *)

Class SweepLayer : Type := {
  ReverseSweep :
    size_t -> size_t -> size_t -> player -> size_t -> list Base -> size_t ->
    list Base -> list Base;
  myReverseSweep :
    size_t -> size_t -> size_t -> player -> size_t -> list Base -> size_t ->
    list Base -> size_t -> ADFun -> ADFun;
  (** The content of storage that has been allocated and not yet assigned:
      [indeterminate name i] is element [i] of the fresh vector [name]. *)
  indeterminate : string -> nat -> Base
}.

Context {Sweeps : SweepLayer}.

(** [pod_vector::extend(n)]: [n] more elements, none of them assigned. *)
Definition extend (name : string) (v : list Base) (n : size_t) : list Base :=
  v ++ map (indeterminate name) (seq (length v) (idx n)).

(** ** Messages of the known assertions *)

Definition msg_w_size : string :=
  "Argument w to Reverse does not have length equal to
the dimension of the range for the corresponding ADFun.".
Definition msg_p_positive : string :=
  "The first argument to Reverse must be greater than zero.".
Definition msg_taylor : string :=
  "Less that p taylor_ coefficients are currently stored in this ADFun object.".
Definition msg_first_order : string :=
  "myReverse only works for first order calculations.".

(** ** [ADFun<Base>::Reverse] *)

(** Lines 126-155: the local buffer is declared and extended, then the three
    known assertions are checked. *)
Definition Reverse_check (p : size_t) (w : list Base) : Run unit :=
  m <- member (fun F => size (dep_taddr_ F)) ;;
  total_num_var <- member total_num_var_ ;;
  put_frame_Partial (extend "Partial" [] (total_num_var *w p)) ;;
  CPPAD_ASSERT_KNOWN ((size w ==w m) || (size w ==w m *w p)) msg_w_size ;;
  CPPAD_ASSERT_KNOWN (sz 0 <w p) msg_p_positive ;;
  taylor_per_var <- member taylor_per_var_ ;;
  CPPAD_ASSERT_KNOWN (negb (taylor_per_var <w p)) msg_taylor.

(** Lines 157-160: initialize entire Partial matrix to zero. *)
Definition Reverse_zero (p : size_t) : Run unit :=
  total_num_var <- member total_num_var_ ;;
  for_lt total_num_var (fun i =>
    for_lt p (fun j =>
      frame_Partial_set (i *w p +w j) zero)).

(** Lines 165-172: the seed of the dependent variable entry [i]. *)
Definition Reverse_seed_entry (p : size_t) (w : list Base) (m i : size_t)
  : Run unit :=
  dep <- member dep_taddr_ ;;
  total_num_var <- member total_num_var_ ;;
  dep_i <- at_ dep i ;;
  CPPAD_ASSERT_UNKNOWN (dep_i <w total_num_var) ;;
  if size w ==w m then
    x <- frame_Partial_at (dep_i *w p +w p -w sz 1) ;;
    w_i <- at_ w i ;;
    frame_Partial_set (dep_i *w p +w p -w sz 1) (add x w_i)
  else
    for_lt p (fun k =>
      w_ik <- at_ w (i *w p +w k) ;;
      frame_Partial_set (dep_i *w p +w k) w_ik).

(** Lines 162-173: set the dependent variable direction. *)
Definition Reverse_seed (p : size_t) (w : list Base) : Run unit :=
  m <- member (fun F => size (dep_taddr_ F)) ;;
  for_lt m (Reverse_seed_entry p w m).

(** Lines 175-185: evaluate the derivatives. *)
Definition Reverse_sweep (p : size_t) : Run unit :=
  F <- get_this ;;
  P <- get_frame_Partial ;;
  put_frame_Partial
    (ReverseSweep (p -w sz 1) (size (ind_taddr_ F)) (total_num_var_ F)
       (play_ F) (taylor_col_dim_ F) (taylor_ F) p P).

(** Lines 190-207: the results of the independent variable [j]. *)
Definition Reverse_extract_row (p : size_t) (w : list Base) (m j : size_t)
  : Run unit :=
  ind <- member ind_taddr_ ;;
  total_num_var <- member total_num_var_ ;;
  ind_j <- at_ ind j ;;
  CPPAD_ASSERT_UNKNOWN (ind_j <w total_num_var) ;;
  play <- member play_ ;;
  op_j <- GetOp play ind_j ;;
  CPPAD_ASSERT_UNKNOWN (OpCode_eqb op_j InvOp) ;;
  if size w ==w m then
    for_lt p (fun k =>
      x <- frame_Partial_at (ind_j *w p +w p -w sz 1 -w k) ;;
      value_set (j *w p +w k) x)
  else
    for_lt p (fun k =>
      x <- frame_Partial_at (ind_j *w p +w k) ;;
      value_set (j *w p +w k) x).

(** Lines 187-210: return the derivative values. *)
Definition Reverse_extract (p : size_t) (w : list Base) : Run (list Base) :=
  n <- member (fun F => size (ind_taddr_ F)) ;;
  m <- member (fun F => size (dep_taddr_ F)) ;;
  put_value (extend "value" [] (n *w p)) ;;
  for_lt n (Reverse_extract_row p w m) ;;
  get_value.

(** The run up to line 173: the buffer as it is handed to the sweep. *)
Definition Reverse_seeded (p : size_t) (w : list Base) : Run unit :=
  Reverse_check p w ;;
  Reverse_zero p ;;
  Reverse_seed p w.

Definition Reverse (p : size_t) (w : list Base) : Run (list Base) :=
  Reverse_seeded p w ;;
  Reverse_sweep p ;;
  Reverse_extract p w.

(** ** [ADFun<Base>::myReverse]

    The name [m] is used by the second assertion while its declaration
    (line 235) is commented out; its value is a parameter here. *)

(** Lines 220-263: the known assertions. *)
Definition myReverse_check (m p : size_t) (w : list Base) : Run unit :=
  CPPAD_ASSERT_KNOWN (p ==w sz 1) msg_first_order ;;
  CPPAD_ASSERT_KNOWN ((size w ==w m) || (size w ==w m *w p)) msg_w_size ;;
  CPPAD_ASSERT_KNOWN (sz 0 <w p) msg_p_positive ;;
  taylor_per_var <- member taylor_per_var_ ;;
  CPPAD_ASSERT_KNOWN (negb (taylor_per_var <w p)) msg_taylor.

(** Lines 284-285: the unit seed, assigned into the member buffer. *)
Definition myReverse_seed (p dep_var_index : size_t) : Run unit :=
  dep <- member dep_taddr_ ;;
  dep_var_taddr <- at_ dep dep_var_index ;;
  Partial_set (dep_var_taddr *w p +w p -w sz 1) one.

(** Lines 287-304: evaluate the derivatives. *)
Definition myReverse_sweep (p dep_var_index : size_t) : Run unit :=
  F <- get_this ;;
  put_this
    (myReverseSweep (p -w sz 1) (size (ind_taddr_ F)) (total_num_var_ F)
       (play_ F) (taylor_col_dim_ F) (taylor_ F) p (Partial F)
       dep_var_index F).

(** Lines 307-316: return the derivative values. *)
Definition myReverse_extract (p : size_t) : Run unit :=
  inv <- member op_inv_index_ ;;
  for_each inv (fun it =>
    let j := it -w sz 1 in
    for_lt p (fun k =>
      ind <- member ind_taddr_ ;;
      ind_j <- at_ ind j ;;
      x <- Partial_at (ind_j *w p +w p -w sz 1 -w k) ;;
      value_set (j *w p +w k) x)).

(** Lines 332-339: fill used Partials with zeros. *)
Definition myReverse_clear (p : size_t) : Run unit :=
  mark <- member op_mark_index_ ;;
  for_each mark (fun it =>
    tps <- member tp_ ;;
    tp <- at_ tps it ;;
    for_lt (NumRes (op tp)) (fun i =>
      for_lt p (fun j =>
        Partial_set (var_index tp -w i *w p +w j) zero))).

(** The run up to line 285: the buffer as it is handed to the sweep. *)
Definition myReverse_seeded (m p : size_t) (w : list Base)
  (dep_var_index : size_t) : Run unit :=
  myReverse_check m p w ;;
  myReverse_seed p dep_var_index.

Definition myReverse (m p : size_t) (w : list Base) (dep_var_index : size_t)
  : Run unit :=
  myReverse_seeded m p w dep_var_index ;;
  myReverse_sweep p dep_var_index ;;
  myReverse_extract p ;;
  myReverse_clear p.

(** ** Vocabulary of the statements *)

(** A relation between the state before a run and the state it ends in,
    whether the run returns or fails. *)
Definition keeps (R : State -> State -> Prop) {A} (c : Run A) : Prop :=
  forall s, R s (final_state (c s)).

(** The engine object is the same in both states. *)
Definition same_engine (s s' : State) : Prop := this s' = this s.

(** The vector [value] outside the positions [it - 1], [it] in [L]: same
    length, same content; the engine object is the same. *)
Definition value_outside (L : list size_t) (s s' : State) : Prop :=
  this s' = this s /\
  length (value s') = length (value s) /\
  forall j, ~ In (j +w sz 1) L -> vget (value s') j = vget (value s) j.

(** The vector [value] is the same; the engine object has the same
    inverse-index list. *)
Definition same_value (s s' : State) : Prop :=
  value s' = value s /\ op_inv_index_ (this s') = op_inv_index_ (this s).

(** A buffer that contains all zeros. *)
Definition all_zero (P : list Base) : Prop := Forall (fun x => x = zero) P.

(** The row [r] of the buffer is one of the result slots of the operation
    with index [it]: the rows [var_index - i], [i < NumRes]. *)
Definition row_of (F : ADFun) (it : size_t) (r : nat) : Prop :=
  exists tp i,
    vget (tp_ F) it = Some tp /\
    uns i < uns (NumRes (op tp)) /\
    Z.of_nat r + uns i = uns (var_index tp).

(** The row [r] belongs to some marked operation. *)
Definition covered (F : ADFun) (r : nat) : Prop :=
  exists it, In it (op_mark_index_ F) /\ row_of F it r.

(** The arguments of a call of [myReverse]. *)
Record call : Type := mk_call {
  call_m : size_t;
  call_p : size_t;
  call_w : list Base;
  call_dep_var_index : size_t
}.

Definition run_call (c : call) : Run unit :=
  myReverse (call_m c) (call_p c) (call_w c) (call_dep_var_index c).

(** Every row is left by the propagation as the seeding handed it over,
    unless it belongs to a marked operation. *)
Definition propagation_covered (c : call) (s : State) : Prop :=
  forall s1 s2,
    myReverse_seeded (call_m c) (call_p c) (call_w c) (call_dep_var_index c) s
      = Ok tt s1 ->
    myReverse_sweep (call_p c) (call_dep_var_index c) s1 = Ok tt s2 ->
    forall r, covered (this s2) r \/
              nth_error (Partial (this s2)) r = nth_error (Partial (this s1)) r.

(** The row that receives the seed belongs to a marked operation. *)
Definition seed_covered (c : call) (s : State) : Prop :=
  forall s1 s2 a,
    myReverse_seeded (call_m c) (call_p c) (call_w c) (call_dep_var_index c) s
      = Ok tt s1 ->
    myReverse_sweep (call_p c) (call_dep_var_index c) s1 = Ok tt s2 ->
    vget (dep_taddr_ (this s)) (call_dep_var_index c) = Some a ->
    covered (this s2) (idx (a *w call_p c +w call_p c -w sz 1)).

(** A sequence of returning calls on one engine, each with a marking that
    covers the seed and the propagation; between two calls the caller may do
    anything that leaves the member buffer alone. *)
Inductive covered_calls : State -> list call -> State -> Prop :=
| covered_calls_nil s : covered_calls s [] s
| covered_calls_cons s c s1 s1' cs s' :
    run_call c s = Ok tt s1 ->
    seed_covered c s ->
    propagation_covered c s ->
    Partial (this s1') = Partial (this s1) ->
    covered_calls s1' cs s' ->
    covered_calls s (c :: cs) s'.

(** The member buffer under the clean-up: entries become zero or stay. *)
Definition zeroing (s s' : State) : Prop :=
  tp_ (this s') = tp_ (this s) /\
  op_mark_index_ (this s') = op_mark_index_ (this s) /\
  length (Partial (this s')) = length (Partial (this s)) /\
  forall r x, nth_error (Partial (this s')) r = Some x ->
              x = zero \/ nth_error (Partial (this s)) r = Some x.

(** The local buffer of [Reverse] as the zero loop leaves it. *)
Definition zeroed (p : size_t) (s : State) : Prop :=
  0 < uns p /\
  Z.of_nat (length (frame_Partial s)) = uns (total_num_var_ (this s)) * uns p /\
  uns (total_num_var_ (this s)) * uns p < wordmax /\
  forall k, (k < length (frame_Partial s))%nat ->
            nth_error (frame_Partial s) k = Some zero.

(** The buffer entry that the extraction of [Reverse] reads for order [k]
    of the independent variable at address [a]: reindexed for the short
    weight form, direct for the long one. *)
Definition source_index (short : bool) (p a k : size_t) : size_t :=
  if short then a *w p +w p -w sz 1 -w k else a *w p +w k.

(** What the extraction loop has established once the entries of [value]
    below the linear position [c] are written. *)
Definition extracted (F : ADFun) (P : list Base) (short : bool) (p : size_t)
  (L c : Z) (st : State) : Prop :=
  this st = F /\ frame_Partial st = P /\
  Z.of_nat (length (value st)) = L /\ c <= L /\
  forall j k, 0 <= j -> 0 <= k < uns p -> j * uns p + k < c ->
    exists a x,
      vget (ind_taddr_ F) (sz j) = Some a /\
      uns a < uns (total_num_var_ F) /\
      nth_error (value st) (Z.to_nat (j * uns p + k)) = Some x /\
      vget P (source_index short p a (sz k)) = Some x.

(** The entry of a vector at a position given as an integer. *)
Definition entry (v : list Base) (pos : Z) : option Base :=
  if pos <? 0 then None else nth_error v (Z.to_nat pos).

(** The long weight vector [wl] spells out the short one [ws]: the weight of
    every dependent variable at order [p - 1], zero at the other orders. *)
Definition one_hot_at_top (m p : size_t) (ws wl : list Base) : Prop :=
  forall i k, uns i < uns m -> uns k < uns p ->
    vget wl (i *w p +w k) =
    if k ==w p -w sz 1 then vget ws i else Some zero.

End Engine.

(** * The propagation, modelled from the spec *)

Section SpecSweeps.

Context {Base : Type} {BaseOps : Scalar Base} {Ops : OpLayer}.

(** Modelled from the spec: the operation-specific derivative formulas
    "supplied by the tape/operator layer", missing from [reverse.hpp]:
    [local_partial tp J Taylor i k q k'] is the partial of the order-[k]
    coefficient of result slot [i] of the operation [tp] with respect to the
    order-[k'] coefficient of its operand number [q]. *)
Variable local_partial :
  tape_point -> size_t -> list Base -> size_t -> size_t -> nat -> size_t -> Base.

(** The words [0, 1, ..., n-1]. *)
Definition word_range (n : size_t) : list size_t :=
  map (fun k => sz (Z.of_nat k)) (seq 0 (idx n)).

(** One chain-rule contribution: result slot, its order, operand, its order. *)
Definition edge : Type := (size_t * size_t * nat * size_t)%type.

Definition chain_edges (p : size_t) (tp : tape_point) : list edge :=
  flat_map (fun i =>
    flat_map (fun k =>
      flat_map (fun q =>
        map (fun k' => (i, k, q, k')) (word_range p))
        (seq 0 (length (op_arg tp))))
      (word_range p))
    (word_range (NumRes (op tp))).

(** Modelled from the spec: "add the chain-rule contribution into the
    operand rows of the adjoint buffer" (the sweeps of [reverse_sweep.hpp]
    are missing).  The result slots of an operation are the rows
    [var_index - i], [i < NumRes], as the clean-up of [myReverse] has them. *)
Definition chain_step (p J : size_t) (Taylor : list Base) (tp : tape_point)
  (P : list Base) (e : edge) : list Base :=
  let '(i, k, q, k') := e in
  match nth_error (op_arg tp) q with
  | Some a =>
      match vget P ((var_index tp -w i) *w p +w k), vget P (a *w p +w k') with
      | Some pz, Some pa =>
          match vset P (a *w p +w k')
                  (add pa (mul pz (local_partial tp J Taylor i k q k'))) with
          | Some P' => P'
          | None => P
          end
      | _, _ => P
      end
  | None => P
  end.

Definition reverse_op (p J : size_t) (Taylor : list Base) (P : list Base)
  (tp : tape_point) : list Base :=
  fold_left (chain_step p J Taylor tp) (chain_edges p tp) P.

(** Modelled from the spec: the full propagation ("traverse tape operations
    in strictly reverse recorded order"), [ReverseSweep] in the code. *)
Definition spec_ReverseSweep (d n numvar : size_t) (play : player)
  (J : size_t) (Taylor : list Base) (K : size_t) (P : list Base) : list Base :=
  fold_left (reverse_op K J Taylor) (rev play) P.

(** One step of the selective propagation: the operation with the
    identifier [it], looked up with the tape reader. *)
Definition selective_step (play : player) (K J : size_t) (Taylor : list Base)
  (P : list Base) (it : size_t) : list Base :=
  match vget play it with
  | Some tp => reverse_op K J Taylor P tp
  | None => P
  end.

(** Modelled from the spec: the selective propagation ("traverse only the
    tape operations recorded as relevant to this dependent variable, in
    reverse order restricted to that subset"), [myReverseSweep] in the code.
    The relevance index of the engine hands out the identifiers of the
    operations in reverse tape order. *)
Definition spec_myReverseSweep (d n numvar : size_t) (play : player)
  (J : size_t) (Taylor : list Base) (K : size_t) (P : list Base)
  (dep_var_index : size_t) (pf : ADFun) : ADFun :=
  set_Partial
    (fold_left (selective_step play K J Taylor) (op_mark_index_ pf) P)
    pf.

Definition spec_layer (indet : string -> nat -> Base) : SweepLayer :=
  {| ReverseSweep := spec_ReverseSweep;
     myReverseSweep := spec_myReverseSweep;
     indeterminate := indet |}.

(** *** The relevance index, as the spec defines it *)

(** The rows that hold the results of an operation. *)
Definition result_rows (tp : tape_point) : list size_t :=
  map (fun i => var_index tp -w i) (word_range (NumRes (op tp))).

Definition is_marked (marks : list size_t) (k : nat) : bool :=
  existsb (fun it => Nat.eqb (idx it) k) marks.

(** The rows of the operations of the tape that are not marked. *)
Definition unmarked_rows (play : player) (marks : list size_t) : list size_t :=
  flat_map (fun '(k, tp) => if is_marked marks k then [] else result_rows tp)
    (combine (seq 0 (length play)) play).

Definition mem_word (a : size_t) (l : list size_t) : bool := existsb (weqb a) l.

(** Reverse tape order: strictly descending identifiers below [bound]. *)
Fixpoint descending (marks : list size_t) (bound : nat) : bool :=
  match marks with
  | [] => true
  | it :: rest => Nat.ltb (idx it) bound && descending rest (idx it)
  end.

(** Modelled from the spec: "for a chosen dependent variable, the set of
    tape operations reachable backward from it", handed out in reverse tape
    order.  The marked operations are a relevance index for the variable at
    address [d] when the row [d] is a result of none of the other
    operations, and neither is any operand of a marked operation. *)
Definition relevance_index_for (play : player) (marks : list size_t)
  (d : size_t) : bool :=
  descending marks (length play) &&
  negb (mem_word d (unmarked_rows play marks)) &&
  forallb (fun it =>
    match vget play it with
    | Some tp =>
        forallb (fun a => negb (mem_word a (unmarked_rows play marks)))
          (op_arg tp)
    | None => false
    end) marks.

(** The row [r] is a result of an operation of the tape that is not
    marked. *)
Definition unmarked_row (play : player) (marks : list size_t) (r : size_t)
  : Prop :=
  exists k tp,
    nth_error play k = Some tp /\
    (forall it, In it marks -> idx it <> k) /\
    In r (result_rows tp).

(** The rows of the unmarked operations hold zero. *)
Definition rows_zero (play : player) (marks : list size_t) (P : list Base)
  : Prop :=
  forall r, unmarked_row play marks r ->
            forall y, vget P r = Some y -> y = zero.

(** No operand of a marked operation is a result of an unmarked one. *)
Definition operands_marked (play : player) (marks : list size_t) : Prop :=
  forall it tp a,
    In it marks -> vget play it = Some tp -> In a (op_arg tp) ->
    ~ unmarked_row play marks a.

End SpecSweeps.

(** * A concrete operator layer over the integers *)

Module Tape.

(** Modelled from the spec: a few operation kinds ("input marker", "add,
    multiply, unary transcendental"), with CppAD's names and result counts. *)
Inductive opcode : Type := BeginOp | EndOp | InvOp | AddvvOp | MulvvOp | SinhOp.

Definition opcode_eqb (a b : opcode) : bool :=
  match a, b with
  | BeginOp, BeginOp | EndOp, EndOp | InvOp, InvOp
  | AddvvOp, AddvvOp | MulvvOp, MulvvOp | SinhOp, SinhOp => true
  | _, _ => false
  end.

Definition num_res (o : opcode) : size_t :=
  match o with
  | EndOp => sz 0
  | SinhOp => sz 2
  | _ => sz 1
  end.

End Tape.

#[export] Instance Z_scalar : Scalar Z :=
  {| zero := 0; one := 1; add := Z.add; mul := Z.mul |}.

#[export] Instance tape_ops : OpLayer :=
  {| OpCode := Tape.opcode; OpCode_eqb := Tape.opcode_eqb;
     InvOp := Tape.InvOp; NumRes := Tape.num_res |}.

(** The variable whose Taylor coefficients are those of a local partial:
    [None] for the constant one. *)
Definition partial_var (tp : tape_point) (i : size_t) (q : nat)
  : option (option size_t) :=
  match op tp, idx i, q with
  | Tape.AddvvOp, O, O => Some None
  | Tape.AddvvOp, O, S O => Some None
  | Tape.MulvvOp, O, O => option_map Some (nth_error (op_arg tp) 1)
  | Tape.MulvvOp, O, S O => option_map Some (nth_error (op_arg tp) 0)
  | Tape.SinhOp, O, O => Some (Some (var_index tp -w sz 1))
  | Tape.SinhOp, S O, O => Some (Some (var_index tp))
  | _, _, _ => None
  end.

(** Modelled from the spec: the derivative formulas of the operations above
    over [Z]: the partial of the order-[k] coefficient of a result with
    respect to the order-[k'] coefficient of an operand is the coefficient
    of order [k - k'] of the partial derivative. *)
Definition Z_local_partial (tp : tape_point) (J : size_t) (Taylor : list Z)
  (i k : size_t) (q : nat) (k' : size_t) : Z :=
  if k <w k' then 0
  else
    match partial_var tp i q with
    | Some None => if k ==w k' then 1 else 0
    | Some (Some a) =>
        match vget Taylor (a *w J +w (k -w k')) with
        | Some c => c
        | None => 0
        end
    | None => 0
    end.

(** Fresh storage holds whatever was there: some value other than zero. *)
Definition Z_sweeps : SweepLayer :=
  spec_layer Z_local_partial (fun _ i => 1000 + Z.of_nat i).

Definition szs (l : list Z) : list size_t := map sz l.

(** The tape of [y = x0 * x1 + x0] at [x0 = 3], [x1 = 4], with the relevance
    index of its single dependent variable. *)
Definition tape_mul_add : player :=
  [ mk_tape_point Tape.BeginOp [] (sz 0);
    mk_tape_point Tape.InvOp [] (sz 1);
    mk_tape_point Tape.InvOp [] (sz 2);
    mk_tape_point Tape.MulvvOp (szs [1; 2]) (sz 3);
    mk_tape_point Tape.AddvvOp (szs [3; 1]) (sz 4);
    mk_tape_point Tape.EndOp [] (sz 4) ].

Definition engine_marked (mark : list Z) (buffer : list Z) : ADFun :=
  {| ind_taddr_ := szs [1; 2];
     dep_taddr_ := szs [4];
     total_num_var_ := sz 5;
     taylor_per_var_ := sz 1;
     taylor_col_dim_ := sz 1;
     taylor_ := [0; 3; 4; 12; 15];
     play_ := tape_mul_add;
     Partial := buffer;
     tp_ := tape_mul_add;
     op_mark_index_ := szs mark;
     op_inv_index_ := szs [1; 2] |}.

Definition engine_mul_add (buffer : list Z) : ADFun :=
  engine_marked [4; 3; 2; 1] buffer.

(** The same tape with two stored orders ([x0 = 3 + t], [x1 = 4]) and a
    chosen list of dependent variable addresses. *)
Definition engine_order2 (dep : list Z) : ADFun :=
  {| ind_taddr_ := szs [1; 2];
     dep_taddr_ := szs dep;
     total_num_var_ := sz 5;
     taylor_per_var_ := sz 2;
     taylor_col_dim_ := sz 2;
     taylor_ := [0; 0; 3; 1; 4; 0; 12; 4; 15; 5];
     play_ := tape_mul_add;
     Partial := [0; 0; 0; 0; 0];
     tp_ := tape_mul_add;
     op_mark_index_ := szs [4; 3; 2; 1];
     op_inv_index_ := szs [1; 2] |}.

(** The tape of [y = sinh x0] at [x0 = 0]: the operation has two result
    slots, [cosh x0 = 1] in row 2 and [sinh x0 = 0] in row 3. *)
Definition tape_sinh : player :=
  [ mk_tape_point Tape.BeginOp [] (sz 0);
    mk_tape_point Tape.InvOp [] (sz 1);
    mk_tape_point Tape.SinhOp (szs [1]) (sz 3);
    mk_tape_point Tape.EndOp [] (sz 3) ].

Definition engine_sinh (buffer : list Z) : ADFun :=
  {| ind_taddr_ := szs [1];
     dep_taddr_ := szs [3];
     total_num_var_ := sz 4;
     taylor_per_var_ := sz 1;
     taylor_col_dim_ := sz 1;
     taylor_ := [0; 0; 1; 0];
     play_ := tape_sinh;
     Partial := buffer;
     tp_ := tape_sinh;
     op_mark_index_ := szs [2; 1];
     op_inv_index_ := szs [1] |}.

Definition start_state (F : ADFun) (v : list Z) : State :=
  {| this := F; frame_Partial := []; value := v |}.

(** The selective sweep for the dependent variable 0, first order. *)
Definition call_dep0 : call := mk_call (sz 1) (sz 1) [1] (sz 0).

(** * Further vocabulary of the entry points *)

(** The outcome of a run, with the state it ends in put through [h]. *)
Definition map_state {S A} (h : S -> S) (o : outcome S A) : outcome S A :=
  match o with
  | Ok a s => Ok a (h s)
  | Err e s => Err e (h s)
  end.

Section EngineRuns.

Context {Base : Type} {BaseOps : Scalar Base} {Ops : OpLayer}.

Local Abbreviation St := (State (Base:=Base)).

(** The state with the member buffer replaced by [b]. *)
Definition with_buffer (b : list Base) (s : St) : St :=
  mk_State (set_Partial b (this s)) (frame_Partial s) (value s).

(** A run that neither reads nor writes the member buffer: replacing the
    buffer before the run or after it comes to the same. *)
Definition buffer_blind (b : list Base) {A} (c : Run (Base:=Base) A) : Prop :=
  forall s, c (with_buffer b s) = map_state (with_buffer b) (c s).

(** A run that checks no assertion: it returns, or it fails by an access
    outside a vector. *)
Definition faults_only {A} (c : Run (Base:=Base) A) : Prop :=
  forall s e s', c s = Err e s' -> e = OutOfRange.

(** The buffer position [pos] lies where the seeding of [Reverse] writes
    for a dependent variable at address [d]: the entry of order [p - 1] of
    the row with the short weight form, the whole row with the long one. *)
Definition seeded_position (short : bool) (p d : size_t) (pos : Z) : Prop :=
  if short then pos = uns d * uns p + uns p - 1
  else uns d * uns p <= pos < uns d * uns p + uns p.

End EngineRuns.

(** * The radix sort (lines 382-519 of the source file) *)

(** ** Local variables, loops and vectors

    The member functions of [radix] work on vectors held in local variables
    and in the object; a run hands them from statement to statement, and
    ends with [None] when it leaves the defined behaviour (an access outside
    a vector) or aborts (a failed [ASSERT]). *)

Definition obind {A B} (o : option A) (f : A -> option B) : option B :=
  match o with
  | Some a => f a
  | None => None
  end.

Declare Scope option_scope.
Delimit Scope option_scope with option.
Notation "x <- c ;; k" := (obind c (fun x => k))
  (at level 61, c at next level, right associativity) : option_scope.

(** [for(size_t i = start; ...; i++)], [count] iterations, over the local
    variables [a]. *)
Fixpoint loop_from {A} (start : Z) (count : nat)
  (body : size_t -> A -> option A) (a : A) : option A :=
  match count with
  | O => Some a
  | S c => obind (body (sz start) a) (loop_from (start + 1) c body)
  end.

(** [for(size_t i = 0; i < m; i++)] *)
Definition loop_lt {A} (m : size_t) (body : size_t -> A -> option A) (a : A)
  : option A :=
  loop_from 0 (idx m) body a.

(** [for(size_t k = start; ...; k += step)], [count] iterations; the
    counter is handed on as the [int] it is converted to. *)
Fixpoint loop_by {A} (step start : Z) (count : nat)
  (body : Z -> A -> option A) (a : A) : option A :=
  match count with
  | O => Some a
  | S c => obind (body start a) (loop_by step (start + step) c body)
  end.

(** [std::vector<A> v(n)]: [n] value-initialised elements. *)
Definition vector {A} (n : size_t) (d : A) : list A := repeat d (idx n).

(** [v.resize(n)] *)
Definition resize {A} (v : list A) (n : size_t) (d : A) : list A :=
  firstn (idx n) v ++ repeat d (idx n - length v).

(** [std::fill(v.begin(), v.end(), d)] *)
Definition fill {A} (v : list A) (d : A) : list A := map (fun _ => d) v.

(** The template parameter [I], "integer type of the index type": what the
    code does with it is to convert a position to it ([x_order[i] = i]) and
    to use it as a position ([ans[x_order[i]]]).  A value-initialised
    element of a vector of [I] is the conversion of zero. *)
Class IndexType (I : Type) : Type := {
  I_of_size_t : size_t -> I;
  size_t_of_I : I -> size_t
}.

Module radix.

Section Struct.

(** The template parameter [T], "unsigned integer value type of vector to
    be sorted": an unsigned type of [sizeof_T] bytes, its values the
    integers below [2 ^ total_width]. *)
Variable sizeof_T : nat.

Context {I : Type} {index : IndexType I}.

Local Open Scope option_scope.

Definition radix_width : Z := 8.
Definition total_width : Z := Z.of_nat sizeof_T * 8.
Definition num_keys : Z := Z.shiftl 1 radix_width.
Definition mask : Z := num_keys - 1.

(** The conversion [T(z)] of an [int]. *)
Definition T_of_int (z : Z) : Z := z mod 2 ^ total_width.

Record radix : Type := mk_radix {
  x : list Z;                        (* reference to the input vector *)
  x_sort : list Z;                   (* output: sort(x) *)
  x_order : list I                   (* output: order(x) permutation *)
}.

(** Line 441: [size_t key(T x, int k)] *)
Definition key (v : Z) (k : Z) : size_t := sz (Z.land (Z.shiftr v k) mask).

(** Lines 397-401, [ASSERT(x)]: prints and aborts when [x] is false. *)
Definition ASSERT (c : bool) : option unit := if c then Some tt else None.

(** Lines 443-446: the constructor; the outputs start empty. *)
Definition make (x : list Z) : option radix :=
  _ <- ASSERT (T_of_int 0 <? T_of_int (-1)) ;;
  _ <- ASSERT (total_width mod radix_width =? 0) ;;
  Some (mk_radix x [] []).

(** The local vectors of [run_sort]. *)
Record locals : Type := mk_locals {
  count : list size_t;
  pos : list size_t;
  y_order : list I;
  y_sort : list Z
}.

(** Lines 449-453, the first loop of [run_sort]: the bits common to all
    elements, and the bits of any element. *)
Definition min_max (x : list Z) : option (Z * Z) :=
  loop_lt (size x) (fun i '(bitwise_min, bitwise_max) =>
    x_i <- vget x i ;;
    Some (Z.land bitwise_min x_i, Z.lor bitwise_max x_i))
    (T_of_int (Z.lnot 0), T_of_int 0).

(** [for (size_t i = 0; i < v.size(); i++) v[i] = i;] (lines 457 and
    499) *)
Definition iota (v : list I) : option (list I) :=
  loop_lt (size v) (fun i v => vset v i (I_of_size_t i)) v.

(** Lines 468-470: the counting loop of a pass. *)
Definition count_keys (k : Z) (x : list Z) (count : list size_t)
  : option (list size_t) :=
  loop_lt (size x) (fun i count =>
    x_i <- vget x i ;;
    c <- vget count (key x_i k) ;;
    vset count (key x_i k) (c +w sz 1)) count.

(** Lines 473-475: the loop of a pass that turns the counts into first
    positions. *)
Definition offsets (count pos : list size_t) : option (list size_t) :=
  loop_from 1 (idx (size pos) - 1) (fun i pos =>
    p <- vget pos (i -w sz 1) ;;
    c <- vget count (i -w sz 1) ;;
    vset pos i (p +w c)) pos.

(** Lines 476-483: the loop of a pass that moves the elements; [j] is a
    reference to [pos[key(x_sort_i, k)]], incremented at the end of the
    body. *)
Definition scatter (get_order : bool) (k : Z) (r : radix)
  (pos : list size_t) (y_sort : list Z) (y_order : list I)
  : option (list size_t * list Z * list I) :=
  loop_lt (size (x r)) (fun i '(pos, y_sort, y_order) =>
    x_sort_i <- vget (x_sort r) i ;;
    j <- vget pos (key x_sort_i k) ;;
    y_sort <- vset y_sort j x_sort_i ;;
    y_order <- (if get_order
                then o <- vget (x_order r) i ;; vset y_order j o
                else Some y_order) ;;
    pos <- vset pos (key x_sort_i k) (j +w sz 1) ;;
    Some (pos, y_sort, y_order)) (pos, y_sort, y_order).

(** Lines 465-485, the body of the loop over [k]: one pass, skipped when
    all elements have the same key; it ends with the two swaps. *)
Definition pass (get_order : bool) (bitwise_min bitwise_max : Z) (k : Z)
  (st : radix * locals) : option (radix * locals) :=
  let '(r, l) := st in
  if key bitwise_min k ==w key bitwise_max k then Some st
  else
    count <- count_keys k (x r) (fill (count l) (sz 0)) ;;
    pos <- offsets count (fill (pos l) (sz 0)) ;;
    moved <- scatter get_order k r pos (y_sort l) (y_order l) ;;
    let '(pos, y_sort, y_order) := moved in
    Some (mk_radix (x r) y_sort y_order,
          mk_locals count pos (x_order r) (x_sort r)).

(** The number of iterations of
    [for (size_t k = 0; k < total_width; k += radix_width)]. *)
Definition num_passes : nat :=
  Z.to_nat ((total_width + radix_width - 1) / radix_width).

(** Lines 447-487: [template <bool get_order> void run_sort()] *)
Definition run_sort (get_order : bool) (r : radix) : option radix :=
  mm <- min_max (x r) ;;
  let '(bitwise_min, bitwise_max) := mm in
  let x_sort := x r in
  let x_order :=
    resize (x_order r) (size (x r) *w sz (Z.b2z get_order))
      (I_of_size_t (sz 0)) in
  x_order <- iota x_order ;;
  let count := vector (sz num_keys) (sz 0) in
  let pos := vector (sz num_keys) (sz 0) in
  let y_order :=
    vector (size (x r) *w sz (Z.b2z get_order)) (I_of_size_t (sz 0)) in
  let y_sort := vector (size (x r)) 0 in
  st <- loop_by radix_width 0 num_passes (pass get_order bitwise_min bitwise_max)
          (mk_radix (x r) x_sort x_order, mk_locals count pos y_order y_sort) ;;
  Some (fst st).

(** Lines 488-491, [std::vector<T> sort()]: the vector returned, and the
    object. *)
Definition sort (r : radix) : option (list Z * radix) :=
  r <- run_sort false r ;;
  Some (x_sort r, r).

(** Lines 492-495: [std::vector<I> order()] *)
Definition order (r : radix) : option (list I * radix) :=
  r <- run_sort true r ;;
  Some (x_order r, r).

(** Lines 496-506: [std::vector<I> first_occurance()] *)
Definition first_occurance (r : radix) : option (list I * radix) :=
  r <- run_sort true r ;;
  ans <- iota (vector (size (x_order r)) (I_of_size_t (sz 0))) ;;
  ans <- loop_from 1 (idx (size (x_sort r)) - 1) (fun i ans =>
           a <- vget (x_sort r) (i -w sz 1) ;;
           b <- vget (x_sort r) i ;;
           if a =? b then
             o <- vget (x_order r) i ;;
             o' <- vget (x_order r) (i -w sz 1) ;;
             first <- vget ans (size_t_of_I o') ;;
             vset ans (size_t_of_I o) first
           else Some ans) ans ;;
  Some (ans, r).

End Struct.

End radix.

(** Lines 509-517, the functions of the namespace:
    [radix<T, I>(x).order()] and [radix<T, I>(x).first_occurance()]. *)
Definition order (sizeof_T : nat) {I} {index : IndexType I} (x : list Z)
  : option (list I) :=
  option_map fst (obind (radix.make sizeof_T x) (radix.order sizeof_T)).

Definition first_occurance (sizeof_T : nat) {I} {index : IndexType I}
  (x : list Z) : option (list I) :=
  option_map fst (obind (radix.make sizeof_T x) (radix.first_occurance sizeof_T)).

(** [unsigned int], the index type of the callers ([GLOBAL_INDEX_TYPE]). *)
#[export] Instance unsigned_int : IndexType Z :=
  {| I_of_size_t := fun i => uns i mod 2 ^ 32;
     size_t_of_I := fun z => sz z |}.

(** ** Vocabulary of the statements about the radix sort *)

Section Buckets.

Context {A : Type}.

(** The key of an element in the pass at hand. *)
Variable d : A -> nat.

(** The elements with the key [b], in the order they have in [l]. *)
Definition bucket (b : nat) (l : list A) : list A :=
  filter (fun a => Nat.eqb (d a) b) l.

(** The buckets of the keys below [nb], one after the other. *)
Definition buckets (nb : nat) (l : list A) : list A :=
  flat_map (fun b => bucket b l) (seq 0 nb).

End Buckets.

(** An element of the vector with the position it has in the input. *)
Definition tagged (x : list Z) : list (Z * nat) := combine x (seq 0 (length x)).

(** The key of a tagged element in the pass over the bits from [k] on. *)
Definition digit (k : Z) (a : Z * nat) : nat := idx (radix.key (fst a) k).

(** The bits of [v] that the first [j] passes have looked at. *)
Definition low (j : nat) (v : Z) : Z := v mod 2 ^ (radix.radix_width * Z.of_nat j).

(** The order that [j] passes establish: by the low bits, and by the
    position in the input among elements with the same low bits. *)
Definition before (j : nat) (a b : Z * nat) : Prop :=
  low j (fst a) < low j (fst b) \/
  (low j (fst a) = low j (fst b) /\ (snd a < snd b)%nat).

(** The position [q] as a value of the index type. *)
Definition position {I} {index : IndexType I} (q : nat) : I :=
  I_of_size_t (sz (Z.of_nat q)).

(** The vector holds values of [T]. *)
Definition values_of_T (sizeof_T : nat) (x : list Z) : Prop :=
  Forall (fun v => 0 <= v < 2 ^ radix.total_width sizeof_T) x.

(** [q] is the first position of [x] that holds [v]. *)
Definition first_at (x : list Z) (v : Z) (q : nat) : Prop :=
  nth_error x q = Some v /\
  forall q', (q' < q)%nat -> nth_error x q' <> Some v.

(** What the moving loop of a pass has done to the vector [Y] once the
    first [i] elements of [L] are moved: the element number [r] of a bucket
    is where the buckets before it end, [r] places on. *)
Definition filled {A B} (d : A -> nat) (g : A -> B) (L : list A) (Y : list B)
  (i : nat) : Prop :=
  forall b r a,
    nth_error (bucket d b (firstn i L)) r = Some a ->
    nth_error Y (length (buckets d b L) + r) = Some (g a).

(** What holds between the passes of [run_sort] on the input [xs], after
    [j] of them: [x_sort] and, with [get_order], [x_order] hold the elements
    and their positions in the input, rearranged and in the order that [j]
    passes establish; the local vectors have their lengths. *)
Definition pass_inv {I} {index : IndexType I} (xs : list Z) (get_order : bool)
  (j : nat) (st : radix.radix (I:=I) * radix.locals (I:=I)) : Prop :=
  radix.x (fst st) = xs /\
  length (radix.count (snd st)) = 256%nat /\
  length (radix.pos (snd st)) = 256%nat /\
  length (radix.y_sort (snd st)) = length xs /\
  exists L,
    Permutation L (tagged xs) /\
    StronglySorted (before j) L /\
    radix.x_sort (fst st) = map fst L /\
    if get_order then
      radix.x_order (fst st) = map (fun a => position (snd a)) L /\
      length (radix.y_order (snd st)) = length xs
    else
      radix.x_order (fst st) = [] /\ radix.y_order (snd st) = [].

(** * Facts about words and vectors *)

Lemma uns_range (a : size_t) : 0 <= uns a < wordmax.
Proof. unfold uns, wordmax. apply word.unsigned_range. Qed.

Lemma uns_sz (z : Z) : 0 <= z < wordmax -> uns (sz z) = z.
Proof.
  intros H. unfold uns, sz. rewrite word.unsigned_of_Z.
  unfold word.wrap. apply Z.mod_small. exact H.
Qed.

Lemma uns_inj (a b : size_t) : uns a = uns b -> a = b.
Proof. unfold uns. apply word.unsigned_inj. Qed.

Lemma sz_uns (a : size_t) : sz (uns a) = a.
Proof. unfold sz, uns. apply word.of_Z_unsigned. Qed.

Lemma uns_add (a b : size_t) : uns (a +w b) = (uns a + uns b) mod wordmax.
Proof. unfold uns, wadd. rewrite word.unsigned_add. reflexivity. Qed.

Lemma uns_sub (a b : size_t) : uns (a -w b) = (uns a - uns b) mod wordmax.
Proof. unfold uns, wsub. rewrite word.unsigned_sub. reflexivity. Qed.

Lemma uns_mul (a b : size_t) : uns (a *w b) = (uns a * uns b) mod wordmax.
Proof. unfold uns, wmul. rewrite word.unsigned_mul. reflexivity. Qed.

Lemma eqb_eq (a b : size_t) : (a ==w b) = true <-> a = b.
Proof.
  unfold weqb. destruct (word.eqb_spec a b) as [H | H]; split; intros H'; congruence.
Qed.

Lemma eqb_neq (a b : size_t) : (a ==w b) = false <-> a <> b.
Proof.
  unfold weqb. destruct (word.eqb_spec a b) as [H | H]; split; intros H'; congruence.
Qed.

Lemma ltu_lt (a b : size_t) : (a <w b) = true <-> uns a < uns b.
Proof. unfold uns, wltu. rewrite word.unsigned_ltu. apply Z.ltb_lt. Qed.

Lemma ltu_ge (a b : size_t) : (a <w b) = false <-> uns b <= uns a.
Proof. unfold uns, wltu. rewrite word.unsigned_ltu. rewrite Z.ltb_ge. reflexivity. Qed.

Lemma idx_inj (a b : size_t) : idx a = idx b -> a = b.
Proof.
  unfold idx. intros H. apply uns_inj.
  pose proof (uns_range a). pose proof (uns_range b). lia.
Qed.

Lemma row_col_unique (p j k j' k' : Z) :
  0 <= k < p -> 0 <= k' < p -> j * p + k = j' * p + k' -> j = j' /\ k = k'.
Proof.
  intros Hk Hk' E.
  assert (j = j') by (destruct (Z.lt_trichotomy j j') as [H | [H | H]]; nia).
  subst j'. split; [reflexivity | lia].
Qed.

Lemma uns_one : uns (sz 1) = 1.
Proof. reflexivity. Qed.

Lemma uns_zero : uns (sz 0) = 0.
Proof. reflexivity. Qed.

Lemma wordmax_pos : 0 < wordmax.
Proof. reflexivity. Qed.

Section VectorFacts.

Context {A : Type}.

Lemma upd_length (v : list A) n x v' : upd v n x = Some v' -> length v' = length v.
Proof.
  revert n v'. induction v as [| h t IH]; intros [| n] v' H; simpl in H;
    try discriminate.
  - injection H as <-. reflexivity.
  - destruct (upd t n x) as [t' |] eqn:E; simpl in H; [| discriminate].
    injection H as <-. simpl. f_equal. eapply IH. exact E.
Qed.

Lemma upd_lt (v : list A) n x v' : upd v n x = Some v' -> (n < length v)%nat.
Proof.
  revert n v'. induction v as [| h t IH]; intros [| n] v' H; simpl in H;
    try discriminate; simpl.
  - lia.
  - destruct (upd t n x) as [t' |] eqn:E; simpl in H; [| discriminate].
    apply IH in E. lia.
Qed.

Lemma upd_same (v : list A) n x v' : upd v n x = Some v' -> nth_error v' n = Some x.
Proof.
  revert n v'. induction v as [| h t IH]; intros [| n] v' H; simpl in H;
    try discriminate.
  - injection H as <-. reflexivity.
  - destruct (upd t n x) as [t' |] eqn:E; simpl in H; [| discriminate].
    injection H as <-. simpl. eapply IH. exact E.
Qed.

Lemma upd_other (v : list A) n x v' k :
  upd v n x = Some v' -> k <> n -> nth_error v' k = nth_error v k.
Proof.
  revert n v' k. induction v as [| h t IH]; intros [| n] v' k H Hk; simpl in H;
    try discriminate.
  - injection H as <-. destruct k; [congruence | reflexivity].
  - destruct (upd t n x) as [t' |] eqn:E; simpl in H; [| discriminate].
    injection H as <-. destruct k; simpl; [reflexivity |].
    eapply IH; [exact E | congruence].
Qed.

Lemma upd_id (v : list A) n x : nth_error v n = Some x -> upd v n x = Some v.
Proof.
  revert n. induction v as [| h t IH]; intros [| n] H; simpl in *; try discriminate.
  - injection H as ->. reflexivity.
  - rewrite (IH n H). reflexivity.
Qed.

Lemma vset_length (v : list A) i x v' : vset v i x = Some v' -> length v' = length v.
Proof. apply upd_length. Qed.

Lemma vset_lt (v : list A) i x v' : vset v i x = Some v' -> uns i < Z.of_nat (length v).
Proof.
  intros H. apply upd_lt in H. unfold idx in H.
  pose proof (uns_range i). lia.
Qed.

Lemma vset_same (v : list A) i x v' : vset v i x = Some v' -> vget v' i = Some x.
Proof. apply upd_same. Qed.

Lemma vset_other (v : list A) i x v' j :
  vset v i x = Some v' -> j <> i -> vget v' j = vget v j.
Proof.
  intros H Hj. unfold vget. eapply upd_other; [exact H |].
  intros E. apply Hj. apply idx_inj. exact E.
Qed.

Lemma vset_other_nat (v : list A) i x v' k :
  vset v i x = Some v' -> k <> idx i -> nth_error v' k = nth_error v k.
Proof. intros H Hk. eapply upd_other; eassumption. Qed.

Lemma vget_lt (v : list A) i x : vget v i = Some x -> uns i < Z.of_nat (length v).
Proof.
  unfold vget, idx. intros H.
  assert (Hn : nth_error v (Z.to_nat (uns i)) <> None) by congruence.
  apply nth_error_Some in Hn. pose proof (uns_range i). lia.
Qed.

Lemma list_ext (v v' : list A) :
  (forall k, nth_error v k = nth_error v' k) -> v = v'.
Proof.
  revert v'. induction v as [| h t IH]; intros [| h' t'] H.
  - reflexivity.
  - specialize (H O). discriminate.
  - specialize (H O). discriminate.
  - f_equal.
    + specialize (H O). simpl in H. congruence.
    + apply IH. intros k. exact (H (S k)).
Qed.

End VectorFacts.

(** * Facts about runs *)

Section MonadFacts.

Context {S A B : Type}.

Lemma bind_ok (c : M S A) (f : A -> M S B) s b s2 :
  bind c f s = Ok b s2 -> exists a s1, c s = Ok a s1 /\ f a s1 = Ok b s2.
Proof.
  unfold bind. destruct (c s) as [a s1 | e s1]; intros H; [| discriminate].
  exists a, s1. split; [reflexivity | exact H].
Qed.

Lemma final_state_bind (c : M S A) (f : A -> M S B) s :
  final_state (bind c f s) =
  match c s with
  | Ok a s1 => final_state (f a s1)
  | Err _ s1 => s1
  end.
Proof. unfold bind. destruct (c s); reflexivity. Qed.

End MonadFacts.

Section RunFacts.

Context {Base : Type} {BaseOps : Scalar Base} {Ops : OpLayer}.

Local Abbreviation St := (State (Base:=Base)).

Implicit Types (s : St) (i : size_t).

Lemma member_ok {A} (f : ADFun -> A) s a s' :
  member f s = Ok a s' -> a = f (this s) /\ s' = s.
Proof. unfold member. intros H. injection H as <- <-. split; reflexivity. Qed.

Lemma assert_known_ok (b : bool) msg s u s' :
  CPPAD_ASSERT_KNOWN b msg s = Ok u s' -> b = true /\ s' = s.
Proof.
  unfold CPPAD_ASSERT_KNOWN. destruct b; intros H; [| discriminate].
  injection H as _ <-. split; reflexivity.
Qed.

Lemma assert_unknown_ok (b : bool) s u s' :
  CPPAD_ASSERT_UNKNOWN b s = Ok u s' -> b = true /\ s' = s.
Proof.
  unfold CPPAD_ASSERT_UNKNOWN. destruct b; intros H; [| discriminate].
  injection H as _ <-. split; reflexivity.
Qed.

Lemma at_ok {A} (v : list A) i s a s' :
  at_ v i s = Ok a s' -> vget v i = Some a /\ s' = s.
Proof.
  unfold at_, of_option. destruct (vget v i); intros H; [| discriminate].
  injection H as <- <-. split; reflexivity.
Qed.

Lemma GetOp_ok (play : player) i s o s' :
  GetOp play i s = Ok o s' -> exists tp, vget play i = Some tp /\ o = op tp /\ s' = s.
Proof.
  unfold GetOp. intros H. apply bind_ok in H. destruct H as (tp & s1 & H1 & H2).
  apply at_ok in H1. destruct H1 as [H1 ->]. injection H2 as <- <-.
  exists tp. repeat split. exact H1.
Qed.

Lemma frame_Partial_at_ok i s (x : Base) s' :
  frame_Partial_at i s = Ok x s' -> vget (frame_Partial s) i = Some x /\ s' = s.
Proof.
  unfold frame_Partial_at, get_frame_Partial, bind. apply at_ok.
Qed.

Lemma frame_Partial_set_ok i (x : Base) s u s' :
  frame_Partial_set i x s = Ok u s' ->
  exists P', vset (frame_Partial s) i x = Some P' /\
             s' = mk_State (this s) P' (value s).
Proof.
  unfold frame_Partial_set, get_frame_Partial, bind, of_option.
  destruct (vset (frame_Partial s) i x) as [P' |]; simpl; intros H;
    [| discriminate].
  injection H as _ <-. exists P'. split; reflexivity.
Qed.

Lemma Partial_at_ok i s (x : Base) s' :
  Partial_at i s = Ok x s' -> vget (Partial (this s)) i = Some x /\ s' = s.
Proof.
  unfold Partial_at, get_Partial, bind. apply at_ok.
Qed.

Lemma Partial_set_ok i (x : Base) s u s' :
  Partial_set i x s = Ok u s' ->
  exists P', vset (Partial (this s)) i x = Some P' /\
             s' = mk_State (set_Partial P' (this s)) (frame_Partial s) (value s).
Proof.
  unfold Partial_set, get_Partial, bind, of_option.
  destruct (vset (Partial (this s)) i x) as [P' |]; simpl; intros H;
    [| discriminate].
  injection H as _ <-. exists P'. split; reflexivity.
Qed.

Lemma value_set_ok i (x : Base) s u s' :
  value_set i x s = Ok u s' ->
  exists v', vset (value s) i x = Some v' /\
             s' = mk_State (this s) (frame_Partial s) v'.
Proof.
  unfold value_set, get_value, bind, of_option.
  destruct (vset (value s) i x) as [v' |]; simpl; intros H; [| discriminate].
  injection H as _ <-. exists v'. split; reflexivity.
Qed.

(** *** Loops: invariants of runs that return *)

Lemma for_from_inv (I : Z -> State -> Prop) (body : size_t -> Run unit) :
  forall count start s s',
    for_from start count body s = Ok tt s' ->
    I start s ->
    (forall k s1 s2, start <= k < start + Z.of_nat count ->
       I k s1 -> body (sz k) s1 = Ok tt s2 -> I (k + 1) s2) ->
    I (start + Z.of_nat count) s'.
Proof.
  induction count as [| c IH]; intros start s s' Hrun H0 Hstep.
  - simpl in Hrun. injection Hrun as <-. replace (start + Z.of_nat 0) with start by lia.
    exact H0.
  - simpl in Hrun. apply bind_ok in Hrun. destruct Hrun as ([] & s1 & Hb & Hrest).
    replace (start + Z.of_nat (Datatypes.S c)) with ((start + 1) + Z.of_nat c) by lia.
    apply (IH (start + 1) s1 s' Hrest).
    + apply (Hstep start s s1); [lia | exact H0 | exact Hb].
    + intros k s2 s3 Hk. apply Hstep. lia.
Qed.

Lemma for_lt_inv (I : Z -> State -> Prop) (m : size_t) (body : size_t -> Run unit) s s' :
  for_lt m body s = Ok tt s' ->
  I 0 s ->
  (forall k s1 s2, 0 <= k < uns m ->
     I k s1 -> body (sz k) s1 = Ok tt s2 -> I (k + 1) s2) ->
  I (uns m) s'.
Proof.
  intros Hrun H0 Hstep. unfold for_lt in Hrun.
  pose proof (uns_range m) as Hm.
  replace (uns m) with (0 + Z.of_nat (idx m)) by (unfold idx; lia).
  apply (for_from_inv I body _ _ _ _ Hrun H0).
  intros k s1 s2 Hk. apply Hstep. unfold idx in Hk. lia.
Qed.

Lemma for_each_inv (I : list size_t -> State -> Prop) (body : size_t -> Run unit) :
  forall v pre s s',
    for_each v body s = Ok tt s' ->
    I pre s ->
    (forall done x s1 s2, In x v ->
       I done s1 -> body x s1 = Ok tt s2 -> I (done ++ [x]) s2) ->
    I (pre ++ v) s'.
Proof.
  induction v as [| x t IH]; intros pre s s' Hrun H0 Hstep.
  - simpl in Hrun. injection Hrun as <-. rewrite app_nil_r. exact H0.
  - simpl in Hrun. apply bind_ok in Hrun. destruct Hrun as ([] & s1 & Hb & Hrest).
    replace (pre ++ x :: t) with ((pre ++ [x]) ++ t)
      by (rewrite <- app_assoc; reflexivity).
    apply (IH (pre ++ [x]) s1 s' Hrest).
    + apply (Hstep pre x s s1); [left; reflexivity | exact H0 | exact Hb].
    + intros done y s2 s3 Hy. apply Hstep. right. exact Hy.
Qed.

Lemma for_from_body_ok (Inv : St -> Prop) (body : size_t -> Run unit) :
  (forall k s1 s2, Inv s1 -> body k s1 = Ok tt s2 -> Inv s2) ->
  forall count start s s',
    for_from start count body s = Ok tt s' ->
    Inv s ->
    forall k, start <= k < start + Z.of_nat count ->
    exists s1 s2, Inv s1 /\ body (sz k) s1 = Ok tt s2.
Proof.
  intros Hstep.
  induction count as [| c IH]; intros start s s' Hrun H0 k Hk; [lia |].
  simpl in Hrun. apply bind_ok in Hrun. destruct Hrun as ([] & s1 & Hb & Hrest).
  destruct (Z.eq_dec k start) as [-> | Hne].
  - exists s, s1. split; [exact H0 | exact Hb].
  - apply (IH (start + 1) s1 s' Hrest); [| lia].
    eapply Hstep; eassumption.
Qed.

Lemma for_lt_body_ok (Inv : St -> Prop) (m : size_t) (body : size_t -> Run unit) s s' :
  (forall k s1 s2, Inv s1 -> body k s1 = Ok tt s2 -> Inv s2) ->
  for_lt m body s = Ok tt s' ->
  Inv s ->
  forall k, 0 <= k < uns m -> exists s1 s2, Inv s1 /\ body (sz k) s1 = Ok tt s2.
Proof.
  intros Hstep Hrun H0 k Hk.
  apply (for_from_body_ok Inv body Hstep _ _ _ _ Hrun H0).
  unfold idx. lia.
Qed.

(** Two loops over the same range, run side by side. *)
Lemma for_from_lockstep (R : Z -> St -> St -> Prop) (body body' : size_t -> Run unit) :
  forall count start s s' t t',
    for_from start count body s = Ok tt t ->
    for_from start count body' s' = Ok tt t' ->
    R start s s' ->
    (forall k a a' b b', start <= k < start + Z.of_nat count ->
       R k a a' -> body (sz k) a = Ok tt b -> body' (sz k) a' = Ok tt b' ->
       R (k + 1) b b') ->
    R (start + Z.of_nat count) t t'.
Proof.
  induction count as [| c IH]; intros start s s' t t' Hrun Hrun' H0 Hstep.
  - simpl in Hrun, Hrun'. injection Hrun as <-. injection Hrun' as <-.
    replace (start + Z.of_nat 0) with start by lia. exact H0.
  - simpl in Hrun, Hrun'.
    apply bind_ok in Hrun. destruct Hrun as ([] & s1 & Hb & Hrest).
    apply bind_ok in Hrun'. destruct Hrun' as ([] & s1' & Hb' & Hrest').
    replace (start + Z.of_nat (Datatypes.S c)) with ((start + 1) + Z.of_nat c) by lia.
    apply (IH (start + 1) s1 s1' t t' Hrest Hrest').
    + apply (Hstep start s s' s1 s1'); [lia | exact H0 | exact Hb | exact Hb'].
    + intros k a a' b b' Hk. apply Hstep. lia.
Qed.

Lemma for_lt_lockstep (R : Z -> St -> St -> Prop) (m : size_t)
  (body body' : size_t -> Run unit) s s' t t' :
  for_lt m body s = Ok tt t ->
  for_lt m body' s' = Ok tt t' ->
  R 0 s s' ->
  (forall k a a' b b', 0 <= k < uns m ->
     R k a a' -> body (sz k) a = Ok tt b -> body' (sz k) a' = Ok tt b' ->
     R (k + 1) b b') ->
  R (uns m) t t'.
Proof.
  intros Hrun Hrun' H0 Hstep. unfold for_lt in Hrun, Hrun'.
  pose proof (uns_range m) as Hm.
  replace (uns m) with (0 + Z.of_nat (idx m)) by (unfold idx; lia).
  apply (for_from_lockstep R body body' _ _ _ _ _ _ Hrun Hrun' H0).
  intros k a a' b b' Hk. apply Hstep. unfold idx in Hk. lia.
Qed.

(** *** Relations kept by every run, returning or failing *)
Section Keeps.

Variable R : St -> St -> Prop.
Hypothesis R_refl : forall s, R s s.
Hypothesis R_trans : forall s1 s2 s3, R s1 s2 -> R s2 s3 -> R s1 s3.

Lemma keeps_ret {A} (a : A) : keeps R (ret a).
Proof. intros s. apply R_refl. Qed.

Lemma keeps_bind {A B} (c : Run A) (f : A -> Run B) :
  keeps R c -> (forall a, keeps R (f a)) -> keeps R (bind c f).
Proof.
  intros Hc Hf s. rewrite final_state_bind. specialize (Hc s).
  destruct (c s) as [a s1 | e s1]; simpl in Hc.
  - eapply R_trans; [exact Hc | apply Hf].
  - exact Hc.
Qed.

Lemma keeps_member {A} (f : ADFun -> A) : keeps R (member f).
Proof. intros s. apply R_refl. Qed.

Lemma keeps_assert_known b msg : keeps R (CPPAD_ASSERT_KNOWN b msg).
Proof. intros s. destruct b; apply R_refl. Qed.

Lemma keeps_assert_unknown b : keeps R (CPPAD_ASSERT_UNKNOWN b).
Proof. intros s. destruct b; apply R_refl. Qed.

Lemma keeps_of_option {A} (o : option A) : keeps R (of_option o).
Proof. intros s. destruct o; apply R_refl. Qed.

Lemma keeps_at {A} (v : list A) i : keeps R (at_ v i).
Proof. apply keeps_of_option. Qed.

Lemma keeps_GetOp play i : keeps R (GetOp play i).
Proof.
  unfold GetOp. apply keeps_bind; [apply keeps_at |]. intros tp. apply keeps_ret.
Qed.

Lemma keeps_frame_Partial_at i : keeps R (frame_Partial_at i).
Proof.
  unfold frame_Partial_at. apply keeps_bind; [intros s; apply R_refl |].
  intros P. apply keeps_at.
Qed.

Lemma keeps_Partial_at i : keeps R (Partial_at i).
Proof.
  unfold Partial_at. apply keeps_bind; [intros s; apply R_refl |].
  intros P. apply keeps_at.
Qed.

Lemma keeps_for_from (body : size_t -> Run unit) :
  forall count start,
    (forall k, start <= k < start + Z.of_nat count -> keeps R (body (sz k))) ->
    keeps R (for_from start count body).
Proof.
  induction count as [| c IH]; intros start Hb; simpl.
  - apply keeps_ret.
  - apply keeps_bind; [apply Hb; lia |]. intros _. apply IH.
    intros k Hk. apply Hb. lia.
Qed.

Lemma keeps_for_lt m (body : size_t -> Run unit) :
  (forall k, 0 <= k < uns m -> keeps R (body (sz k))) -> keeps R (for_lt m body).
Proof.
  intros Hb. apply keeps_for_from. intros k Hk. apply Hb.
  pose proof (uns_range m). unfold idx in Hk. lia.
Qed.

Lemma keeps_for_each (body : size_t -> Run unit) v :
  (forall x, In x v -> keeps R (body x)) -> keeps R (for_each v body).
Proof.
  induction v as [| x t IH]; intros Hb; simpl.
  - apply keeps_ret.
  - apply keeps_bind; [apply Hb; left; reflexivity |].
    intros _. apply IH. intros y Hy. apply Hb. right. exact Hy.
Qed.

End Keeps.

End RunFacts.

(** * The entry points *)

Section EntryPoints.

Context {Base : Type} {BaseOps : Scalar Base} {Ops : OpLayer}
        {Sweeps : SweepLayer (Base:=Base)}.

Local Abbreviation St := (State (Base:=Base)).

Implicit Types (s : St) (p m : size_t) (w : list Base).

(** ** Precondition failures *)

(** C6: [myReverse] called with an order count other than one fails with
    its first known assertion, in the state it was called in: nothing of the
    seeding, the sweep, the extraction or the clean-up has run. *)
Theorem myReverse_rejects_order m p w dep_var_index s :
  p <> sz 1 ->
  myReverse m p w dep_var_index s = Err (AssertKnown msg_first_order) s.
Proof.
  intros Hp. apply eqb_neq in Hp.
  unfold myReverse, myReverse_seeded, myReverse_check, bind, CPPAD_ASSERT_KNOWN.
  rewrite Hp. reflexivity.
Qed.

(** C7: [Reverse] fails with a known assertion when the length of [w] is
    neither [m] nor [m * p], or [p] is zero, or fewer than [p] coefficients
    are stored; the state it fails in has the engine object as it was and a
    local buffer that was extended and never assigned. *)
Theorem Reverse_rejects_before_writing p w s :
  (size w <> size (dep_taddr_ (this s)) /\
   size w <> size (dep_taddr_ (this s)) *w p) \/
  p = sz 0 \/
  uns (taylor_per_var_ (this s)) < uns p ->
  exists msg,
    Reverse p w s =
    Err (AssertKnown msg)
      (mk_State (this s)
         (extend "Partial" [] (total_num_var_ (this s) *w p))
         (value s)).
Proof.
  intros H.
  assert (Hcases :
    ((size w ==w size (dep_taddr_ (this s))) ||
     (size w ==w size (dep_taddr_ (this s)) *w p)) = false \/
    (sz 0 <w p) = false \/
    (taylor_per_var_ (this s) <w p) = true).
  { destruct H as [[H1 H2] | [-> | H]].
    - left. apply eqb_neq in H1. apply eqb_neq in H2. rewrite H1, H2. reflexivity.
    - right. left. reflexivity.
    - right. right. apply ltu_lt. exact H. }
  unfold Reverse, Reverse_seeded, Reverse_check, bind, member, put_frame_Partial,
    CPPAD_ASSERT_KNOWN, ret, raise; simpl.
  destruct ((size w ==w size (dep_taddr_ (this s))) ||
            (size w ==w size (dep_taddr_ (this s)) *w p)) eqn:E1; simpl;
    [| eexists; reflexivity].
  destruct (sz 0 <w p) eqn:E2; simpl; [| eexists; reflexivity].
  destruct (taylor_per_var_ (this s) <w p) eqn:E3; simpl; [eexists; reflexivity |].
  destruct Hcases as [Hc | [Hc | Hc]]; discriminate.
Qed.

(** ** The engine object under [Reverse] *)

Lemma same_engine_refl s : same_engine s s.
Proof. reflexivity. Qed.

Lemma same_engine_trans s1 s2 s3 :
  same_engine s1 s2 -> same_engine s2 s3 -> same_engine s1 s3.
Proof. unfold same_engine. congruence. Qed.

Lemma same_engine_frame_set i (x : Base) : keeps same_engine (frame_Partial_set i x).
Proof.
  intros s. unfold frame_Partial_set, get_frame_Partial, bind, of_option.
  destruct (vset (frame_Partial s) i x); reflexivity.
Qed.

Lemma same_engine_value_set i (x : Base) : keeps same_engine (value_set i x).
Proof.
  intros s. unfold value_set, get_value, bind, of_option.
  destruct (vset (value s) i x); reflexivity.
Qed.

Lemma same_engine_put_frame (P : list Base) : keeps same_engine (put_frame_Partial P).
Proof. intros s. reflexivity. Qed.

Lemma same_engine_put_value (v : list Base) : keeps same_engine (put_value v).
Proof. intros s. reflexivity. Qed.

Ltac keep_engine :=
  repeat first
    [ apply same_engine_frame_set | apply same_engine_value_set
    | apply same_engine_put_frame | apply same_engine_put_value
    | apply (keeps_member same_engine same_engine_refl)
    | apply (keeps_assert_known same_engine same_engine_refl)
    | apply (keeps_assert_unknown same_engine same_engine_refl)
    | apply (keeps_at same_engine same_engine_refl)
    | apply (keeps_GetOp same_engine same_engine_refl same_engine_trans)
    | apply (keeps_frame_Partial_at same_engine same_engine_refl same_engine_trans)
    | apply (keeps_ret same_engine same_engine_refl)
    | (intros s; reflexivity)
    | (apply (keeps_for_lt same_engine same_engine_refl same_engine_trans); intros ? _)
    | (apply (keeps_bind same_engine same_engine_trans); [| intros ?])
    | match goal with |- keeps _ (if ?b then _ else _) => destruct b end ].

Lemma same_engine_seeded p w : keeps same_engine (Reverse_seeded p w).
Proof.
  unfold Reverse_seeded, Reverse_check, Reverse_zero, Reverse_seed,
    Reverse_seed_entry.
  keep_engine.
Qed.

Lemma same_engine_sweep p : keeps same_engine (Reverse_sweep p).
Proof. intros s. reflexivity. Qed.

Lemma same_engine_extract p w : keeps same_engine (Reverse_extract p w).
Proof. unfold Reverse_extract, Reverse_extract_row. keep_engine. Qed.

(** C9, as the code has it: [Reverse] declares a buffer of its own (lines
    131-132), and every write of the call goes to it; the engine object, and
    with it the member buffer that [myReverse] works on, is after the call
    what it was before, whether the call returns or fails. *)
Theorem Reverse_leaves_member_buffer p w s :
  this (final_state (Reverse p w s)) = this s.
Proof.
  assert (H : keeps same_engine (Reverse p w)).
  { unfold Reverse.
    apply (keeps_bind same_engine same_engine_trans); [apply same_engine_seeded |].
    intros _.
    apply (keeps_bind same_engine same_engine_trans); [apply same_engine_sweep |].
    intros _. apply same_engine_extract. }
  exact (H s).
Qed.

(** ** The vector [value] under [myReverse] *)

Lemma word_row_one (a : size_t) : a *w sz 1 +w sz 0 = a.
Proof.
  apply uns_inj. rewrite uns_add, uns_mul, uns_one, uns_zero.
  pose proof (uns_range a) as Ha.
  rewrite Z.mul_1_r, Z.add_0_r, Z.mod_mod by (unfold wordmax; lia).
  apply Z.mod_small. exact Ha.
Qed.

Lemma word_sub_add (a b : size_t) : a -w b +w b = a.
Proof.
  apply uns_inj. rewrite uns_add, uns_sub.
  pose proof (uns_range a) as Ha. pose proof (uns_range b) as Hb.
  rewrite Zplus_mod_idemp_l.
  replace (uns a - uns b + uns b) with (uns a) by lia.
  apply Z.mod_small. exact Ha.
Qed.

Lemma value_outside_refl L s : value_outside L s s.
Proof. repeat split. Qed.

Lemma value_outside_trans L s1 s2 s3 :
  value_outside L s1 s2 -> value_outside L s2 s3 -> value_outside L s1 s3.
Proof.
  intros (Ht & Hl & Hv) (Ht' & Hl' & Hv'). repeat split; try congruence.
  intros j Hj. rewrite Hv', Hv by exact Hj. reflexivity.
Qed.

Lemma value_outside_set L it (x : Base) :
  In it L -> keeps (value_outside L) (value_set (it -w sz 1) x).
Proof.
  intros Hin s. unfold value_set, get_value, bind, of_option.
  destruct (vset (value s) (it -w sz 1) x) as [v' |] eqn:E; simpl;
    [| apply value_outside_refl].
  repeat split; simpl.
  - eapply vset_length. exact E.
  - intros j Hj. eapply vset_other; [exact E |].
    intros ->. apply Hj. rewrite word_sub_add. exact Hin.
Qed.

Lemma value_outside_extract s :
  value_outside (op_inv_index_ (this s)) s (final_state (myReverse_extract (sz 1) s)).
Proof.
  unfold myReverse_extract. rewrite final_state_bind. unfold member at 1.
  set (L := op_inv_index_ (this s)).
  apply (keeps_for_each (value_outside L) (value_outside_refl L)
           (value_outside_trans L)).
  intros it Hin.
  apply (keeps_for_lt (value_outside L) (value_outside_refl L)
           (value_outside_trans L)).
  intros k Hk. rewrite uns_one in Hk. assert (k = 0) as -> by lia.
  apply (keeps_bind _ (value_outside_trans L));
    [apply (keeps_member _ (value_outside_refl L)) | intros ind].
  apply (keeps_bind _ (value_outside_trans L));
    [apply (keeps_at _ (value_outside_refl L)) | intros ind_j].
  apply (keeps_bind _ (value_outside_trans L));
    [apply (keeps_Partial_at _ (value_outside_refl L) (value_outside_trans L))
    | intros x].
  rewrite word_row_one. apply value_outside_set. exact Hin.
Qed.

Lemma same_value_refl s : same_value s s.
Proof. split; reflexivity. Qed.

Lemma same_value_trans s1 s2 s3 :
  same_value s1 s2 -> same_value s2 s3 -> same_value s1 s3.
Proof. unfold same_value. intros [? ?] [? ?]. split; congruence. Qed.

Lemma same_value_Partial_set i (x : Base) : keeps same_value (Partial_set i x).
Proof.
  intros s. unfold Partial_set, get_Partial, bind, of_option.
  destruct (vset (Partial (this s)) i x); split; reflexivity.
Qed.

Lemma same_value_clear p : keeps same_value (myReverse_clear p).
Proof.
  unfold myReverse_clear.
  apply (keeps_bind _ same_value_trans);
    [apply (keeps_member _ same_value_refl) | intros mark].
  apply (keeps_for_each _ same_value_refl same_value_trans). intros it _.
  apply (keeps_bind _ same_value_trans);
    [apply (keeps_member _ same_value_refl) | intros tps].
  apply (keeps_bind _ same_value_trans);
    [apply (keeps_at _ same_value_refl) | intros tp].
  apply (keeps_for_lt _ same_value_refl same_value_trans). intros i _.
  apply (keeps_for_lt _ same_value_refl same_value_trans). intros j _.
  apply same_value_Partial_set.
Qed.

Lemma myReverse_check_final m p w s : final_state (myReverse_check m p w s) = s.
Proof.
  unfold myReverse_check, bind, CPPAD_ASSERT_KNOWN, member, ret, raise.
  destruct (p ==w sz 1); simpl; [| reflexivity].
  destruct ((size w ==w m) || (size w ==w m *w p)); simpl; [| reflexivity].
  destruct (sz 0 <w p); simpl; [| reflexivity].
  destruct (negb (taylor_per_var_ (this s) <w p)); reflexivity.
Qed.

Lemma myReverse_check_ok m p w s u s' :
  myReverse_check m p w s = Ok u s' -> p = sz 1 /\ s' = s.
Proof.
  intros H. pose proof (myReverse_check_final m p w s) as Hf.
  rewrite H in Hf. simpl in Hf. split; [| exact Hf].
  unfold myReverse_check in H. apply bind_ok in H.
  destruct H as (? & ? & H & _). apply assert_known_ok in H.
  apply eqb_eq. apply H.
Qed.

Lemma myReverse_seed_value p dep_var_index s :
  value (final_state (myReverse_seed p dep_var_index s)) = value s.
Proof.
  unfold myReverse_seed, bind, member, at_, of_option, ret, raise.
  destruct (vget (dep_taddr_ (this s)) dep_var_index) as [a |]; simpl;
    [| reflexivity].
  unfold Partial_set, get_Partial, bind, of_option; simpl.
  destruct (vset (Partial (this s)) (a *w p +w p -w sz 1) one); reflexivity.
Qed.

Lemma myReverse_seeded_value m p w dep_var_index s :
  value (final_state (myReverse_seeded m p w dep_var_index s)) = value s.
Proof.
  unfold myReverse_seeded. rewrite final_state_bind.
  pose proof (myReverse_check_final m p w s) as Hf.
  destruct (myReverse_check m p w s) as [u s1 | e s1]; simpl in Hf; subst s1.
  - apply myReverse_seed_value.
  - reflexivity.
Qed.

Lemma myReverse_seeded_p m p w dep_var_index s u s1 :
  myReverse_seeded m p w dep_var_index s = Ok u s1 -> p = sz 1.
Proof.
  unfold myReverse_seeded. intros H. apply bind_ok in H.
  destruct H as (? & ? & H & _). apply myReverse_check_ok in H. apply H.
Qed.

(** C10: [myReverse] leaves the length of [value] as it was, and leaves
    every entry [value[j]] as it was unless [j + 1] is listed in
    [op_inv_index_], the list that the extraction loop runs over (it holds
    the index of an independent variable plus one).  This holds for the
    state a returning call ends in and for the state a failing call ends
    in. *)
Theorem myReverse_writes_listed_only m p w dep_var_index s :
  let s' := final_state (myReverse m p w dep_var_index s) in
  length (value s') = length (value s) /\
  forall j, ~ In (j +w sz 1) (op_inv_index_ (this s')) ->
            vget (value s') j = vget (value s) j.
Proof.
  unfold myReverse. rewrite final_state_bind.
  pose proof (myReverse_seeded_value m p w dep_var_index s) as Hseed.
  destruct (myReverse_seeded m p w dep_var_index s) as [u1 s2 | e s2] eqn:Hs;
    simpl in Hseed.
  2:{ simpl. rewrite Hseed. split; reflexivity. }
  apply myReverse_seeded_p in Hs. subst p.
  rewrite final_state_bind.
  assert (Hsweep : exists s3, myReverse_sweep (sz 1) dep_var_index s2 = Ok tt s3
                              /\ value s3 = value s2).
  { eexists. split; reflexivity. }
  destruct Hsweep as (s3 & -> & Hv3).
  rewrite final_state_bind.
  pose proof (value_outside_extract s3) as Hex.
  destruct (myReverse_extract (sz 1) s3) as [u3 s4 | e s4]; simpl in Hex.
  2:{ simpl. destruct Hex as (Ht & Hl & Hv). rewrite Ht.
      split; [congruence |]. intros j Hj. rewrite Hv by exact Hj. congruence. }
  pose proof (same_value_clear (sz 1) s4) as [Hv5 Hi5].
  destruct Hex as (Ht & Hl & Hv). simpl.
  rewrite Hv5, Hi5, Ht. split; [congruence |].
  intros j Hj. rewrite Hv by exact Hj. congruence.
Qed.

(** ** Runs of [Reverse] that return: the three phases before the sweep *)

Lemma Reverse_check_ok p w s u s1 :
  Reverse_check p w s = Ok u s1 ->
  s1 = mk_State (this s) (extend "Partial" [] (total_num_var_ (this s) *w p))
         (value s) /\
  0 < uns p /\ uns p <= uns (taylor_per_var_ (this s)) /\
  ((size w ==w size (dep_taddr_ (this s))) = true \/
   (size w ==w size (dep_taddr_ (this s)) *w p) = true).
Proof.
  unfold Reverse_check. intros H.
  apply bind_ok in H. destruct H as (m & s0 & Hm & H).
  apply member_ok in Hm. destruct Hm as [-> ->].
  apply bind_ok in H. destruct H as (T & s0 & HT & H).
  apply member_ok in HT. destruct HT as [-> ->].
  apply bind_ok in H. destruct H as ([] & s0 & Hput & H).
  injection Hput as <-.
  apply bind_ok in H. destruct H as ([] & s0 & Hw & H).
  apply assert_known_ok in Hw. destruct Hw as [Hw ->].
  apply bind_ok in H. destruct H as ([] & s0 & Hp & H).
  apply assert_known_ok in Hp. destruct Hp as [Hp ->].
  apply bind_ok in H. destruct H as (tpv & s0 & Ht & H).
  apply member_ok in Ht. destruct Ht as [-> ->].
  apply assert_known_ok in H. destruct H as [Ht ->]. simpl in Ht.
  apply negb_true_iff in Ht. apply ltu_ge in Ht. apply ltu_lt in Hp.
  rewrite uns_zero in Hp. apply orb_true_iff in Hw.
  repeat split; assumption.
Qed.

Lemma extend_nil_length name (n : size_t) :
  Z.of_nat (length (extend "Partial" [] n)) = uns n /\
  Z.of_nat (length (extend name [] n)) = uns n.
Proof.
  unfold extend. simpl. rewrite !length_map, !length_seq. unfold idx.
  pose proof (uns_range n). lia.
Qed.

(** The value of an index expression that does not wrap. *)
Lemma uns_row (a p k : size_t) :
  uns a * uns p + uns k < wordmax -> uns (a *w p +w k) = uns a * uns p + uns k.
Proof.
  intros H. pose proof (uns_range a). pose proof (uns_range p).
  pose proof (uns_range k). rewrite uns_add, uns_mul.
  rewrite (Z.mod_small (uns a * uns p)) by nia.
  apply Z.mod_small. nia.
Qed.

Lemma uns_row_last (a p : size_t) :
  0 < uns p -> uns a * uns p + uns p <= wordmax ->
  uns (a *w p +w p -w sz 1) = uns a * uns p + uns p - 1.
Proof.
  intros Hp H. pose proof (uns_range a). pose proof (uns_range p).
  rewrite uns_sub, uns_add, uns_mul, uns_one.
  rewrite (Z.mod_small (uns a * uns p)) by nia.
  rewrite Zminus_mod_idemp_l. apply Z.mod_small. nia.
Qed.

Lemma uns_row_rev (a p k : size_t) :
  uns k < uns p -> uns a * uns p + uns p <= wordmax ->
  uns (a *w p +w p -w sz 1 -w k) = uns a * uns p + uns p - 1 - uns k.
Proof.
  intros Hk H. pose proof (uns_range a). pose proof (uns_range p).
  pose proof (uns_range k).
  rewrite uns_sub, uns_row_last by lia.
  apply Z.mod_small. nia.
Qed.

(** After the zero loop: the buffer has [total_num_var_ * p] entries, that
    product does not wrap, and every entry is zero. *)
Lemma Reverse_zero_ok p s u s' :
  Reverse_zero p s = Ok u s' ->
  0 < uns p ->
  Z.of_nat (length (frame_Partial s)) = uns (total_num_var_ (this s) *w p) ->
  this s' = this s /\ value s' = value s /\
  Z.of_nat (length (frame_Partial s')) = uns (total_num_var_ (this s)) * uns p /\
  uns (total_num_var_ (this s)) * uns p < wordmax /\
  forall k, (k < length (frame_Partial s'))%nat ->
            nth_error (frame_Partial s') k = Some zero.
Proof.
  intros H Hp Hlen. destruct u. unfold Reverse_zero in H.
  apply bind_ok in H. destruct H as (T & s0 & HT & H).
  apply member_ok in HT. destruct HT as [-> ->].
  set (T := total_num_var_ (this s)) in *.
  set (L := Z.of_nat (length (frame_Partial s))).
  assert (HL : L < wordmax).
  { unfold L. rewrite Hlen. apply uns_range. }
  pose proof (uns_range p) as Hpr. pose proof (uns_range T) as HTr.
  pose (I := fun (c : Z) (st : St) =>
    this st = this s /\ value st = value s /\
    Z.of_nat (length (frame_Partial st)) = L /\ c <= L /\
    forall k, Z.of_nat k < c -> nth_error (frame_Partial st) k = Some zero).
  assert (Hend : I (uns T * uns p) s').
  { apply (for_lt_inv (fun i => I (i * uns p)) T _ s s' H).
    - unfold I. repeat split; try reflexivity; lia.
    - intros i s1 s2 Hi HI Hbody.
      replace ((i + 1) * uns p) with (i * uns p + uns p) by lia.
      apply (for_lt_inv (fun j => I (i * uns p + j)) p _ s1 s2 Hbody).
      + rewrite Z.add_0_r. exact HI.
      + intros j s3 s4 Hj (Ht3 & Hv3 & Hl3 & Hc3 & Hz3) Hset.
        apply frame_Partial_set_ok in Hset. destruct Hset as (P' & Hset & ->).
        pose proof (vset_lt _ _ _ _ Hset) as Hin.
        assert (Hidx : uns (sz i *w p +w sz j) = i * uns p + j).
        { rewrite uns_row; rewrite !uns_sz by lia; lia. }
        rewrite Hidx, Hl3 in Hin.
        unfold I; simpl. repeat split; try assumption.
        * rewrite (vset_length _ _ _ _ Hset). exact Hl3.
        * lia.
        * intros k Hk.
          destruct (Nat.eq_dec k (idx (sz i *w p +w sz j))) as [-> | Hne].
          -- eapply upd_same. exact Hset.
          -- rewrite (vset_other_nat _ _ _ _ _ Hset Hne).
             apply Hz3. unfold idx in Hne. rewrite Hidx in Hne. lia. }
  destruct Hend as (Ht & Hv & Hl & Hc & Hz).
  assert (Hprod : uns T * uns p = L).
  { unfold L in *. rewrite Hlen in *. rewrite uns_mul in *.
    pose proof (Z.mod_le (uns T * uns p) wordmax) as Hle.
    specialize (Hle ltac:(nia) wordmax_pos). lia. }
  repeat split; try assumption.
  - rewrite Hl. lia.
  - lia.
  - intros k Hk. apply Hz. lia.
Qed.

Lemma Reverse_zeroed p w s s1 s2 :
  Reverse_check p w s = Ok tt s1 ->
  Reverse_zero p s1 = Ok tt s2 ->
  zeroed p s2 /\ this s2 = this s /\ value s2 = value s /\
  ((size w ==w size (dep_taddr_ (this s))) = true \/
   (size w ==w size (dep_taddr_ (this s)) *w p) = true).
Proof.
  intros Hc Hz. apply Reverse_check_ok in Hc. destruct Hc as (-> & Hp & _ & Hw).
  apply Reverse_zero_ok in Hz; [| exact Hp | apply extend_nil_length].
  simpl in Hz. destruct Hz as (Ht & Hv & Hl & Hlt & Hzero).
  unfold zeroed. rewrite Ht. repeat split; assumption.
Qed.

Lemma Reverse_seed_entry_engine p w m i s1 s2 :
  Reverse_seed_entry p w m i s1 = Ok tt s2 -> this s2 = this s1.
Proof.
  intros H.
  assert (K : keeps same_engine (Reverse_seed_entry p w m i)).
  { unfold Reverse_seed_entry. keep_engine. }
  specialize (K s1). rewrite H in K. exact K.
Qed.

Lemma Reverse_seed_entry_ok p w m i s1 s2 :
  Reverse_seed_entry p w m i s1 = Ok tt s2 ->
  exists d,
    vget (dep_taddr_ (this s1)) i = Some d /\
    uns d < uns (total_num_var_ (this s1)) /\
    (if size w ==w m then
       (x <- frame_Partial_at (d *w p +w p -w sz 1) ;;
        w_i <- at_ w i ;;
        frame_Partial_set (d *w p +w p -w sz 1) (add x w_i))
     else
       for_lt p (fun k =>
         w_ik <- at_ w (i *w p +w k) ;;
         frame_Partial_set (d *w p +w k) w_ik)) s1 = Ok tt s2.
Proof.
  unfold Reverse_seed_entry. intros H.
  apply bind_ok in H. destruct H as (dep & s0 & Hd & H).
  apply member_ok in Hd. destruct Hd as [-> ->].
  apply bind_ok in H. destruct H as (T & s0 & HT & H).
  apply member_ok in HT. destruct HT as [-> ->].
  apply bind_ok in H. destruct H as (d & s0 & Hd & H).
  apply at_ok in Hd. destruct Hd as [Hd ->].
  apply bind_ok in H. destruct H as ([] & s0 & Ha & H).
  apply assert_unknown_ok in Ha. destruct Ha as [Ha ->].
  apply ltu_lt in Ha. exists d. repeat split; assumption.
Qed.

Lemma Reverse_seed_entry_short p w m i s1 s2 :
  Reverse_seed_entry p w m i s1 = Ok tt s2 ->
  (size w ==w m) = true ->
  exists d x w_i P',
    vget (dep_taddr_ (this s1)) i = Some d /\
    uns d < uns (total_num_var_ (this s1)) /\
    vget (frame_Partial s1) (d *w p +w p -w sz 1) = Some x /\
    vget w i = Some w_i /\
    vset (frame_Partial s1) (d *w p +w p -w sz 1) (add x w_i) = Some P' /\
    s2 = mk_State (this s1) P' (value s1).
Proof.
  intros H Hshort. apply Reverse_seed_entry_ok in H.
  destruct H as (d & Hd & HdT & H). rewrite Hshort in H.
  apply bind_ok in H. destruct H as (x & s0 & Hx & H).
  apply frame_Partial_at_ok in Hx. destruct Hx as [Hx ->].
  apply bind_ok in H. destruct H as (w_i & s0 & Hw & H).
  apply at_ok in Hw. destruct Hw as [Hw ->].
  apply frame_Partial_set_ok in H. destruct H as (P' & HP & ->).
  exists d, x, w_i, P'. repeat split; assumption.
Qed.

(** Two rows of a buffer that does not wrap have different last entries. *)
Lemma row_last_inj (T p a d : size_t) :
  0 < uns p -> uns T * uns p < wordmax -> uns a < uns T -> uns d < uns T ->
  d *w p +w p -w sz 1 = a *w p +w p -w sz 1 -> d = a.
Proof.
  intros Hp HT Ha Hd E. apply (f_equal uns) in E.
  pose proof (uns_range a). pose proof (uns_range d).
  rewrite !uns_row_last in E by nia. apply uns_inj. nia.
Qed.

(** C4: in a call of [Reverse] with the short weight form that gets through
    the seeding, let the dependent variable entries [i1 < i2] have the same
    address [a], and no other entry have it.  Then the buffer handed to the
    sweep holds, in row [a] at order [p - 1], the weight of [i1] and then the
    weight of [i2] added onto the zero of that entry. *)
Theorem Reverse_short_seed_adds_aliases p w s s' (i1 i2 a : size_t) (w1 w2 : Base) :
  Reverse_seeded p w s = Ok tt s' ->
  size w = size (dep_taddr_ (this s)) ->
  uns i1 < uns i2 < uns (size (dep_taddr_ (this s))) ->
  vget (dep_taddr_ (this s)) i1 = Some a ->
  vget (dep_taddr_ (this s)) i2 = Some a ->
  (forall i, i <> i1 -> i <> i2 -> vget (dep_taddr_ (this s)) i <> Some a) ->
  vget w i1 = Some w1 ->
  vget w i2 = Some w2 ->
  vget (frame_Partial s') (a *w p +w p -w sz 1) = Some (add (add zero w1) w2).
Proof.
  intros Hrun Hshort Hi Hd1 Hd2 Hothers Hw1 Hw2.
  unfold Reverse_seeded in Hrun.
  apply bind_ok in Hrun. destruct Hrun as ([] & s1 & Hc & Hrun).
  apply bind_ok in Hrun. destruct Hrun as ([] & s2 & Hz & Hseed).
  destruct (Reverse_zeroed _ _ _ _ _ Hc Hz) as ((Hp & Hlen & Hnowrap & Hzero) & Ht & _).
  unfold Reverse_seed in Hseed.
  apply bind_ok in Hseed. destruct Hseed as (m & s0 & Hm & Hseed).
  apply member_ok in Hm. destruct Hm as [-> ->]. rewrite Ht in *.
  set (F := this s) in *. set (m := size (dep_taddr_ F)) in *.
  set (T := total_num_var_ F) in *.
  assert (Hsh : (size w ==w m) = true) by (apply eqb_eq; exact Hshort).
  pose proof (uns_range i1) as Hr1. pose proof (uns_range i2) as Hr2.
  (* the address is one of a variable *)
  assert (HaT : uns a < uns T).
  { assert (Hkeep : forall k (t1 t2 : St),
              this t1 = this s2 -> Reverse_seed_entry p w m k t1 = Ok tt t2 ->
              this t2 = this s2).
    { intros k t1 t2 Hk Hb.
      rewrite (Reverse_seed_entry_engine _ _ _ _ _ _ Hb). exact Hk. }
    destruct (for_lt_body_ok (fun st => this st = this s2) m _ s2 s'
                Hkeep Hseed eq_refl (uns i1) ltac:(lia)) as (t1 & t2 & Ht1 & Hb).
    rewrite sz_uns in Hb. apply Reverse_seed_entry_ok in Hb.
    destruct Hb as (d & Hd & HdT & _). rewrite Ht1, Ht in Hd, HdT.
    fold F in Hd, HdT. rewrite Hd1 in Hd. injection Hd as <-. exact HdT. }
  set (e := a *w p +w p -w sz 1).
  assert (He : uns e = uns a * uns p + uns p - 1).
  { unfold e. apply uns_row_last; [exact Hp | nia]. }
  pose (stage := fun i : Z =>
    if i <=? uns i1 then zero
    else if i <=? uns i2 then add zero w1 else add (add zero w1) w2).
  pose (I := fun (i : Z) (st : St) =>
    this st = F /\
    length (frame_Partial st) = length (frame_Partial s2) /\
    vget (frame_Partial st) e = Some (stage i)).
  assert (Hend : I (uns m) s').
  { apply (for_lt_inv I m _ s2 s' Hseed).
    - unfold I. repeat split; [exact Ht |].
      unfold stage. destruct (Z.leb_spec 0 (uns i1)); [| lia].
      apply Hzero. unfold idx. rewrite He.
      pose proof (uns_range a).
      assert (uns a * uns p + uns p - 1 < uns T * uns p) by nia. lia.
    - intros i t1 t2 Hir (Ht1 & Hl1 & Hv1) Hb.
      apply Reverse_seed_entry_short in Hb; [| exact Hsh].
      destruct Hb as (d & x & w_i & P' & Hd & HdT & Hx & Hwi & HP & ->).
      rewrite Ht1 in Hd, HdT. fold T in HdT.
      unfold I; simpl. repeat split; [exact Ht1 | | ].
      + rewrite (vset_length _ _ _ _ HP). exact Hl1.
      + pose proof (uns_range m) as Hmr.
        destruct (Z.eq_dec i (uns i1)) as [E1 | N1];
          [| destruct (Z.eq_dec i (uns i2)) as [E2 | N2]].
        * subst i. rewrite sz_uns in Hd, Hwi.
          rewrite Hd1 in Hd. injection Hd as <-.
          rewrite Hw1 in Hwi. injection Hwi as <-.
          fold e in Hx, HP. rewrite Hv1 in Hx. injection Hx as <-.
          rewrite (vset_same _ _ _ _ HP). unfold stage.
          destruct (Z.leb_spec (uns i1) (uns i1)); [| lia].
          destruct (Z.leb_spec (uns i1 + 1) (uns i1)); [lia |].
          destruct (Z.leb_spec (uns i1 + 1) (uns i2)); [| lia]. reflexivity.
        * subst i. rewrite sz_uns in Hd, Hwi.
          rewrite Hd2 in Hd. injection Hd as <-.
          rewrite Hw2 in Hwi. injection Hwi as <-.
          fold e in Hx, HP. rewrite Hv1 in Hx. injection Hx as <-.
          rewrite (vset_same _ _ _ _ HP). unfold stage.
          destruct (Z.leb_spec (uns i2) (uns i1)); [lia |].
          destruct (Z.leb_spec (uns i2) (uns i2)); [| lia].
          destruct (Z.leb_spec (uns i2 + 1) (uns i1)); [lia |].
          destruct (Z.leb_spec (uns i2 + 1) (uns i2)); [lia |]. reflexivity.
        * assert (Hda : d <> a).
          { intros ->. apply (Hothers (sz i)); [| | exact Hd].
            - intros E. apply N1. rewrite <- E. symmetry. apply uns_sz. lia.
            - intros E. apply N2. rewrite <- E. symmetry. apply uns_sz. lia. }
          rewrite (vset_other _ _ _ _ e HP).
          -- rewrite Hv1. f_equal. unfold stage.
             destruct (Z.leb_spec i (uns i1)), (Z.leb_spec (i + 1) (uns i1));
               try lia; try reflexivity.
             destruct (Z.leb_spec i (uns i2)), (Z.leb_spec (i + 1) (uns i2));
               try lia; reflexivity.
          -- intros E. apply Hda. symmetry.
             apply (row_last_inj T p d a Hp Hnowrap HdT HaT E). }
  destruct Hend as (_ & _ & Hv). rewrite Hv. unfold stage.
  destruct (Z.leb_spec (uns m) (uns i1)); [lia |].
  destruct (Z.leb_spec (uns m) (uns i2)); [lia |]. reflexivity.
Qed.

(** ** Runs of [Reverse] that return: the extraction *)

Lemma Reverse_extract_row_ok p w m j s1 s2 :
  Reverse_extract_row p w m j s1 = Ok tt s2 ->
  exists a,
    vget (ind_taddr_ (this s1)) j = Some a /\
    uns a < uns (total_num_var_ (this s1)) /\
    for_lt p (fun k =>
      x <- frame_Partial_at (source_index (size w ==w m) p a k) ;;
      value_set (j *w p +w k) x) s1 = Ok tt s2.
Proof.
  unfold Reverse_extract_row. intros H.
  apply bind_ok in H. destruct H as (ind & s0 & Hi & H).
  apply member_ok in Hi. destruct Hi as [-> ->].
  apply bind_ok in H. destruct H as (T & s0 & HT & H).
  apply member_ok in HT. destruct HT as [-> ->].
  apply bind_ok in H. destruct H as (a & s0 & Ha & H).
  apply at_ok in Ha. destruct Ha as [Ha ->].
  apply bind_ok in H. destruct H as ([] & s0 & HaT & H).
  apply assert_unknown_ok in HaT. destruct HaT as [HaT ->].
  apply bind_ok in H. destruct H as (play & s0 & Hpl & H).
  apply member_ok in Hpl. destruct Hpl as [-> ->].
  apply bind_ok in H. destruct H as (o & s0 & Ho & H).
  apply GetOp_ok in Ho. destruct Ho as (tp & _ & _ & ->).
  apply bind_ok in H. destruct H as ([] & s0 & Hinv & H).
  apply assert_unknown_ok in Hinv. destruct Hinv as [_ ->].
  apply ltu_lt in HaT. exists a. repeat split; try assumption.
  unfold source_index. destruct (size w ==w m); exact H.
Qed.

Lemma Reverse_extract_loop p w (n m : size_t) (F : ADFun) (P : list Base) s s' :
  for_lt n (Reverse_extract_row p w m) s = Ok tt s' ->
  this s = F -> frame_Partial s = P ->
  Z.of_nat (length (value s)) < wordmax ->
  extracted F P (size w ==w m) p (Z.of_nat (length (value s)))
    (uns n * uns p) s'.
Proof.
  intros Hrun HF HP HL.
  set (L := Z.of_nat (length (value s))) in *.
  pose proof (uns_range p) as Hpr. pose proof (uns_range n) as Hnr.
  apply (for_lt_inv (fun j => extracted F P (size w ==w m) p L (j * uns p))
           n _ s s' Hrun).
  - unfold extracted. repeat split; try assumption; lia.
  - intros j s1 s2 Hj Hinv Hrow.
    replace ((j + 1) * uns p) with (j * uns p + uns p) by lia.
    apply Reverse_extract_row_ok in Hrow. destruct Hrow as (a & Ha & HaT & Hrow).
    assert (HF1 : this s1 = F) by apply Hinv. rewrite HF1 in Ha, HaT.
    apply (for_lt_inv
             (fun k => extracted F P (size w ==w m) p L (j * uns p + k))
             p _ s1 s2 Hrow).
    + rewrite Z.add_0_r. exact Hinv.
    + intros k t1 t2 Hk (Ht1 & HP1 & Hl1 & Hc1 & Hdone) Hstep.
      apply bind_ok in Hstep. destruct Hstep as (x & t0 & Hx & Hset).
      apply frame_Partial_at_ok in Hx. destruct Hx as [Hx ->].
      apply value_set_ok in Hset. destruct Hset as (v' & Hset & ->).
      rewrite HP1 in Hx.
      assert (Hidx : uns (sz j *w p +w sz k) = j * uns p + k).
      { rewrite uns_row; rewrite !uns_sz by lia; lia. }
      pose proof (vset_lt _ _ _ _ Hset) as Hin. rewrite Hidx, Hl1 in Hin.
      unfold extracted; simpl. repeat split; try assumption.
      * rewrite (vset_length _ _ _ _ Hset). exact Hl1.
      * lia.
      * intros j' k' Hj' Hk' Hc'.
        destruct (Z.eq_dec (j' * uns p + k') (j * uns p + k)) as [E | N].
        -- destruct (row_col_unique (uns p) j' k' j k Hk' Hk E) as [-> ->].
           exists a, x. repeat split; try assumption.
           rewrite <- Hidx. eapply upd_same. exact Hset.
        -- destruct (Hdone j' k' Hj' Hk' ltac:(lia))
             as (a' & x' & Ha' & HaT' & Hv' & Hs').
           exists a', x'. repeat split; try assumption.
           rewrite <- Hv'. eapply vset_other_nat; [exact Hset |].
           unfold idx. rewrite Hidx. lia.
Qed.

Lemma Reverse_seeded_ok p w s s3 :
  Reverse_seeded p w s = Ok tt s3 ->
  this s3 = this s /\ 0 < uns p /\
  uns (total_num_var_ (this s)) * uns p < wordmax.
Proof.
  intros Hrun. pose proof (same_engine_seeded p w s) as Hk.
  rewrite Hrun in Hk. simpl in Hk. split; [exact Hk |].
  unfold Reverse_seeded in Hrun.
  apply bind_ok in Hrun. destruct Hrun as ([] & s1 & Hc & Hrun).
  apply bind_ok in Hrun. destruct Hrun as ([] & s2 & Hz & _).
  destruct (Reverse_zeroed _ _ _ _ _ Hc Hz) as ((Hp & _ & Hnowrap & _) & Ht & _).
  rewrite Ht in Hnowrap. split; assumption.
Qed.

Lemma vget_entry (v : list Base) (i : size_t) : vget v i = entry v (uns i).
Proof.
  unfold vget, entry, idx. pose proof (uns_range i).
  destruct (Z.ltb_spec (uns i) 0); [lia | reflexivity].
Qed.

Lemma Reverse_returns_entries p w s v s' (j k : size_t) :
  Reverse p w s = Ok v s' ->
  uns j < uns (size (ind_taddr_ (this s))) ->
  uns k < uns p ->
  exists a x,
    vget (ind_taddr_ (this s)) j = Some a /\
    uns a < uns (total_num_var_ (this s)) /\
    uns (total_num_var_ (this s)) * uns p < wordmax /\
    nth_error v (Z.to_nat (uns j * uns p + uns k)) = Some x /\
    vget (frame_Partial s')
      (source_index (size w ==w size (dep_taddr_ (this s))) p a k) = Some x.
Proof.
  intros Hrun Hj Hk. unfold Reverse in Hrun.
  apply bind_ok in Hrun. destruct Hrun as ([] & s3 & Hseeded & Hrun).
  apply bind_ok in Hrun. destruct Hrun as ([] & s4 & Hsweep & Hex).
  destruct (Reverse_seeded_ok _ _ _ _ Hseeded) as (Ht3 & Hp & Hnowrap).
  assert (Ht4 : this s4 = this s).
  { pose proof (same_engine_sweep p s3) as K. rewrite Hsweep in K.
    simpl in K. unfold same_engine in K. congruence. }
  unfold Reverse_extract in Hex.
  apply bind_ok in Hex. destruct Hex as (n & s0 & Hn & Hex).
  apply member_ok in Hn. destruct Hn as [-> ->].
  apply bind_ok in Hex. destruct Hex as (m & s0 & Hm & Hex).
  apply member_ok in Hm. destruct Hm as [-> ->].
  apply bind_ok in Hex. destruct Hex as ([] & s5 & Hput & Hex).
  injection Hput as <-.
  apply bind_ok in Hex. destruct Hex as ([] & s6 & Hloop & Hget).
  injection Hget as <- <-. rewrite Ht4 in *.
  set (F := this s) in *. set (n := size (ind_taddr_ F)) in *.
  set (m := size (dep_taddr_ F)) in *.
  apply (Reverse_extract_loop p w n m F (frame_Partial s4)) in Hloop;
    [| reflexivity | reflexivity
     | simpl; rewrite (proj2 (extend_nil_length "value" (n *w p)));
       apply uns_range ].
  simpl in Hloop. rewrite (proj2 (extend_nil_length "value" (n *w p))) in Hloop.
  destruct Hloop as (_ & HP & Hlen & Hc & Hdone).
  pose proof (uns_range j) as Hjr. pose proof (uns_range k) as Hkr.
  destruct (Hdone (uns j) (uns k) ltac:(lia) ltac:(lia) ltac:(nia))
    as (a & x & Ha & HaT & Hv & Hsrc).
  rewrite sz_uns in Ha, Hsrc. rewrite HP.
  exists a, x. repeat split; assumption.
Qed.

(** ** Short and long weight forms side by side *)

Lemma Reverse_seed_long_row p (wl : list Base) (i d T : size_t) s1 s2 :
  for_lt p (fun k =>
    w_ik <- at_ wl (i *w p +w k) ;;
    frame_Partial_set (d *w p +w k) w_ik) s1 = Ok tt s2 ->
  uns d < uns T -> uns T * uns p < wordmax ->
  this s2 = this s1 /\ value s2 = value s1 /\
  length (frame_Partial s2) = length (frame_Partial s1) /\
  (forall k, 0 <= k < uns p ->
     exists x, vget wl (i *w p +w sz k) = Some x /\
               nth_error (frame_Partial s2) (Z.to_nat (uns d * uns p + k)) = Some x) /\
  (forall pos, (forall k, 0 <= k < uns p -> pos <> Z.to_nat (uns d * uns p + k)) ->
               nth_error (frame_Partial s2) pos = nth_error (frame_Partial s1) pos).
Proof.
  intros Hrun Hd Hnowrap.
  pose proof (uns_range d) as Hdr. pose proof (uns_range p) as Hpr.
  pose (J := fun (c : Z) (st : St) =>
    this st = this s1 /\ value st = value s1 /\
    length (frame_Partial st) = length (frame_Partial s1) /\
    (forall k, 0 <= k < c ->
       exists x, vget wl (i *w p +w sz k) = Some x /\
                 nth_error (frame_Partial st) (Z.to_nat (uns d * uns p + k)) = Some x) /\
    (forall pos, (forall k, 0 <= k < c -> pos <> Z.to_nat (uns d * uns p + k)) ->
                 nth_error (frame_Partial st) pos = nth_error (frame_Partial s1) pos)).
  apply (for_lt_inv J p _ s1 s2 Hrun).
  - unfold J. repeat split; try reflexivity. intros k Hk. lia.
  - intros k t1 t2 Hk (Ht & Hv & Hl & Hrow & Hrest) Hstep.
    apply bind_ok in Hstep. destruct Hstep as (x & t0 & Hx & Hset).
    apply at_ok in Hx. destruct Hx as [Hx ->].
    apply frame_Partial_set_ok in Hset. destruct Hset as (P' & Hset & ->).
    assert (Hidx : idx (d *w p +w sz k) = Z.to_nat (uns d * uns p + k)).
    { unfold idx. rewrite uns_row; rewrite ?uns_sz by lia; [reflexivity | nia]. }
    unfold J; simpl. repeat split; try assumption.
    + rewrite (vset_length _ _ _ _ Hset). exact Hl.
    + intros k' Hk'. destruct (Z.eq_dec k' k) as [-> | Hne].
      * exists x. split; [exact Hx |]. rewrite <- Hidx. eapply upd_same. exact Hset.
      * destruct (Hrow k' ltac:(lia)) as (x' & Hx' & Hn'). exists x'.
        split; [exact Hx' |]. rewrite <- Hn'.
        eapply vset_other_nat; [exact Hset |]. rewrite Hidx. nia.
    + intros pos Hpos. rewrite <- Hrest.
      * eapply vset_other_nat; [exact Hset |]. rewrite Hidx. apply Hpos. lia.
      * intros k' Hk'. apply Hpos. lia.
Qed.

Lemma NoDup_vget (l : list size_t) (i i' : size_t) d :
  NoDup l -> vget l i = Some d -> vget l i' = Some d -> i = i'.
Proof.
  intros Hnd Hi Hi'. apply idx_inj. unfold vget in *.
  apply (proj1 (NoDup_nth_error l) Hnd).
  - apply nth_error_Some. congruence.
  - congruence.
Qed.

(** Without aliasing, seeding the short form and seeding its long spelling
    hand the same buffer to the sweep. *)
Lemma Reverse_seeds_agree p ws wl s t t' :
  Reverse_seeded p ws s = Ok tt t ->
  Reverse_seeded p wl s = Ok tt t' ->
  size ws = size (dep_taddr_ (this s)) ->
  size wl <> size (dep_taddr_ (this s)) ->
  NoDup (dep_taddr_ (this s)) ->
  (forall x : Base, add zero x = x) ->
  one_hot_at_top (size (dep_taddr_ (this s))) p ws wl ->
  frame_Partial t = frame_Partial t'.
Proof.
  intros Hrun Hrun' Hshort Hlong Hnd Hlaw Hhot.
  unfold Reverse_seeded in Hrun, Hrun'.
  apply bind_ok in Hrun. destruct Hrun as ([] & s1 & Hc & Hrun).
  apply bind_ok in Hrun. destruct Hrun as ([] & s2 & Hz & Hseed).
  apply bind_ok in Hrun'. destruct Hrun' as ([] & s1' & Hc' & Hrun').
  apply bind_ok in Hrun'. destruct Hrun' as ([] & s2' & Hz' & Hseed').
  destruct (Reverse_zeroed _ _ _ _ _ Hc Hz) as ((Hp & Hlen & Hnowrap & Hzero) & Ht & _).
  assert (s1' = s1) as ->.
  { apply Reverse_check_ok in Hc. apply Reverse_check_ok in Hc'.
    destruct Hc as (-> & _). destruct Hc' as (-> & _). reflexivity. }
  assert (s2' = s2) as -> by congruence.
  unfold Reverse_seed in Hseed, Hseed'.
  apply bind_ok in Hseed. destruct Hseed as (m & s0 & Hm & Hseed).
  apply member_ok in Hm. destruct Hm as [-> ->].
  apply bind_ok in Hseed'. destruct Hseed' as (m' & s0 & Hm' & Hseed').
  apply member_ok in Hm'. destruct Hm' as [-> ->].
  rewrite Ht in *.
  set (F := this s) in *. set (m := size (dep_taddr_ F)) in *.
  set (T := total_num_var_ F) in *.
  apply eqb_eq in Hshort. apply eqb_neq in Hlong.
  pose proof (uns_range p) as Hpr. pose proof (uns_range m) as Hmr.
  pose (R := fun (i : Z) (a a' : St) =>
    frame_Partial a = frame_Partial a' /\ this a = F /\ this a' = F /\
    forall i' d k y, i <= i' < uns m -> vget (dep_taddr_ F) (sz i') = Some d ->
      0 <= k < uns p ->
      nth_error (frame_Partial a) (Z.to_nat (uns d * uns p + k)) = Some y ->
      y = zero).
  assert (Hend : R (uns m) t t').
  { apply (for_lt_lockstep R m _ _ s2 s2 t t' Hseed Hseed').
    - unfold R. repeat split; try assumption.
      intros i' d k y _ _ _ Hy.
      assert (Hin : nth_error (frame_Partial s2) (Z.to_nat (uns d * uns p + k)) <> None)
        by congruence.
      apply nth_error_Some in Hin. rewrite (Hzero _ Hin) in Hy. congruence.
    - intros i a a' b b' Hi (HP & Ha & Ha' & Hpend) Hb Hb'.
      apply Reverse_seed_entry_short in Hb; [| exact Hshort].
      destruct Hb as (d & x & w_i & P1 & Hd & HdT & Hx & Hwi & HP1 & ->).
      apply Reverse_seed_entry_ok in Hb'.
      destruct Hb' as (d' & Hd' & _ & Hb'). rewrite Hlong in Hb'.
      rewrite Ha in Hd, HdT. rewrite Ha' in Hd'. fold T in HdT.
      rewrite Hd in Hd'. injection Hd' as <-.
      pose proof (uns_range d) as Hdr.
      destruct (Reverse_seed_long_row p wl (sz i) d T a' b' Hb' HdT Hnowrap)
        as (Htb' & _ & Hlb' & Hrow & Hrest).
      assert (He : idx (d *w p +w p -w sz 1) = Z.to_nat (uns d * uns p + (uns p - 1))).
      { unfold idx. rewrite uns_row_last by nia. f_equal. lia. }
      assert (x = zero) as ->.
      { apply (Hpend i d (uns p - 1) x); try lia; [exact Hd |].
        rewrite <- He. exact Hx. }
      rewrite Hlaw in HP1.
      unfold R; simpl. repeat split; try congruence.
      + (* the two buffers *)
        apply list_ext. intros pos.
        destruct (Z_le_dec (uns d * uns p) (Z.of_nat pos)) as [Hlo | Hlo];
          [destruct (Z_lt_dec (Z.of_nat pos) (uns d * uns p + uns p)) as [Hhi | Hhi] |].
        * (* a position of row d *)
          set (k := Z.of_nat pos - uns d * uns p).
          assert (Hpos : pos = Z.to_nat (uns d * uns p + k)) by (unfold k; lia).
          destruct (Hrow k ltac:(unfold k; lia)) as (y & Hy & Hny).
          rewrite <- Hpos in Hny. rewrite Hny.
          rewrite (Hhot (sz i) (sz k)) in Hy
            by (rewrite uns_sz; unfold k; lia).
          destruct (Z.eq_dec k (uns p - 1)) as [Hk | Hk].
          -- assert (Hkw : (sz k ==w p -w sz 1) = true).
             { apply eqb_eq. apply uns_inj. rewrite uns_sz by lia.
               rewrite uns_sub, uns_one. rewrite Z.mod_small by lia. exact Hk. }
             rewrite Hkw, Hwi in Hy. injection Hy as <-.
             replace pos with (idx (d *w p +w p -w sz 1)) by (rewrite He; lia).
             eapply upd_same. exact HP1.
          -- assert (Hkw : (sz k ==w p -w sz 1) = false).
             { apply eqb_neq. intros E. apply Hk. apply (f_equal uns) in E.
               rewrite uns_sz in E by (unfold k; lia).
               rewrite uns_sub, uns_one in E. rewrite Z.mod_small in E by lia.
               exact E. }
             rewrite Hkw in Hy. injection Hy as <-.
             rewrite (vset_other_nat _ _ _ _ pos HP1) by (rewrite He; lia).
             assert (Hin : (pos < length (frame_Partial a))%nat).
             { rewrite HP, <- Hlb'. apply nth_error_Some. congruence. }
             apply nth_error_Some in Hin.
             destruct (nth_error (frame_Partial a) pos) as [y |] eqn:Ey;
               [| congruence].
             f_equal. apply (Hpend i d k y); try (unfold k; lia); [exact Hd |].
             rewrite <- Hpos. exact Ey.
        * rewrite (vset_other_nat _ _ _ _ pos HP1) by (rewrite He; lia).
          rewrite Hrest by (intros k Hk; lia). rewrite HP. reflexivity.
        * rewrite (vset_other_nat _ _ _ _ pos HP1) by (rewrite He; lia).
          rewrite Hrest by (intros k Hk; lia). rewrite HP. reflexivity.
      + (* the rows still to come *)
        intros i' d' k y Hi' Hd' Hk Hy.
        assert (Hdd : d' <> d).
        { intros ->. pose proof (NoDup_vget _ _ _ _ Hnd Hd' Hd) as E.
          apply (f_equal uns) in E. rewrite !uns_sz in E by lia. lia. }
        assert (Hne : uns d' <> uns d) by (intros E; apply Hdd, uns_inj, E).
        pose proof (uns_range d') as Hdr'.
        rewrite (vset_other_nat _ _ _ _ _ HP1) in Hy.
        * apply (Hpend i' d' k y); try lia; assumption.
        * rewrite He. intros E.
          assert (E' : uns d' * uns p + k = uns d * uns p + (uns p - 1)) by nia.
          destruct (row_col_unique (uns p) (uns d') k (uns d) (uns p - 1)
                      ltac:(lia) ltac:(lia) E'). contradiction. }
  apply Hend.
Qed.

Lemma Reverse_final_buffer p w s v s' :
  Reverse p w s = Ok v s' ->
  exists t,
    Reverse_seeded p w s = Ok tt t /\
    frame_Partial s' =
    ReverseSweep (p -w sz 1) (size (ind_taddr_ (this s)))
      (total_num_var_ (this s)) (play_ (this s)) (taylor_col_dim_ (this s))
      (taylor_ (this s)) p (frame_Partial t).
Proof.
  intros Hrun. unfold Reverse in Hrun.
  apply bind_ok in Hrun. destruct Hrun as ([] & s3 & Hseeded & Hrun).
  apply bind_ok in Hrun. destruct Hrun as ([] & s4 & Hsweep & Hex).
  exists s3. split; [exact Hseeded |].
  destruct (Reverse_seeded_ok _ _ _ _ Hseeded) as (Ht3 & _).
  unfold Reverse_sweep in Hsweep.
  apply bind_ok in Hsweep. destruct Hsweep as (F & s0 & HF & Hsweep).
  injection HF as <- <-.
  apply bind_ok in Hsweep. destruct Hsweep as (P & s0 & HP & Hsweep).
  injection HP as <- <-. injection Hsweep as <-. rewrite Ht3 in Hex.
  unfold Reverse_extract in Hex.
  apply bind_ok in Hex. destruct Hex as (n & s0 & Hn & Hex).
  apply member_ok in Hn. destruct Hn as [-> ->].
  apply bind_ok in Hex. destruct Hex as (m & s0 & Hm & Hex).
  apply member_ok in Hm. destruct Hm as [-> ->].
  apply bind_ok in Hex. destruct Hex as ([] & s5 & Hput & Hex).
  injection Hput as <-.
  apply bind_ok in Hex. destruct Hex as ([] & s6 & Hloop & Hget).
  injection Hget as <- <-.
  assert (Hinv := Reverse_extract_loop p w _ _ _ _ _ _ Hloop eq_refl eq_refl).
  simpl in Hinv. rewrite (proj2 (extend_nil_length "value" _)) in Hinv.
  specialize (Hinv (proj2 (uns_range _))).
  destruct Hinv as (_ & HP & _). exact HP.
Qed.

(** C8, as the code has it: let the short weight vector [ws] and its long
    spelling [wl] (the weight at order [p - 1], zero below; its length is
    not [m], so that the code takes it for the long form) both get through
    [Reverse] on the same engine, let no two dependent variables have the
    same address, and let zero be neutral on the left of the addition of
    [Base].  Then the two results hold the same numbers with the orders in
    opposite sequence: the short-form result at order [k] of an independent
    variable is the long-form result at order [p - 1 - k]. *)
Theorem Reverse_short_form_is_long_form_reversed p ws wl s v s1 v' s1' (j k : size_t) :
  Reverse p ws s = Ok v s1 ->
  Reverse p wl s = Ok v' s1' ->
  size ws = size (dep_taddr_ (this s)) ->
  size wl <> size (dep_taddr_ (this s)) ->
  NoDup (dep_taddr_ (this s)) ->
  (forall x : Base, add zero x = x) ->
  one_hot_at_top (size (dep_taddr_ (this s))) p ws wl ->
  uns j < uns (size (ind_taddr_ (this s))) ->
  uns k < uns p ->
  exists x,
    entry v (uns j * uns p + uns k) = Some x /\
    entry v' (uns j * uns p + (uns p - 1 - uns k)) = Some x.
Proof.
  intros Hrun Hrun' Hshort Hlong Hnd Hlaw Hhot Hj Hk.
  destruct (Reverse_final_buffer _ _ _ _ _ Hrun) as (t & Hseeded & Hfin).
  destruct (Reverse_final_buffer _ _ _ _ _ Hrun') as (t' & Hseeded' & Hfin').
  assert (Hsame : frame_Partial s1 = frame_Partial s1').
  { rewrite Hfin, Hfin'. f_equal.
    eapply Reverse_seeds_agree; eassumption. }
  pose proof (uns_range k) as Hkr. pose proof (uns_range p) as Hpr.
  destruct (Reverse_returns_entries _ _ _ _ _ j k Hrun Hj Hk)
    as (a & x & Ha & HaT & Hnowrap & Hv & Hs).
  set (k' := sz (uns p - 1 - uns k)).
  assert (Hk' : uns k' = uns p - 1 - uns k) by (unfold k'; apply uns_sz; lia).
  destruct (Reverse_returns_entries _ _ _ _ _ j k' Hrun' Hj ltac:(lia))
    as (a' & x' & Ha' & _ & _ & Hv' & Hl).
  rewrite Ha in Ha'. injection Ha' as <-.
  apply eqb_eq in Hshort. apply eqb_neq in Hlong.
  rewrite Hshort in Hs. rewrite Hlong in Hl. unfold source_index in Hs, Hl.
  pose proof (uns_range a) as Har. pose proof (uns_range j) as Hjr.
  assert (Hidx : a *w p +w p -w sz 1 -w k = a *w p +w k').
  { apply uns_inj. rewrite uns_row_rev by (try lia; nia).
    rewrite uns_row by nia. lia. }
  rewrite Hidx, Hsame, Hl in Hs. injection Hs as <-.
  rewrite Hk' in Hv'. exists x'. unfold entry.
  destruct (Z.ltb_spec (uns j * uns p + uns k) 0); [nia |].
  destruct (Z.ltb_spec (uns j * uns p + (uns p - 1 - uns k)) 0); [nia |].
  split; assumption.
Qed.

(** C5: when [Reverse] returns, the returned vector holds at position
    [j * p + k] the entry of the buffer, as the sweep left it, in the row of
    the address [ind_taddr_[j]] at column [p - 1 - k] if [w] had the short
    form, and at column [k] if it had the long form.  Positions are exact
    integers: none of the index computations wraps in a returning call. *)
Theorem Reverse_extraction_rule p w s v s' (j k : size_t) :
  Reverse p w s = Ok v s' ->
  uns j < uns (size (ind_taddr_ (this s))) ->
  uns k < uns p ->
  exists a x,
    vget (ind_taddr_ (this s)) j = Some a /\
    entry v (uns j * uns p + uns k) = Some x /\
    (size w = size (dep_taddr_ (this s)) ->
     entry (frame_Partial s') (uns a * uns p + (uns p - 1 - uns k)) = Some x) /\
    (size w <> size (dep_taddr_ (this s)) ->
     entry (frame_Partial s') (uns a * uns p + uns k) = Some x).
Proof.
  intros Hrun Hj Hk.
  destruct (Reverse_returns_entries _ _ _ _ _ j k Hrun Hj Hk)
    as (a & x & Ha & HaT & Hnowrap & Hv & Hsrc).
  pose proof (uns_range j) as Hjr. pose proof (uns_range k) as Hkr.
  pose proof (uns_range a) as Har.
  exists a, x. split; [exact Ha |]. split; [| split].
  - unfold entry. destruct (Z.ltb_spec (uns j * uns p + uns k) 0); [nia |].
    exact Hv.
  - intros Hshort. apply eqb_eq in Hshort.
    rewrite Hshort in Hsrc. unfold source_index in Hsrc.
    rewrite vget_entry, uns_row_rev in Hsrc by (try lia; nia).
    rewrite <- Hsrc. f_equal. lia.
  - intros Hlong. apply eqb_neq in Hlong.
    rewrite Hlong in Hsrc. unfold source_index in Hsrc.
    rewrite vget_entry, uns_row in Hsrc by nia. exact Hsrc.
Qed.

(** ** The member buffer under [myReverse] *)

Lemma zeroing_refl s : zeroing s s.
Proof. repeat split. intros r x H. right. exact H. Qed.

Lemma zeroing_trans s1 s2 s3 : zeroing s1 s2 -> zeroing s2 s3 -> zeroing s1 s3.
Proof.
  intros (Ht & Hm & Hl & Hz) (Ht' & Hm' & Hl' & Hz'). repeat split; try congruence.
  intros r x H. destruct (Hz' r x H) as [E | H']; [left; exact E |].
  apply Hz. exact H'.
Qed.

Lemma zeroing_Partial_set q : keeps zeroing (Partial_set q zero).
Proof.
  intros s. unfold Partial_set, get_Partial, bind, of_option.
  destruct (vset (Partial (this s)) q zero) as [P' |] eqn:E; simpl;
    [| apply zeroing_refl].
  repeat split; simpl.
  - eapply vset_length. exact E.
  - intros r x H. destruct (Nat.eq_dec r (idx q)) as [-> | Hne].
    + left. rewrite (upd_same _ _ _ _ E) in H. congruence.
    + right. rewrite (vset_other_nat _ _ _ _ _ E Hne) in H. exact H.
Qed.

Lemma zeroing_keeps_zero s s' r :
  zeroing s s' ->
  nth_error (Partial (this s)) r = Some zero ->
  nth_error (Partial (this s')) r = Some zero.
Proof.
  intros (_ & _ & Hl & Hz) H.
  assert (Hin : (r < length (Partial (this s')))%nat).
  { rewrite Hl. apply nth_error_Some. congruence. }
  apply nth_error_Some in Hin.
  destruct (nth_error (Partial (this s')) r) as [x |] eqn:E; [| congruence].
  destruct (Hz r x E) as [-> | H']; congruence.
Qed.

Lemma zeroing_clear_rows (vi n p : size_t) :
  keeps zeroing
    (for_lt n (fun i => for_lt p (fun j => Partial_set (vi -w i *w p +w j) zero))).
Proof.
  apply (keeps_for_lt _ zeroing_refl zeroing_trans). intros i _.
  apply (keeps_for_lt _ zeroing_refl zeroing_trans). intros j _.
  apply zeroing_Partial_set.
Qed.

Lemma zeroing_clear p : keeps zeroing (myReverse_clear p).
Proof.
  unfold myReverse_clear.
  apply (keeps_bind _ zeroing_trans);
    [apply (keeps_member _ zeroing_refl) | intros mark].
  apply (keeps_for_each _ zeroing_refl zeroing_trans). intros it _.
  apply (keeps_bind _ zeroing_trans);
    [apply (keeps_member _ zeroing_refl) | intros tps].
  apply (keeps_bind _ zeroing_trans);
    [apply (keeps_at _ zeroing_refl) | intros tp].
  apply zeroing_clear_rows.
Qed.

Lemma keeps_ok (R : St -> St -> Prop) {A} (c : Run A) s a s' :
  keeps R c -> c s = Ok a s' -> R s s'.
Proof. intros K H. specialize (K s). rewrite H in K. exact K. Qed.

Lemma word_clear_index (a b : size_t) : a -w b *w sz 1 +w sz 0 = a -w b.
Proof.
  apply uns_inj. rewrite uns_add, uns_sub, uns_mul, uns_one, uns_zero.
  pose proof (uns_range b) as Hb.
  rewrite Z.mul_1_r, Z.add_0_r, Z.mod_mod by (unfold wordmax; lia).
  rewrite (Z.mod_small (uns b)) by exact Hb.
  rewrite <- uns_sub. reflexivity.
Qed.

Lemma for_lt_one (body : size_t -> Run unit) s :
  for_lt (sz 1) body s = (body (sz 0) ;; ret tt) s.
Proof. reflexivity. Qed.

(** The clean-up of one operation: its [n] result rows hold zero. *)
Lemma clear_rows_ok (vi n : size_t) s s' :
  for_lt n (fun i =>
    for_lt (sz 1) (fun j => Partial_set (vi -w i *w sz 1 +w j) zero)) s
    = Ok tt s' ->
  forall i, uns i < uns n ->
    nth_error (Partial (this s')) (idx (vi -w i)) = Some zero.
Proof.
  intros Hrun.
  pose (I := fun (c : Z) (st : St) =>
    forall i, uns i < c -> nth_error (Partial (this st)) (idx (vi -w i)) = Some zero).
  apply (for_lt_inv I n _ s s' Hrun).
  - intros i Hi. pose proof (uns_range i). lia.
  - intros k s1 s2 Hk HI Hbody.
    rewrite for_lt_one in Hbody.
    apply bind_ok in Hbody. destruct Hbody as ([] & t & Hset & Hret).
    injection Hret as <-.
    pose proof (keeps_ok _ _ _ _ _ (zeroing_Partial_set _) Hset) as Hz.
    rewrite word_clear_index in Hset.
    apply Partial_set_ok in Hset. destruct Hset as (P' & Hset & ->).
    pose proof (uns_range n) as Hn.
    intros i Hi. destruct (Z.eq_dec (uns i) k) as [E | N].
    + assert (i = sz k) as -> by (apply uns_inj; rewrite uns_sz by lia; exact E).
      simpl. eapply upd_same. exact Hset.
    + apply (zeroing_keeps_zero s1 _ _ Hz). apply HI. lia.
Qed.

Lemma row_of_index (F : ADFun (Base:=Base)) it r tp :
  row_of F it r -> vget (tp_ F) it = Some tp ->
  exists i, uns i < uns (NumRes (op tp)) /\ idx (var_index tp -w i) = r.
Proof.
  intros (tp' & i & Htp & Hi & Hr) Htp'. rewrite Htp' in Htp. injection Htp as <-.
  exists i. split; [exact Hi |]. unfold idx. rewrite uns_sub.
  pose proof (uns_range (var_index tp)). pose proof (uns_range i).
  rewrite Z.mod_small by lia. lia.
Qed.

(** After the clean-up, every row of every marked operation holds zero. *)
Lemma myReverse_clear_ok s s' :
  myReverse_clear (sz 1) s = Ok tt s' ->
  zeroing s s' /\
  forall r, covered (this s) r -> nth_error (Partial (this s')) r = Some zero.
Proof.
  intros Hrun. split; [exact (keeps_ok _ _ _ _ _ (zeroing_clear _) Hrun) |].
  unfold myReverse_clear in Hrun.
  apply bind_ok in Hrun. destruct Hrun as (mark & s0 & Hm & Hrun).
  apply member_ok in Hm. destruct Hm as [-> ->].
  pose (I := fun (done : list size_t) (st : St) =>
    zeroing s st /\
    forall it r, In it done -> row_of (this s) it r ->
                 nth_error (Partial (this st)) r = Some zero).
  assert (Hend : I ([] ++ op_mark_index_ (this s)) s').
  { apply (for_each_inv I _ _ [] s s' Hrun).
    - split; [apply zeroing_refl |]. intros it r [].
    - intros done it s1 s2 Hin (Hz1 & Hdone) Hbody.
      assert (Hz12 : zeroing s1 s2).
      { revert Hbody. apply keeps_ok.
        apply (keeps_bind _ zeroing_trans);
          [apply (keeps_member _ zeroing_refl) | intros tps].
        apply (keeps_bind _ zeroing_trans);
          [apply (keeps_at _ zeroing_refl) | intros tp].
        apply zeroing_clear_rows. }
      split; [eapply zeroing_trans; eassumption |].
      apply bind_ok in Hbody. destruct Hbody as (tps & s0 & Htps & Hbody).
      apply member_ok in Htps. destruct Htps as [-> ->].
      apply bind_ok in Hbody. destruct Hbody as (tp & s0 & Htp & Hbody).
      apply at_ok in Htp. destruct Htp as [Htp ->].
      rewrite (proj1 Hz1) in Htp.
      intros it' r Hin' Hrow. apply in_app_or in Hin'.
      destruct Hin' as [Hin' | [<- | []]].
      + apply (zeroing_keeps_zero s1 s2 _ Hz12). eapply Hdone; eassumption.
      + destruct (row_of_index _ _ _ _ Hrow Htp) as (i & Hi & <-).
        apply (clear_rows_ok _ _ _ _ Hbody). exact Hi. }
  destruct Hend as (_ & Hrows). intros r (it & Hin & Hrow).
  eapply Hrows; eassumption.
Qed.

Lemma myReverse_seeded_ok m p w dep_var_index s s1 :
  myReverse_seeded m p w dep_var_index s = Ok tt s1 ->
  p = sz 1 /\
  exists a P1,
    vget (dep_taddr_ (this s)) dep_var_index = Some a /\
    vset (Partial (this s)) (a *w p +w p -w sz 1) one = Some P1 /\
    s1 = mk_State (set_Partial P1 (this s)) (frame_Partial s) (value s).
Proof.
  intros H. split; [eapply myReverse_seeded_p; exact H |].
  unfold myReverse_seeded in H.
  apply bind_ok in H. destruct H as ([] & s0 & Hc & H).
  apply myReverse_check_ok in Hc. destruct Hc as [_ ->].
  unfold myReverse_seed in H.
  apply bind_ok in H. destruct H as (dep & s0 & Hd & H).
  apply member_ok in Hd. destruct Hd as [-> ->].
  apply bind_ok in H. destruct H as (a & s0 & Ha & H).
  apply at_ok in Ha. destruct Ha as [Ha ->].
  apply Partial_set_ok in H. destruct H as (P1 & HP & ->).
  exists a, P1. repeat split; assumption.
Qed.

Lemma all_zero_nth (P : list Base) :
  all_zero P <-> forall r x, nth_error P r = Some x -> x = zero.
Proof.
  unfold all_zero. rewrite Forall_forall. split.
  - intros H r x Hr. apply H. eapply nth_error_In. exact Hr.
  - intros H x Hin. apply In_nth_error in Hin. destruct Hin as (r & Hr).
    eapply H. exact Hr.
Qed.

(** One returning call with a marking that covers the seed and the
    propagation takes an all-zero member buffer to an all-zero one. *)
Lemma myReverse_call_zero (c : call) s s' :
  run_call c s = Ok tt s' ->
  seed_covered c s ->
  propagation_covered c s ->
  all_zero (Partial (this s)) ->
  all_zero (Partial (this s')).
Proof.
  destruct c as [m p w dvi]. unfold run_call, seed_covered, propagation_covered.
  simpl. intros Hrun Hseed Hprop Hzero. unfold myReverse in Hrun.
  apply bind_ok in Hrun. destruct Hrun as ([] & s1 & H1 & Hrun).
  apply bind_ok in Hrun. destruct Hrun as ([] & s2 & H2 & Hrun).
  apply bind_ok in Hrun. destruct Hrun as ([] & s3 & H3 & H4).
  specialize (Hprop s1 s2 H1 H2).
  destruct (myReverse_seeded_ok _ _ _ _ _ _ H1) as (-> & a & P1 & Ha & HP1 & Hs1).
  specialize (Hseed s1 s2 a H1 H2 Ha).
  assert (Ht3 : this s3 = this s2).
  { pose proof (value_outside_extract s2) as K. rewrite H3 in K. apply K. }
  destruct (myReverse_clear_ok _ _ H4) as ((_ & _ & _ & Hz) & Hrows).
  rewrite Ht3 in Hz, Hrows.
  apply all_zero_nth. intros r x Hr.
  destruct (Hz r x Hr) as [E | Hr2]; [exact E |].
  assert (Hcov : covered (this s2) r -> x = zero).
  { intros Hc. rewrite (Hrows r Hc) in Hr. congruence. }
  destruct (Hprop r) as [Hc | Hsame]; [exact (Hcov Hc) |].
  rewrite Hsame, Hs1 in Hr2. simpl in Hr2.
  destruct (Nat.eq_dec r (idx (a *w sz 1 +w sz 1 -w sz 1))) as [-> | Hne].
  - exact (Hcov Hseed).
  - rewrite (vset_other_nat _ _ _ _ _ HP1 Hne) in Hr2.
    apply (proj1 (all_zero_nth _) Hzero r x Hr2).
Qed.

(** C1, as the code has it: after any sequence of returning calls of
    [myReverse] on an engine whose member buffer was all zero before the
    first, the member buffer is all zero again, provided that in each call
    the marking is complete in this sense: the row that received the seed
    belongs to a marked operation, and every row that the propagation
    changed belongs to a marked operation (the rows of an operation being
    the [NumRes] rows ending at its [var_index]). *)
Theorem myReverse_keeps_member_buffer_zero s cs s' :
  all_zero (Partial (this s)) ->
  covered_calls s cs s' ->
  all_zero (Partial (this s')).
Proof.
  intros Hzero Hcalls. induction Hcalls as [s | s c s1 s1' cs s' Hrun Hseed Hprop Hsame _ IH].
  - exact Hzero.
  - apply IH. rewrite Hsame.
    eapply myReverse_call_zero; eassumption.
Qed.

(** ** One dependent variable: the seed of [Reverse] and the results of
    [myReverse] *)

(** With a weight vector that is one at the entry [i] and zero elsewhere,
    [Reverse] hands to the sweep the all-zero buffer with a one in the row
    of that dependent variable. *)
Lemma Reverse_seeded_one_hot w s t (i d : size_t) :
  Reverse_seeded (sz 1) w s = Ok tt t ->
  (forall x : Base, add zero x = x) ->
  (forall x : Base, add x zero = x) ->
  size w = size (dep_taddr_ (this s)) ->
  uns i < uns (size (dep_taddr_ (this s))) ->
  vget (dep_taddr_ (this s)) i = Some d ->
  (forall i', uns i' < uns (size (dep_taddr_ (this s))) ->
              vget w i' = Some (if i' ==w i then one else zero)) ->
  exists Z0,
    all_zero Z0 /\
    Z.of_nat (length Z0) = uns (total_num_var_ (this s)) /\
    vset Z0 (d *w sz 1 +w sz 1 -w sz 1) one = Some (frame_Partial t) /\
    this t = this s.
Proof.
  intros Hrun Hl Hr Hshort Hi Hd Hhot.
  unfold Reverse_seeded in Hrun.
  apply bind_ok in Hrun. destruct Hrun as ([] & s1 & Hc & Hrun).
  apply bind_ok in Hrun. destruct Hrun as ([] & s2 & Hz & Hseed).
  destruct (Reverse_zeroed _ _ _ _ _ Hc Hz) as ((Hp & Hlen & Hnowrap & Hzero) & Ht & _).
  unfold Reverse_seed in Hseed.
  apply bind_ok in Hseed. destruct Hseed as (m & s0 & Hm & Hseed).
  apply member_ok in Hm. destruct Hm as [-> ->]. rewrite Ht in *.
  set (F := this s) in *. set (m := size (dep_taddr_ F)) in *.
  set (Z0 := frame_Partial s2) in *.
  set (e := d *w sz 1 +w sz 1 -w sz 1).
  assert (HZ0 : forall r x, nth_error Z0 r = Some x -> x = zero).
  { intros r x Hx.
    assert (Hin : nth_error Z0 r <> None) by congruence.
    apply nth_error_Some in Hin. rewrite (Hzero _ Hin) in Hx. congruence. }
  exists Z0. split; [apply all_zero_nth; exact HZ0 |].
  split; [rewrite Hlen, uns_one; lia |].
  apply eqb_eq in Hshort.
  pose proof (uns_range i) as Hir. pose proof (uns_range m) as Hmr.
  pose (I := fun (c : Z) (st : St) =>
    this st = F /\
    (c <= uns i -> frame_Partial st = Z0) /\
    (uns i < c -> vset Z0 e one = Some (frame_Partial st))).
  assert (Hend : I (uns m) t).
  { apply (for_lt_inv I m _ s2 t Hseed).
    - unfold I. repeat split; [exact Ht | lia].
    - intros k t1 t2 Hk (Ht1 & Hbefore & Hafter) Hb.
      apply Reverse_seed_entry_short in Hb; [| exact Hshort].
      destruct Hb as (d' & x & w_k & P1 & Hd' & _ & Hx & Hwk & HP1 & ->).
      rewrite Ht1 in Hd'. rewrite (Hhot (sz k)) in Hwk by (rewrite uns_sz; lia).
      unfold I; simpl. split; [exact Ht1 |].
      destruct (Z.eq_dec k (uns i)) as [E | N].
      + subst k. rewrite sz_uns in Hd', Hwk.
        rewrite Hd in Hd'. injection Hd' as <-.
        rewrite (proj2 (eqb_eq i i) eq_refl) in Hwk. injection Hwk as <-.
        rewrite (Hbefore ltac:(lia)) in Hx, HP1. fold e in Hx, HP1.
        rewrite (HZ0 _ _ Hx), Hl in HP1.
        split; [lia | intros _; exact HP1].
      + assert (Hne : (sz k ==w i) = false).
        { apply eqb_neq. intros E. apply N. rewrite <- E. symmetry.
          apply uns_sz. lia. }
        rewrite Hne in Hwk. injection Hwk as <-. rewrite Hr in HP1.
        unfold vset in HP1. rewrite (upd_id _ _ _ Hx) in HP1.
        injection HP1 as <-.
        split; intros Hc'; [apply Hbefore | apply Hafter]; lia. }
  destruct Hend as (Htt & _ & Hafter). split; [apply Hafter; lia |].
  rewrite Htt. reflexivity.
Qed.

(** What the extraction of [myReverse] leaves in [value]. *)
Lemma myReverse_extract_ok s s' :
  myReverse_extract (sz 1) s = Ok tt s' ->
  this s' = this s /\
  forall it, In it (op_inv_index_ (this s)) ->
    exists a x,
      vget (ind_taddr_ (this s)) (it -w sz 1) = Some a /\
      vget (Partial (this s)) (a *w sz 1 +w sz 1 -w sz 1 -w sz 0) = Some x /\
      vget (value s') (it -w sz 1) = Some x.
Proof.
  intros Hrun. unfold myReverse_extract in Hrun.
  apply bind_ok in Hrun. destruct Hrun as (inv & s0 & Hinv & Hrun).
  apply member_ok in Hinv. destruct Hinv as [-> ->].
  pose (I := fun (done : list size_t) (st : St) =>
    this st = this s /\
    forall it, In it done ->
      exists a x,
        vget (ind_taddr_ (this s)) (it -w sz 1) = Some a /\
        vget (Partial (this s)) (a *w sz 1 +w sz 1 -w sz 1 -w sz 0) = Some x /\
        vget (value st) (it -w sz 1) = Some x).
  assert (Hend : I ([] ++ op_inv_index_ (this s)) s').
  { apply (for_each_inv I _ _ [] s s' Hrun).
    - split; [reflexivity | intros it []].
    - intros done it s1 s2 Hin (Ht1 & Hdone) Hbody.
      rewrite for_lt_one in Hbody.
      apply bind_ok in Hbody. destruct Hbody as ([] & t & Hbody & Hret).
      injection Hret as <-.
      apply bind_ok in Hbody. destruct Hbody as (ind & s0 & Hind & Hbody).
      apply member_ok in Hind. destruct Hind as [-> ->].
      apply bind_ok in Hbody. destruct Hbody as (a & s0 & Ha & Hbody).
      apply at_ok in Ha. destruct Ha as [Ha ->].
      apply bind_ok in Hbody. destruct Hbody as (x & s0 & Hx & Hset).
      apply Partial_at_ok in Hx. destruct Hx as [Hx ->].
      rewrite word_row_one in Hset.
      apply value_set_ok in Hset. destruct Hset as (v' & Hset & ->).
      rewrite Ht1 in Ha, Hx.
      unfold I; simpl. split; [exact Ht1 |].
      intros it' Hin'. apply in_app_or in Hin'.
      destruct Hin' as [Hin' | [<- | []]].
      + destruct (Hdone it' Hin') as (a' & x' & Ha' & Hx' & Hv').
        destruct (it' -w sz 1 ==w it -w sz 1) eqn:E.
        * apply eqb_eq in E. rewrite E in *.
          rewrite Ha in Ha'. injection Ha' as <-.
          rewrite Hx in Hx'. injection Hx' as <-.
          exists a, x. repeat split; try assumption.
          eapply vset_same. exact Hset.
        * apply eqb_neq in E. exists a', x'. repeat split; try assumption.
          rewrite (vset_other _ _ _ _ _ Hset E). exact Hv'.
      + exists a, x. repeat split; try assumption.
        eapply vset_same. exact Hset. }
  exact Hend.
Qed.

End EntryPoints.

(** * The selective propagation against the full one *)

Section SpecFacts.

Context {Base : Type} {BaseOps : Scalar Base} {Ops : OpLayer}.

Variable lp :
  tape_point -> size_t -> list Base -> size_t -> size_t -> nat -> size_t -> Base.

Hypothesis add_zero_r : forall x : Base, add x zero = x.
Hypothesis mul_zero_l : forall c : Base, mul zero c = zero.

Implicit Types (P : list Base) (tp : tape_point) (play : player)
  (marks : list size_t).

Lemma word_range_one : word_range (sz 1) = [sz 0].
Proof. reflexivity. Qed.

(** First order: an edge reads one result row and writes one operand row. *)
Lemma chain_edges_one tp e :
  In e (chain_edges (sz 1) tp) ->
  exists i q, e = (i, sz 0, q, sz 0) /\ In (var_index tp -w i) (result_rows tp).
Proof.
  unfold chain_edges. rewrite word_range_one. intros H.
  apply in_flat_map in H. destruct H as (i & Hi & H).
  simpl in H. rewrite app_nil_r in H.
  apply in_flat_map in H. destruct H as (q & Hq & H).
  simpl in H. destruct H as [<- | []].
  exists i, q. split; [reflexivity |].
  unfold result_rows. apply in_map. exact Hi.
Qed.

Lemma chain_step_noop J Taylor tp P e :
  In e (chain_edges (sz 1) tp) ->
  (forall r, In r (result_rows tp) -> forall y, vget P r = Some y -> y = zero) ->
  chain_step lp (sz 1) J Taylor tp P e = P.
Proof.
  intros He Hz. destruct (chain_edges_one _ _ He) as (i & q & -> & Hrow).
  unfold chain_step. destruct (nth_error (op_arg tp) q) as [a |]; [| reflexivity].
  rewrite !word_row_one.
  destruct (vget P (var_index tp -w i)) as [pz |] eqn:Epz; [| reflexivity].
  destruct (vget P a) as [pa |] eqn:Epa; [| reflexivity].
  rewrite (Hz _ Hrow _ Epz), mul_zero_l, add_zero_r.
  unfold vset. rewrite (upd_id _ _ _ Epa). reflexivity.
Qed.

Lemma reverse_op_noop J Taylor tp P :
  (forall r, In r (result_rows tp) -> forall y, vget P r = Some y -> y = zero) ->
  reverse_op lp (sz 1) J Taylor P tp = P.
Proof.
  intros Hz. unfold reverse_op.
  assert (H : forall edges, incl edges (chain_edges (sz 1) tp) ->
                fold_left (chain_step lp (sz 1) J Taylor tp) edges P = P).
  { induction edges as [| e rest IH]; intros Hincl; [reflexivity |].
    simpl. rewrite chain_step_noop.
    - apply IH. intros x Hx. apply Hincl. right. exact Hx.
    - apply Hincl. left. reflexivity.
    - exact Hz. }
  apply H. apply incl_refl.
Qed.

Lemma chain_step_frame J Taylor tp P e r :
  In e (chain_edges (sz 1) tp) ->
  ~ In r (op_arg tp) ->
  vget (chain_step lp (sz 1) J Taylor tp P e) r = vget P r.
Proof.
  intros He Hr. destruct (chain_edges_one _ _ He) as (i & q & -> & _).
  unfold chain_step.
  destruct (nth_error (op_arg tp) q) as [a |] eqn:Ea; [| reflexivity].
  rewrite !word_row_one.
  destruct (vget P (var_index tp -w i)) as [pz |]; [| reflexivity].
  destruct (vget P a) as [pa |]; [| reflexivity].
  destruct (vset P a (add pa (mul pz (lp tp J Taylor i (sz 0) q (sz 0)))))
    as [P' |] eqn:E; [| reflexivity].
  eapply vset_other; [exact E |]. intros ->. apply Hr.
  eapply nth_error_In. exact Ea.
Qed.

Lemma reverse_op_frame J Taylor tp P r :
  ~ In r (op_arg tp) ->
  vget (reverse_op lp (sz 1) J Taylor P tp) r = vget P r.
Proof.
  intros Hr. unfold reverse_op.
  assert (H : forall edges P0, incl edges (chain_edges (sz 1) tp) ->
                vget (fold_left (chain_step lp (sz 1) J Taylor tp) edges P0) r
                = vget P0 r).
  { induction edges as [| e rest IH]; intros P0 Hincl; [reflexivity |].
    simpl. rewrite IH by (intros x Hx; apply Hincl; right; exact Hx).
    apply chain_step_frame; [apply Hincl; left; reflexivity | exact Hr]. }
  apply H. apply incl_refl.
Qed.

Lemma descending_below marks bound :
  descending marks bound = true ->
  forall it, In it marks -> (idx it < bound)%nat.
Proof.
  revert bound. induction marks as [| it0 rest IH]; intros bound H it Hin;
    [destruct Hin |].
  simpl in H. apply andb_true_iff in H. destruct H as [H0 Hrest].
  apply Nat.ltb_lt in H0. destruct Hin as [<- | Hin]; [exact H0 |].
  specialize (IH _ Hrest it Hin). lia.
Qed.

Lemma vget_app_l {A} (l : list A) x (it : size_t) :
  (idx it < length l)%nat -> vget (l ++ [x]) it = vget l it.
Proof. intros H. unfold vget. apply nth_error_app1. exact H. Qed.

Lemma selective_fold_prefix play x K J Taylor marks P :
  (forall it, In it marks -> (idx it < length play)%nat) ->
  fold_left (selective_step lp (play ++ [x]) K J Taylor) marks P =
  fold_left (selective_step lp play K J Taylor) marks P.
Proof.
  revert P. induction marks as [| it rest IH]; intros P H; [reflexivity |].
  simpl. unfold selective_step at 2 4.
  rewrite vget_app_l by (apply H; left; reflexivity).
  apply IH. intros it' Hin. apply H. right. exact Hin.
Qed.

Lemma unmarked_row_prefix play x marks marks' r :
  (forall it, In it marks -> In it marks' \/ idx it = length play) ->
  unmarked_row play marks' r -> unmarked_row (play ++ [x]) marks r.
Proof.
  intros Hm (k & tp & Hk & Hun & Hr).
  assert (Hlt : (k < length play)%nat) by (apply nth_error_Some; congruence).
  exists k, tp. split; [| split; [| exact Hr]].
  - rewrite nth_error_app1 by exact Hlt. exact Hk.
  - intros it Hin. destruct (Hm it Hin) as [Hin' | E]; [apply Hun, Hin' | lia].
Qed.

(** The selective propagation over a relevance index does what the full
    propagation does, on a buffer whose other rows hold zero. *)
Lemma sweeps_agree J Taylor :
  forall play marks P,
    descending marks (length play) = true ->
    operands_marked play marks ->
    rows_zero play marks P ->
    fold_left (reverse_op lp (sz 1) J Taylor) (rev play) P =
    fold_left (selective_step lp play (sz 1) J Taylor) marks P.
Proof.
  induction play as [| x l IH] using rev_ind; intros marks P Hdesc Hclosed Hzero.
  - destruct marks as [| it rest]; [reflexivity |].
    pose proof (descending_below _ _ Hdesc it (or_introl eq_refl)) as H0.
    simpl in H0. lia.
  - rewrite rev_app_distr. simpl. rewrite length_app in Hdesc. simpl in Hdesc.
    assert (Hcase : (exists rest, marks = rest /\
                       forall it, In it marks -> (idx it < length l)%nat) \/
                    (exists it rest, marks = it :: rest /\ idx it = length l)).
    { destruct marks as [| it rest].
      - left. exists []. split; [reflexivity | intros it []].
      - pose proof Hdesc as Hd. simpl in Hd. apply andb_true_iff in Hd.
        destruct Hd as [H0 Hrest]. apply Nat.ltb_lt in H0.
        destruct (Nat.eq_dec (idx it) (length l)) as [E | N].
        + right. exists it, rest. split; [reflexivity | exact E].
        + left. exists (it :: rest). split; [reflexivity |].
          intros it' [<- | Hin]; [lia |].
          pose proof (descending_below _ _ Hrest it' Hin). lia. }
    destruct Hcase as [(rest & -> & Hbelow) | (it & rest & -> & Eit)].
    + (* the last operation is not marked *)
      assert (Hx : reverse_op lp (sz 1) J Taylor P x = P).
      { apply reverse_op_noop. intros r Hr. apply Hzero.
        exists (length l), x. split; [| split; [| exact Hr]].
        - rewrite nth_error_app2 by lia. rewrite Nat.sub_diag. reflexivity.
        - intros it Hin. specialize (Hbelow it Hin). lia. }
      rewrite Hx, selective_fold_prefix by exact Hbelow.
      apply IH.
      * destruct rest as [| it rest']; [reflexivity |].
        simpl in Hdesc |- *. apply andb_true_iff in Hdesc.
        destruct Hdesc as [_ Hrest]. apply andb_true_iff. split; [| exact Hrest].
        apply Nat.ltb_lt. apply Hbelow. left. reflexivity.
      * intros it tp a Hin Htp Ha Hrow.
        apply (Hclosed it tp a Hin).
        -- rewrite vget_app_l by (apply Hbelow; exact Hin). exact Htp.
        -- exact Ha.
        -- eapply unmarked_row_prefix; [| exact Hrow]. intros it' Hin'.
           left. exact Hin'.
      * intros r Hrow. apply Hzero.
        eapply unmarked_row_prefix; [| exact Hrow]. intros it' Hin'.
        left. exact Hin'.
    + (* the last operation is the first of the index *)
      simpl in Hdesc. apply andb_true_iff in Hdesc. destruct Hdesc as [_ Hrest].
      rewrite Eit in Hrest.
      pose proof (descending_below _ _ Hrest) as Hbelow.
      assert (Hit : vget (l ++ [x]) it = Some x).
      { unfold vget. rewrite Eit, nth_error_app2 by lia.
        rewrite Nat.sub_diag. reflexivity. }
      simpl. unfold selective_step at 2. rewrite Hit.
      rewrite selective_fold_prefix by exact Hbelow.
      assert (Hpre : forall r, unmarked_row l rest r ->
                               unmarked_row (l ++ [x]) (it :: rest) r).
      { intros r. apply unmarked_row_prefix. intros it' [<- | Hin'];
          [right; exact Eit | left; exact Hin']. }
      apply IH.
      * exact Hrest.
      * intros it' tp a Hin Htp Ha Hrow.
        apply (Hclosed it' tp a (or_intror Hin)).
        -- rewrite vget_app_l by (apply Hbelow; exact Hin). exact Htp.
        -- exact Ha.
        -- apply Hpre. exact Hrow.
      * intros r Hrow y Hy.
        rewrite reverse_op_frame in Hy.
        -- eapply Hzero; [apply Hpre; exact Hrow | exact Hy].
        -- intros Ha. apply (Hclosed it x r (or_introl eq_refl) Hit Ha).
           apply Hpre. exact Hrow.
Qed.

Lemma mem_word_false (a : size_t) (l : list size_t) :
  mem_word a l = false -> ~ In a l.
Proof.
  unfold mem_word. intros H Hin.
  assert (Ht : existsb (weqb a) l = true).
  { apply existsb_exists. exists a. split; [exact Hin | apply eqb_eq; reflexivity]. }
  congruence.
Qed.

Lemma in_combine_seq {A} (l : list A) :
  forall start k x, nth_error l k = Some x ->
                    In ((start + k)%nat, x) (combine (seq start (length l)) l).
Proof.
  induction l as [| h t IH]; intros start k x H; [destruct k; discriminate |].
  destruct k as [| k]; simpl in *.
  - injection H as ->. left. f_equal. lia.
  - right. replace (start + Datatypes.S k)%nat with (Datatypes.S start + k)%nat by lia.
    apply IH. exact H.
Qed.

Lemma unmarked_row_in play marks r :
  unmarked_row play marks r -> In r (unmarked_rows play marks).
Proof.
  intros (k & tp & Hk & Hun & Hr). unfold unmarked_rows.
  apply in_flat_map. exists (k, tp). split.
  - apply (in_combine_seq play 0 k tp Hk).
  - destruct (is_marked marks k) eqn:E; [| exact Hr].
    exfalso. unfold is_marked in E. apply existsb_exists in E.
    destruct E as (it & Hin & E). apply Nat.eqb_eq in E. exact (Hun it Hin E).
Qed.

Lemma relevance_index_for_spec play marks d :
  relevance_index_for play marks d = true ->
  descending marks (length play) = true /\
  ~ unmarked_row play marks d /\
  operands_marked play marks.
Proof.
  unfold relevance_index_for. intros H.
  apply andb_true_iff in H. destruct H as [H Hops].
  apply andb_true_iff in H. destruct H as [Hdesc Hd].
  split; [exact Hdesc |]. split.
  - intros Hrow. apply negb_true_iff in Hd.
    exact (mem_word_false _ _ Hd (unmarked_row_in _ _ _ Hrow)).
  - intros it tp a Hin Htp Ha Hrow.
    rewrite forallb_forall in Hops. specialize (Hops it Hin).
    rewrite Htp in Hops. rewrite forallb_forall in Hops.
    specialize (Hops a Ha). apply negb_true_iff in Hops.
    exact (mem_word_false _ _ Hops (unmarked_row_in _ _ _ Hrow)).
Qed.

Hypothesis add_zero_l : forall x : Base, add zero x = x.

Variable indet : string -> nat -> Base.

Lemma word_row_one_last (d : size_t) : d *w sz 1 +w sz 1 -w sz 1 = d.
Proof.
  apply uns_inj. rewrite uns_sub, uns_add, uns_mul, uns_one.
  pose proof (uns_range d) as Hd.
  rewrite Z.mul_1_r, (Z.mod_small (uns d)) by exact Hd.
  rewrite Zminus_mod_idemp_l.
  replace (uns d + 1 - 1) with (uns d) by lia. apply Z.mod_small. exact Hd.
Qed.

Lemma all_zero_same_length (P Q : list Base) :
  all_zero P -> all_zero Q -> length P = length Q -> P = Q.
Proof.
  intros HP HQ Hlen. apply list_ext. intros k.
  destruct (nth_error P k) as [x |] eqn:Ex, (nth_error Q k) as [y |] eqn:Ey.
  - rewrite (proj1 (all_zero_nth P) HP _ _ Ex), (proj1 (all_zero_nth Q) HQ _ _ Ey).
    reflexivity.
  - apply nth_error_None in Ey.
    assert (nth_error P k <> None) by congruence.
    apply nth_error_Some in H. lia.
  - apply nth_error_None in Ex.
    assert (nth_error Q k <> None) by congruence.
    apply nth_error_Some in H. lia.
  - reflexivity.
Qed.

(** C2, as the model of the propagation has it.  Let the engine's member
    buffer hold [total_num_var_] zeros on entry, let the marked operations be
    a relevance index for the dependent variable [i] (handed out in reverse
    tape order, containing the operation of that variable and the operations
    of the operands of every marked operation), and let zero be neutral for
    the addition of [Base] and absorbing on the left of its multiplication.
    Then, when both calls return, every entry of [value] that [myReverse]
    writes holds the number that [Reverse], called with one order and the
    weight vector that is one at [i] and zero elsewhere, returns at that
    position. *)
Theorem myReverse_agrees_with_Reverse (m : size_t) (w w' : list Base)
  (s : State (Base := Base)) v s1 s2 (i d : size_t) :
  all_zero (Partial (this s)) ->
  Z.of_nat (length (Partial (this s))) = uns (total_num_var_ (this s)) ->
  Z.of_nat (length (ind_taddr_ (this s))) < wordmax ->
  Z.of_nat (length (dep_taddr_ (this s))) < wordmax ->
  vget (dep_taddr_ (this s)) i = Some d ->
  relevance_index_for (play_ (this s)) (op_mark_index_ (this s)) d = true ->
  size w = size (dep_taddr_ (this s)) ->
  (forall i', uns i' < uns (size (dep_taddr_ (this s))) ->
              vget w i' = Some (if i' ==w i then one else zero)) ->
  Reverse (Sweeps := spec_layer lp indet) (sz 1) w s = Ok v s1 ->
  myReverse (Sweeps := spec_layer lp indet) m (sz 1) w' i s = Ok tt s2 ->
  forall it, In it (op_inv_index_ (this s)) ->
    exists x,
      vget (value s2) (it -w sz 1) = Some x /\
      vget v (it -w sz 1) = Some x.
Proof.
  intros Hzero Hlen Hnind Hndep Hd Hrel Hshort Hhot Hfull Hsel it Hit.
  destruct (relevance_index_for_spec _ _ _ Hrel) as (Hdesc & Hdrow & Hclosed).
  assert (Hi : uns i < uns (size (dep_taddr_ (this s)))).
  { unfold size. rewrite uns_sz by lia. apply (vget_lt _ _ _ Hd). }
  (* the full sweep *)
  destruct (Reverse_final_buffer (Sweeps := spec_layer lp indet) _ _ _ _ _ Hfull)
    as (t & Hseeded & Hfin).
  destruct (Reverse_seeded_one_hot (Sweeps := spec_layer lp indet) _ _ _ i d
              Hseeded add_zero_l add_zero_r Hshort Hi Hd Hhot)
    as (Z0 & HZ0 & HlenZ0 & HP0 & _).
  assert (HPF : Partial (this s) = Z0).
  { apply all_zero_same_length; [exact Hzero | exact HZ0 |].
    lia. }
  (* the selective sweep *)
  unfold myReverse in Hsel.
  apply bind_ok in Hsel. destruct Hsel as ([] & t1 & H1 & Hsel).
  apply bind_ok in Hsel. destruct Hsel as ([] & t2 & H2 & Hsel).
  apply bind_ok in Hsel. destruct Hsel as ([] & t3 & H3 & H4).
  destruct (myReverse_seeded_ok _ _ _ _ _ _ H1) as (_ & d' & P1 & Hd' & HP1 & ->).
  rewrite Hd in Hd'. injection Hd' as <-.
  rewrite HPF, HP0 in HP1. injection HP1 as <-.
  unfold myReverse_sweep in H2. apply bind_ok in H2.
  destruct H2 as (F1 & t0 & HF1 & H2). injection HF1 as <- <-.
  injection H2 as <-.
  destruct (myReverse_extract_ok _ _ H3) as (_ & Hvals). simpl in Hvals.
  destruct (Hvals it Hit) as (a & x & Ha & Hx & Hv).
  pose proof (same_value_clear (sz 1) t3) as Hclear. rewrite H4 in Hclear.
  destruct Hclear as [Hv2 _]. simpl in Hv2.
  (* the two buffers after the propagation *)
  assert (Hagree :
    fold_left (reverse_op lp (sz 1) (taylor_col_dim_ (this s)) (taylor_ (this s)))
      (rev (play_ (this s))) (frame_Partial t) =
    fold_left (selective_step lp (play_ (this s)) (sz 1) (taylor_col_dim_ (this s)) (taylor_ (this s)))
      (op_mark_index_ (this s)) (frame_Partial t)).
  { apply sweeps_agree; [exact Hdesc | exact Hclosed |].
    intros r Hrow y Hy.
    rewrite word_row_one_last in HP0.
    rewrite (vset_other _ _ _ _ r HP0) in Hy.
    - rewrite vget_entry in Hy. unfold entry in Hy.
      destruct (uns r <? 0); [discriminate |].
      exact (proj1 (all_zero_nth Z0) HZ0 _ _ Hy).
    - intros ->. exact (Hdrow Hrow). }
  (* the entry of the full sweep *)
  assert (Hj : uns (it -w sz 1) < uns (size (ind_taddr_ (this s)))).
  { unfold size. rewrite uns_sz by lia. apply (vget_lt _ _ _ Ha). }
  destruct (Reverse_returns_entries (Sweeps := spec_layer lp indet)
              _ _ _ _ _ (it -w sz 1) (sz 0) Hfull Hj ltac:(reflexivity))
    as (a' & x' & Ha' & _ & _ & Hv' & Hx').
  rewrite Ha in Ha'. injection Ha' as <-.
  rewrite (proj2 (eqb_eq _ _) Hshort) in Hx'. unfold source_index in Hx'.
  rewrite Hfin in Hx'.
  change (vget (fold_left (reverse_op lp (sz 1) (taylor_col_dim_ (this s)) (taylor_ (this s)))
                  (rev (play_ (this s))) (frame_Partial t))
            (a *w sz 1 +w sz 1 -w sz 1 -w sz 0) = Some x') in Hx'.
  rewrite Hagree in Hx'.
  change (vget (fold_left
                  (selective_step lp (play_ (this s)) (sz 1) (taylor_col_dim_ (this s)) (taylor_ (this s)))
                  (op_mark_index_ (this s)) (frame_Partial t))
            (a *w sz 1 +w sz 1 -w sz 1 -w sz 0) = Some x) in Hx.
  rewrite Hx in Hx'. injection Hx' as <-.
  exists x. split.
  - rewrite Hv2. exact Hv.
  - unfold vget, idx. rewrite uns_one, uns_zero, Z.mul_1_r, Z.add_0_r in Hv'.
    exact Hv'.
Qed.

End SpecFacts.

(** * Concrete runs *)

Lemma sz_neq (a b : size_t) : uns a <> uns b -> a <> b.
Proof. intros H E. apply H. rewrite E. reflexivity. Qed.

(** The minimal scenario of the design: for [y = x0 * x1 + x0] at
    [(3, 4)], the full sweep returns the gradient [5; 3], and the selective
    sweep writes the same and leaves the member buffer all zero. *)
Example mul_add_gradient :
  (exists s', Reverse (Sweeps := Z_sweeps) (sz 1) [1]
                (start_state (engine_mul_add [0; 0; 0; 0; 0]) []) = Ok [5; 3] s') /\
  myReverse (Sweeps := Z_sweeps) (sz 1) (sz 1) [1] (sz 0)
    (start_state (engine_mul_add [0; 0; 0; 0; 0]) [0; 0]) =
  Ok tt (start_state (engine_mul_add [0; 0; 0; 0; 0]) [5; 3]).
Proof. split; [eexists |]; vm_compute; reflexivity. Qed.

(** An operation with two result slots: the derivative of [sinh] at 0 is
    [cosh 0 = 1]; the clean-up clears both rows of the operation. *)
Example sinh_gradient :
  (exists s', Reverse (Sweeps := Z_sweeps) (sz 1) [1]
                (start_state (engine_sinh [0; 0; 0; 0]) []) = Ok [1] s') /\
  myReverse (Sweeps := Z_sweeps) (sz 1) (sz 1) [1] (sz 0)
    (start_state (engine_sinh [0; 0; 0; 0]) [0]) =
  Ok tt (start_state (engine_sinh [0; 0; 0; 0]) [1]).
Proof. split; [eexists |]; vm_compute; reflexivity. Qed.

Lemma myReverse_rejects_order_witness :
  sz 2 <> sz 1 /\
  myReverse (Sweeps := Z_sweeps) (sz 1) (sz 2) [1] (sz 0)
    (start_state (engine_mul_add [0; 0; 0; 0; 0]) [0; 0]) =
  Err (AssertKnown msg_first_order)
    (start_state (engine_mul_add [0; 0; 0; 0; 0]) [0; 0]).
Proof.
  assert (H : sz 2 <> sz 1) by (apply sz_neq; vm_compute; discriminate).
  split; [exact H |].
  apply (myReverse_rejects_order (Sweeps := Z_sweeps)). exact H.
Defined.

Lemma Reverse_rejects_before_writing_witness :
  exists msg,
    Reverse (Sweeps := Z_sweeps) (sz 1) [1; 2; 3]
      (start_state (engine_mul_add [0; 0; 0; 0; 0]) []) =
    Err (AssertKnown msg)
      (mk_State (engine_mul_add [0; 0; 0; 0; 0])
         (extend (Sweeps := Z_sweeps) "Partial" [] (sz 5 *w sz 1)) []).
Proof.
  apply (Reverse_rejects_before_writing (Sweeps := Z_sweeps) (sz 1) [1; 2; 3]
           (start_state (engine_mul_add [0; 0; 0; 0; 0]) [])).
  left. split; apply sz_neq; vm_compute; discriminate.
Defined.

(** C9, as stated, fails on the tape of [y = x0 * x1 + x0]: the full sweep
    has written the rows [0; 5; 3; 1; 1], and the member buffer of the engine
    is still the all-zero buffer it was before the call. *)
Lemma Reverse_member_buffer_counterexample :
  exists s',
    Reverse (Sweeps := Z_sweeps) (sz 1) [1]
      (start_state (engine_mul_add [0; 0; 0; 0; 0]) []) = Ok [5; 3] s' /\
    frame_Partial s' = [0; 5; 3; 1; 1] /\
    Partial (this s') = [0; 0; 0; 0; 0].
Proof.
  eexists. split; [vm_compute; reflexivity |]. split; reflexivity.
Qed.

(** C3 fails on the code: with two dependent variables at the address 4,
    two orders and the long weight vector [1; 2; 3; 4], the row of address 4
    handed to the sweep is [3; 4], the weights of the later entry alone, and
    not their sums [4; 6]. *)
Theorem Reverse_long_seed_overwrites_alias :
  exists s',
    Reverse_seeded (Sweeps := Z_sweeps) (sz 2) [1; 2; 3; 4]
      (start_state (engine_order2 [4; 4]) []) = Ok tt s' /\
    frame_Partial s' = [0; 0; 0; 0; 0; 0; 0; 0; 3; 4].
Proof. eexists. split; [vm_compute; reflexivity | reflexivity]. Qed.

Lemma order2_short_run :
  exists s1,
    Reverse (Sweeps := Z_sweeps) (sz 2) [1]
      (start_state (engine_order2 [4]) []) = Ok [5; 0; 3; 1] s1.
Proof. eexists. vm_compute. reflexivity. Qed.

Lemma order2_long_run :
  exists s2,
    Reverse (Sweeps := Z_sweeps) (sz 2) [0; 1]
      (start_state (engine_order2 [4]) []) = Ok [0; 5; 1; 3] s2.
Proof. eexists. vm_compute. reflexivity. Qed.

(** C8, as stated, fails for [y = x0 * x1 + x0] with two orders: the short
    weight [1] returns [5; 0; 3; 1], its long spelling [0; 1] returns
    [0; 5; 1; 3]. *)
Lemma Reverse_short_long_counterexample :
  exists s1 s2,
    Reverse (Sweeps := Z_sweeps) (sz 2) [1]
      (start_state (engine_order2 [4]) []) = Ok [5; 0; 3; 1] s1 /\
    Reverse (Sweeps := Z_sweeps) (sz 2) [0; 1]
      (start_state (engine_order2 [4]) []) = Ok [0; 5; 1; 3] s2 /\
    [5; 0; 3; 1] <> [0; 5; 1; 3].
Proof.
  destruct order2_short_run as (s1 & H1). destruct order2_long_run as (s2 & H2).
  exists s1, s2. split; [exact H1 |]. split; [exact H2 | discriminate].
Qed.

Lemma Z_add_zero_r (x : Z) : add x zero = x.
Proof. apply Z.add_0_r. Qed.

Lemma Z_mul_zero_l (c : Z) : mul zero c = zero.
Proof. reflexivity. Qed.

Lemma Z_add_zero_l (x : Z) : add zero x = x.
Proof. reflexivity. Qed.

Lemma word_below_1 (i : size_t) : uns i < 1 -> i = sz 0.
Proof.
  intros H. apply uns_inj. pose proof (uns_range i). rewrite uns_zero. lia.
Qed.

Lemma word_below_2 (i : size_t) : uns i < 2 -> i = sz 0 \/ i = sz 1.
Proof.
  intros H. pose proof (uns_range i).
  destruct (Z.eq_dec (uns i) 0) as [E | N].
  - left. apply uns_inj. rewrite uns_zero. exact E.
  - right. apply uns_inj. rewrite uns_one. lia.
Qed.

Lemma Reverse_short_seed_adds_aliases_witness :
  exists s',
    Reverse_seeded (Sweeps := Z_sweeps) (sz 1) [10; 20]
      (start_state (engine_order2 [4; 4]) []) = Ok tt s' /\
    vget (frame_Partial s') (sz 4 *w sz 1 +w sz 1 -w sz 1) =
    Some (add (add zero 10) 20).
Proof.
  eexists. split; [vm_compute; reflexivity |].
  apply (Reverse_short_seed_adds_aliases (Sweeps := Z_sweeps) (sz 1) [10; 20]
           (start_state (engine_order2 [4; 4]) []) _ (sz 0) (sz 1) (sz 4) 10 20).
  - vm_compute. reflexivity.
  - reflexivity.
  - split; reflexivity.
  - reflexivity.
  - reflexivity.
  - intros i H0 H1. unfold vget.
    destruct (idx i) as [| [| n]] eqn:E.
    + exfalso. apply H0. apply idx_inj. rewrite E. reflexivity.
    + exfalso. apply H1. apply idx_inj. rewrite E. reflexivity.
    + simpl. destruct n; discriminate.
  - reflexivity.
  - reflexivity.
Defined.

Lemma Reverse_extraction_rule_witness :
  exists v s',
    Reverse (Sweeps := Z_sweeps) (sz 1) [1]
      (start_state (engine_mul_add [0; 0; 0; 0; 0]) []) = Ok v s' /\
    exists a x,
      vget (szs [1; 2]) (sz 1) = Some a /\
      entry v (1 * 1 + 0) = Some x /\
      (size [1] = size (szs [4]) ->
       entry (frame_Partial s') (uns a * 1 + (1 - 1 - 0)) = Some x) /\
      (size [1] <> size (szs [4]) ->
       entry (frame_Partial s') (uns a * 1 + 0) = Some x).
Proof.
  eexists. eexists. split; [vm_compute; reflexivity |].
  apply (Reverse_extraction_rule (Sweeps := Z_sweeps) (sz 1) [1]
           (start_state (engine_mul_add [0; 0; 0; 0; 0]) []) _ _ (sz 1) (sz 0)).
  - vm_compute. reflexivity.
  - reflexivity.
  - reflexivity.
Defined.

Lemma Reverse_short_form_is_long_form_reversed_witness :
  exists x,
    entry [5; 0; 3; 1] (0 * 2 + 1) = Some x /\
    entry [0; 5; 1; 3] (0 * 2 + (2 - 1 - 1)) = Some x.
Proof.
  destruct order2_short_run as (s1 & H1). destruct order2_long_run as (s2 & H2).
  apply (Reverse_short_form_is_long_form_reversed (Sweeps := Z_sweeps)
           (sz 2) [1] [0; 1] (start_state (engine_order2 [4]) [])
           [5; 0; 3; 1] s1 [0; 5; 1; 3] s2 (sz 0) (sz 1) H1 H2).
  - reflexivity.
  - apply sz_neq. vm_compute. discriminate.
  - repeat constructor. intros [].
  - exact Z_add_zero_l.
  - intros i k Hi Hk.
    apply word_below_1 in Hi. subst i.
    apply word_below_2 in Hk. destruct Hk as [-> | ->]; reflexivity.
  - reflexivity.
  - reflexivity.
Defined.

(** C1, as stated, fails when the marking leaves out the operation of the
    dependent variable itself: the propagation over the marked operations
    3, 2, 1 changes no row, so every row it wrote belongs to a marked
    operation, the buffer is all zero on entry, and on return the seed is
    still in row 4. *)
Lemma myReverse_seed_row_counterexample :
  all_zero (Partial (this (start_state (engine_marked [3; 2; 1] [0; 0; 0; 0; 0]) [0; 0]))) /\
  propagation_covered (Sweeps := Z_sweeps) call_dep0
    (start_state (engine_marked [3; 2; 1] [0; 0; 0; 0; 0]) [0; 0]) /\
  exists s',
    run_call (Sweeps := Z_sweeps) call_dep0
      (start_state (engine_marked [3; 2; 1] [0; 0; 0; 0; 0]) [0; 0]) = Ok tt s' /\
    Partial (this s') = [0; 0; 0; 0; 1] /\
    ~ all_zero (Partial (this s')).
Proof.
  split; [repeat constructor |]. split.
  - intros s1 s2 H1 H2 r. right.
    vm_compute in H1. injection H1 as <-.
    vm_compute in H2. injection H2 as <-. reflexivity.
  - eexists. split; [vm_compute; reflexivity |]. split; [reflexivity |].
    simpl. intros H. apply (proj1 (all_zero_nth _)) with (r := 4%nat) (x := 1) in H;
      [discriminate H | reflexivity].
Qed.

Lemma mul_add_marking_covers (v : list Z) :
  seed_covered (Sweeps := Z_sweeps) call_dep0
    (start_state (engine_mul_add [0; 0; 0; 0; 0]) v) /\
  propagation_covered (Sweeps := Z_sweeps) call_dep0
    (start_state (engine_mul_add [0; 0; 0; 0; 0]) v).
Proof.
  assert (Hrow : forall (F : ADFun (Base := Z)) k tp,
            op_mark_index_ F = szs [4; 3; 2; 1] ->
            In k [4; 3; 2; 1] ->
            vget (tp_ F) (sz k) = Some tp ->
            uns (NumRes (op tp)) = 1 -> uns (var_index tp) = k ->
            covered F (Z.to_nat k)).
  { intros F k tp Hm Hk Htp Hn Hv. exists (sz k). split.
    - rewrite Hm. apply in_map. exact Hk.
    - exists tp, (sz 0). repeat split; [exact Htp | rewrite Hn; reflexivity |].
      rewrite Hv, uns_zero. simpl in Hk. lia. }
  split.
  - intros s1 s2 a H1 H2 Ha.
    vm_compute in H1. injection H1 as <-.
    vm_compute in H2. injection H2 as <-.
    vm_compute in Ha. injection Ha as <-.
    eapply (Hrow _ 4); [reflexivity | simpl; tauto | reflexivity
                       | reflexivity | reflexivity].
  - intros s1 s2 H1 H2 r.
    vm_compute in H1. injection H1 as <-.
    vm_compute in H2. injection H2 as <-.
    destruct r as [| [| [| [| r]]]].
    + right. reflexivity.
    + left. eapply (Hrow _ 1); [reflexivity | simpl; tauto | reflexivity
                               | reflexivity | reflexivity].
    + left. eapply (Hrow _ 2); [reflexivity | simpl; tauto | reflexivity
                               | reflexivity | reflexivity].
    + left. eapply (Hrow _ 3); [reflexivity | simpl; tauto | reflexivity
                               | reflexivity | reflexivity].
    + right. reflexivity.
Qed.

Lemma mul_add_two_calls :
  covered_calls (Sweeps := Z_sweeps)
    (start_state (engine_mul_add [0; 0; 0; 0; 0]) [0; 0])
    [call_dep0; call_dep0]
    (start_state (engine_mul_add [0; 0; 0; 0; 0]) [5; 3]).
Proof.
  eapply covered_calls_cons
    with (s1 := start_state (engine_mul_add [0; 0; 0; 0; 0]) [5; 3]).
  - vm_compute. reflexivity.
  - apply mul_add_marking_covers.
  - apply mul_add_marking_covers.
  - reflexivity.
  - eapply covered_calls_cons.
    + vm_compute. reflexivity.
    + apply mul_add_marking_covers.
    + apply mul_add_marking_covers.
    + reflexivity.
    + apply covered_calls_nil.
Qed.

Lemma myReverse_keeps_member_buffer_zero_witness :
  all_zero (Partial (this (start_state (engine_mul_add [0; 0; 0; 0; 0]) [5; 3]))).
Proof.
  apply (myReverse_keeps_member_buffer_zero (Sweeps := Z_sweeps)
           (start_state (engine_mul_add [0; 0; 0; 0; 0]) [0; 0])
           [call_dep0; call_dep0]).
  - repeat constructor.
  - exact mul_add_two_calls.
Defined.

(** C2, as stated, fails when the member buffer is not zero on entry: with
    a 7 left in the row of [x0], the full sweep returns [5; 3] and the
    selective sweep writes [12; 3]. *)
Lemma myReverse_dirty_buffer_counterexample :
  exists s1 s2,
    Reverse (Sweeps := Z_sweeps) (sz 1) [1]
      (start_state (engine_mul_add [0; 7; 0; 0; 0]) [0; 0]) = Ok [5; 3] s1 /\
    myReverse (Sweeps := Z_sweeps) (sz 1) (sz 1) [1] (sz 0)
      (start_state (engine_mul_add [0; 7; 0; 0; 0]) [0; 0]) = Ok tt s2 /\
    In (sz 1) (op_inv_index_ (this s2)) /\
    vget (value s2) (sz 1 -w sz 1) = Some 12 /\
    vget [5; 3] (sz 1 -w sz 1) = Some 5.
Proof.
  eexists. eexists. split; [vm_compute; reflexivity |].
  split; [vm_compute; reflexivity |].
  split; [left; reflexivity |]. split; reflexivity.
Qed.

Lemma mul_add_full_run :
  exists s1,
    Reverse (Sweeps := Z_sweeps) (sz 1) [1]
      (start_state (engine_mul_add [0; 0; 0; 0; 0]) [0; 0]) = Ok [5; 3] s1.
Proof. eexists. vm_compute. reflexivity. Qed.

Lemma mul_add_selective_run :
  myReverse (Sweeps := Z_sweeps) (sz 1) (sz 1) [1] (sz 0)
    (start_state (engine_mul_add [0; 0; 0; 0; 0]) [0; 0]) =
  Ok tt (start_state (engine_mul_add [0; 0; 0; 0; 0]) [5; 3]).
Proof. vm_compute. reflexivity. Qed.

Lemma myReverse_agrees_with_Reverse_witness :
  exists x,
    vget [5; 3] (sz 2 -w sz 1) = Some x /\
    vget [5; 3] (sz 2 -w sz 1) = Some x.
Proof.
  destruct mul_add_full_run as (s1 & Hfull).
  apply (myReverse_agrees_with_Reverse Z_local_partial
           Z_add_zero_r Z_mul_zero_l Z_add_zero_l
           (fun _ i => 1000 + Z.of_nat i)
           (sz 1) [1] [1]
           (start_state (engine_mul_add [0; 0; 0; 0; 0]) [0; 0])
           [5; 3] s1
           (start_state (engine_mul_add [0; 0; 0; 0; 0]) [5; 3])
           (sz 0) (sz 4)).
  - repeat constructor.
  - reflexivity.
  - reflexivity.
  - reflexivity.
  - reflexivity.
  - vm_compute. reflexivity.
  - reflexivity.
  - intros i' Hi'. apply word_below_1 in Hi'. subst i'. reflexivity.
  - exact Hfull.
  - exact mul_add_selective_run.
  - right. left. reflexivity.
Defined.

(** * Further facts about the entry points *)

Section MoreEntryPoints.

Context {Base : Type} {BaseOps : Scalar Base} {Ops : OpLayer}
        {Sweeps : SweepLayer (Base:=Base)}.

Local Abbreviation St := (State (Base:=Base)).

Local Abbreviation RunB := (Run (Base:=Base)).

Implicit Types (s : St) (p m : size_t) (w : list Base).

(** ** Runs that do not look at the member buffer *)

Section Blind.

Variable b : list Base.

Lemma blind_ret {A} (a : A) : buffer_blind b (ret a).
Proof. intros s. reflexivity. Qed.

Lemma blind_bind {A B} (c : Run A) (f : A -> Run B) :
  buffer_blind b c -> (forall a, buffer_blind b (f a)) -> buffer_blind b (bind c f).
Proof.
  intros Hc Hf s. unfold bind. rewrite Hc.
  destruct (c s) as [a s1 | e s1]; simpl; [apply Hf | reflexivity].
Qed.

Lemma blind_member {A} (f : ADFun -> A) :
  (forall F, f (set_Partial b F) = f F) -> buffer_blind b (member f).
Proof. intros Hf s. unfold member. simpl. rewrite Hf. reflexivity. Qed.

Lemma blind_assert_known c msg : buffer_blind b (CPPAD_ASSERT_KNOWN c msg).
Proof. intros s. destruct c; reflexivity. Qed.

Lemma blind_assert_unknown c : buffer_blind b (CPPAD_ASSERT_UNKNOWN c).
Proof. intros s. destruct c; reflexivity. Qed.

Lemma blind_at {A} (v : list A) i : buffer_blind b (at_ v i).
Proof. intros s. unfold at_, of_option. destruct (vget v i); reflexivity. Qed.

Lemma blind_GetOp play i : buffer_blind b (GetOp play i).
Proof.
  unfold GetOp. apply blind_bind; [apply blind_at |]. intros tp. apply blind_ret.
Qed.

Lemma blind_frame_Partial_at i : buffer_blind b (frame_Partial_at i).
Proof.
  intros s. unfold frame_Partial_at, get_frame_Partial, bind, at_, of_option.
  simpl. destruct (vget (frame_Partial s) i); reflexivity.
Qed.

Lemma blind_frame_Partial_set i (x : Base) : buffer_blind b (frame_Partial_set i x).
Proof.
  intros s. unfold frame_Partial_set, get_frame_Partial, bind, of_option.
  simpl. destruct (vset (frame_Partial s) i x); reflexivity.
Qed.

Lemma blind_value_set i (x : Base) : buffer_blind b (value_set i x).
Proof.
  intros s. unfold value_set, get_value, bind, of_option.
  simpl. destruct (vset (value s) i x); reflexivity.
Qed.

Lemma blind_put_frame (P : list Base) : buffer_blind b (put_frame_Partial P).
Proof. intros s. reflexivity. Qed.

Lemma blind_put_value (v : list Base) : buffer_blind b (put_value v).
Proof. intros s. reflexivity. Qed.

Lemma blind_get_value : buffer_blind b get_value.
Proof. intros s. reflexivity. Qed.

Lemma blind_for_from (body : size_t -> Run unit) :
  (forall k, buffer_blind b (body k)) ->
  forall count start, buffer_blind b (for_from start count body).
Proof.
  intros Hb. induction count as [| c IH]; intros start; simpl.
  - apply blind_ret.
  - apply blind_bind; [apply Hb |]. intros _. apply IH.
Qed.

Lemma blind_for_lt m (body : size_t -> Run unit) :
  (forall k, buffer_blind b (body k)) -> buffer_blind b (for_lt m body).
Proof. intros Hb. apply blind_for_from. exact Hb. Qed.

Lemma blind_sweep p : buffer_blind b (Reverse_sweep p).
Proof. intros s. reflexivity. Qed.

End Blind.

Ltac blind :=
  repeat first
    [ apply blind_frame_Partial_set | apply blind_frame_Partial_at
    | apply blind_value_set | apply blind_put_frame | apply blind_put_value
    | apply blind_get_value | apply blind_assert_known
    | apply blind_assert_unknown | apply blind_at | apply blind_GetOp
    | apply blind_ret | apply blind_sweep
    | (apply blind_member; intros ?; reflexivity)
    | (apply blind_for_lt; intros ?)
    | (apply blind_bind; [| intros ?])
    | match goal with |- buffer_blind _ (if ?c then _ else _) => destruct c end ].

(** X1: [Reverse] does not look at the member buffer either: called on an
    engine whose member buffer holds anything at all, it returns the same
    vector, or fails with the same error, and leaves that buffer as it
    found it. *)
Theorem Reverse_ignores_member_buffer (b : list Base) p w s :
  Reverse p w (with_buffer b s) = map_state (with_buffer b) (Reverse p w s).
Proof.
  revert s. change (buffer_blind b (Reverse p w)).
  unfold Reverse, Reverse_seeded, Reverse_check, Reverse_zero, Reverse_seed,
    Reverse_seed_entry, Reverse_extract, Reverse_extract_row.
  blind.
Qed.

(** ** Which assertion fails *)

(** X2: The three known assertions of [Reverse] are checked in the order of
    the source: a weight vector of the wrong length is reported whatever
    [p] is, an order count of zero is reported next, and too few stored
    coefficients last. *)
Theorem Reverse_reports_first_failed_check p w s :
  let m := size (dep_taddr_ (this s)) in
  let w_ok := (size w ==w m) || (size w ==w m *w p) in
  w_ok = false \/ p = sz 0 \/ uns (taylor_per_var_ (this s)) < uns p ->
  exists s',
    Reverse p w s =
    Err (AssertKnown
           (if negb w_ok then msg_w_size
            else if p ==w sz 0 then msg_p_positive
            else msg_taylor)) s'.
Proof.
  intros m w_ok H. subst m w_ok.
  unfold Reverse, Reverse_seeded, Reverse_check, bind, member, put_frame_Partial,
    CPPAD_ASSERT_KNOWN, ret, raise; simpl.
  destruct ((size w ==w size (dep_taddr_ (this s))) ||
            (size w ==w size (dep_taddr_ (this s)) *w p)) eqn:E1; simpl;
    [| eexists; reflexivity].
  destruct (sz 0 <w p) eqn:E2; simpl.
  - apply ltu_lt in E2. rewrite uns_zero in E2.
    assert (Hp : (p ==w sz 0) = false).
    { apply eqb_neq. intros ->. rewrite uns_zero in E2. lia. }
    rewrite Hp.
    destruct (taylor_per_var_ (this s) <w p) eqn:E3; simpl;
      [eexists; reflexivity |].
    apply ltu_ge in E3. destruct H as [H | [-> | H]];
      [discriminate | rewrite uns_zero in E2; lia | lia].
  - apply ltu_ge in E2. rewrite uns_zero in E2.
    assert (Hp : (p ==w sz 0) = true).
    { apply eqb_eq. apply uns_inj. rewrite uns_zero.
      pose proof (uns_range p). lia. }
    rewrite Hp. eexists; reflexivity.
Qed.

(** ** Known assertions of [myReverse] *)

Lemma faults_only_ret {A} (a : A) : faults_only (ret a : RunB A).
Proof. intros s e s' H. discriminate. Qed.

Lemma faults_only_bind {A B} (c : RunB A) (f : A -> RunB B) :
  faults_only c -> (forall a, faults_only (f a)) -> faults_only (bind c f).
Proof.
  intros Hc Hf s e s' H. unfold bind in H.
  destruct (c s) as [a s1 | e1 s1] eqn:E.
  - eapply Hf. exact H.
  - injection H as <- <-. eapply Hc. exact E.
Qed.

Lemma faults_only_member {A} (f : ADFun (Base:=Base) -> A) : faults_only (member f).
Proof. intros s e s' H. discriminate. Qed.

Lemma faults_only_of_option {A} (o : option A) : faults_only (of_option o : RunB A).
Proof.
  intros s e s' H. destruct o; simpl in H; [discriminate |].
  unfold raise in H. congruence.
Qed.

Lemma faults_only_at {A} (v : list A) i : faults_only (at_ v i : RunB A).
Proof. apply faults_only_of_option. Qed.

Lemma faults_only_Partial_at i : faults_only (Partial_at i : RunB Base).
Proof.
  unfold Partial_at. apply faults_only_bind; [intros s e s' H; discriminate |].
  intros P. apply faults_only_at.
Qed.

Lemma faults_only_Partial_set i (x : Base) : faults_only (Partial_set i x).
Proof.
  unfold Partial_set. apply faults_only_bind; [intros s e s' H; discriminate |].
  intros P. apply faults_only_bind; [apply faults_only_of_option |].
  intros P' s e s' H. discriminate.
Qed.

Lemma faults_only_value_set i (x : Base) : faults_only (value_set i x).
Proof.
  unfold value_set. apply faults_only_bind; [intros s e s' H; discriminate |].
  intros P. apply faults_only_bind; [apply faults_only_of_option |].
  intros P' s e s' H. discriminate.
Qed.

Lemma faults_only_for_from (body : size_t -> RunB unit) :
  (forall k, faults_only (body k)) ->
  forall count start, faults_only (for_from start count body).
Proof.
  intros Hb. induction count as [| c IH]; intros start; simpl.
  - apply faults_only_ret.
  - apply faults_only_bind; [apply Hb |]. intros _. apply IH.
Qed.

Lemma faults_only_for_lt m (body : size_t -> RunB unit) :
  (forall k, faults_only (body k)) -> faults_only (for_lt m body).
Proof. intros Hb. apply faults_only_for_from. exact Hb. Qed.

Lemma faults_only_for_each (body : size_t -> RunB unit) v :
  (forall k, faults_only (body k)) -> faults_only (for_each v body).
Proof.
  intros Hb. induction v as [| x t IH]; simpl.
  - apply faults_only_ret.
  - apply faults_only_bind; [apply Hb |]. intros _. exact IH.
Qed.

Ltac faults :=
  repeat first
    [ apply faults_only_Partial_set | apply faults_only_Partial_at
    | apply faults_only_value_set | apply faults_only_member
    | apply faults_only_at | apply faults_only_ret
    | (apply faults_only_for_lt; intros ?)
    | (apply faults_only_for_each; intros ?)
    | (apply faults_only_bind; [| intros ?]) ].

(** After its assertions, [myReverse] checks nothing more. *)
Lemma myReverse_body_faults_only p dep_var_index :
  faults_only (myReverse_seed p dep_var_index ;;
               myReverse_sweep p dep_var_index ;;
               myReverse_extract p ;;
               myReverse_clear p).
Proof.
  unfold myReverse_seed, myReverse_extract, myReverse_clear.
  faults. all: intros s e s' H; discriminate.
Qed.

Lemma word_mul_one (m : size_t) : m *w sz 1 = m.
Proof.
  apply uns_inj. rewrite uns_mul, uns_one, Z.mul_1_r.
  apply Z.mod_small. apply uns_range.
Qed.

(** X6: A known assertion of [myReverse] that fails leaves everything as it
    was, and it is one of three: the order count is not one; or the weight
    vector has not the length [m]; or no Taylor coefficient is stored.  The
    assertion [p > 0] never fails: it comes after [p == 1]. *)
Theorem myReverse_known_failures m p w dep_var_index s msg s' :
  myReverse m p w dep_var_index s = Err (AssertKnown msg) s' ->
  s' = s /\
  ((p <> sz 1 /\ msg = msg_first_order) \/
   (p = sz 1 /\ size w <> m /\ msg = msg_w_size) \/
   (p = sz 1 /\ size w = m /\ taylor_per_var_ (this s) = sz 0 /\
    msg = msg_taylor)).
Proof.
  intros H.
  assert (Hsplit :
    myReverse m p w dep_var_index s =
    (myReverse_check m p w ;;
     (myReverse_seed p dep_var_index ;;
      myReverse_sweep p dep_var_index ;;
      myReverse_extract p ;;
      myReverse_clear p)) s).
  { unfold myReverse, myReverse_seeded, bind.
    destruct (myReverse_check m p w s); reflexivity. }
  rewrite Hsplit in H. clear Hsplit. unfold bind at 1 in H.
  destruct (myReverse_check m p w s) as [u s1 | e s1] eqn:E.
  - apply myReverse_body_faults_only in H. discriminate.
  - injection H as -> ->.
    unfold myReverse_check, bind, CPPAD_ASSERT_KNOWN, member, ret, raise in E.
    destruct (p ==w sz 1) eqn:E1; simpl in E.
    + apply eqb_eq in E1. subst p. rewrite word_mul_one, orb_diag in E.
      destruct (size w ==w m) eqn:E2; simpl in E.
      * apply eqb_eq in E2.
        change (sz 0 <w sz 1) with true in E. simpl in E.
        destruct (taylor_per_var_ (this s) <w sz 1) eqn:E3; simpl in E;
          [| discriminate].
        injection E as <- <-. split; [reflexivity |].
        right. right. repeat split; try assumption; try reflexivity.
        apply ltu_lt in E3. rewrite uns_one in E3. apply uns_inj.
        rewrite uns_zero. pose proof (uns_range (taylor_per_var_ (this s))). lia.
      * injection E as <- <-. split; [reflexivity |].
        right. left. apply eqb_neq in E2. repeat split; assumption.
    + injection E as <- <-. split; [reflexivity |].
      left. apply eqb_neq in E1. split; [exact E1 | reflexivity].
Qed.

(** ** What a returning call of [myReverse] leaves behind *)

Lemma myReverse_phases m p w dep_var_index s s' :
  myReverse m p w dep_var_index s = Ok tt s' ->
  p = sz 1 /\
  exists s1 s2 s3,
    myReverse_seeded m p w dep_var_index s = Ok tt s1 /\
    myReverse_sweep p dep_var_index s1 = Ok tt s2 /\
    myReverse_extract p s2 = Ok tt s3 /\
    myReverse_clear p s3 = Ok tt s'.
Proof.
  intros H. unfold myReverse in H.
  apply bind_ok in H. destruct H as ([] & s1 & H1 & H).
  apply bind_ok in H. destruct H as ([] & s2 & H2 & H).
  apply bind_ok in H. destruct H as ([] & s3 & H3 & H4).
  split; [eapply myReverse_seeded_p; exact H1 |].
  exists s1, s2, s3. repeat split; assumption.
Qed.

(** X9: The clean-up of [myReverse], whatever the marking is worth: after a
    returning call, every result row of every marked operation holds zero
    in the member buffer. *)
Theorem myReverse_clears_marked_rows m p w dep_var_index s s' (r : nat) :
  myReverse m p w dep_var_index s = Ok tt s' ->
  covered (this s') r ->
  nth_error (Partial (this s')) r = Some zero.
Proof.
  intros H Hcov.
  destruct (myReverse_phases _ _ _ _ _ _ H) as (-> & s1 & s2 & s3 & _ & _ & _ & H4).
  destruct (myReverse_clear_ok _ _ H4) as ((Htp & Hmark & _) & Hzero).
  apply Hzero.
  destruct Hcov as (it & Hin & tp & i & Hget & Hi & Hr).
  exists it. split; [rewrite <- Hmark; exact Hin |].
  exists tp, i. rewrite <- Htp. repeat split; assumption.
Qed.

(** X8: The extraction of [myReverse]: for every entry [it] of the
    inverse-index list, [value[it - 1]] is after the call the entry that the
    sweep left in the member buffer at the address of the independent
    variable [it - 1]. *)
Theorem myReverse_extraction_rule m p w dep_var_index s s' :
  myReverse m p w dep_var_index s = Ok tt s' ->
  exists s1 s2,
    myReverse_seeded m p w dep_var_index s = Ok tt s1 /\
    myReverse_sweep p dep_var_index s1 = Ok tt s2 /\
    forall it, In it (op_inv_index_ (this s2)) ->
      exists a x,
        vget (ind_taddr_ (this s2)) (it -w sz 1) = Some a /\
        vget (Partial (this s2)) a = Some x /\
        vget (value s') (it -w sz 1) = Some x.
Proof.
  intros H.
  destruct (myReverse_phases _ _ _ _ _ _ H)
    as (-> & s1 & s2 & s3 & H1 & H2 & H3 & H4).
  exists s1, s2. split; [exact H1 |]. split; [exact H2 |].
  intros it Hin.
  destruct (myReverse_extract_ok _ _ H3) as (_ & Hex).
  destruct (Hex it Hin) as (a & x & Ha & Hx & Hv).
  assert (Hidx : a *w sz 1 +w sz 1 -w sz 1 -w sz 0 = a).
  { apply uns_inj. rewrite uns_sub, uns_zero, Z.sub_0_r.
    rewrite word_row_one_last. apply Z.mod_small. apply uns_range. }
  rewrite Hidx in Hx.
  destruct (keeps_ok same_value (myReverse_clear (sz 1)) s3 tt s'
              (same_value_clear (sz 1)) H4) as (Hval & _).
  exists a, x. rewrite Hval. repeat split; assumption.
Qed.

(** ** The vector that [Reverse] returns *)

(** X3: A call of [Reverse] that returns hands back [n * p] entries, [n] the
    number of independent variables; that product does not wrap. *)
Theorem Reverse_result_length p w s v s' :
  Reverse p w s = Ok v s' ->
  Z.of_nat (length v) = uns (size (ind_taddr_ (this s))) * uns p /\
  uns (size (ind_taddr_ (this s))) * uns p < wordmax.
Proof.
  intros Hrun. unfold Reverse in Hrun.
  apply bind_ok in Hrun. destruct Hrun as ([] & s3 & Hseeded & Hrun).
  apply bind_ok in Hrun. destruct Hrun as ([] & s4 & Hsweep & Hex).
  destruct (Reverse_seeded_ok _ _ _ _ Hseeded) as (Ht3 & Hp & _).
  assert (Ht4 : this s4 = this s).
  { pose proof (same_engine_sweep p s3) as K. rewrite Hsweep in K.
    simpl in K. unfold same_engine in K. congruence. }
  unfold Reverse_extract in Hex.
  apply bind_ok in Hex. destruct Hex as (n & s0 & Hn & Hex).
  apply member_ok in Hn. destruct Hn as [-> ->].
  apply bind_ok in Hex. destruct Hex as (m & s0 & Hm & Hex).
  apply member_ok in Hm. destruct Hm as [-> ->].
  apply bind_ok in Hex. destruct Hex as ([] & s5 & Hput & Hex).
  injection Hput as <-.
  apply bind_ok in Hex. destruct Hex as ([] & s6 & Hloop & Hget).
  injection Hget as <- <-. rewrite Ht4 in *.
  set (n := size (ind_taddr_ (this s))) in *.
  apply (Reverse_extract_loop p w n _ (this s) (frame_Partial s4)) in Hloop;
    [| reflexivity | reflexivity
     | simpl; rewrite (proj2 (extend_nil_length "value" (n *w p)));
       apply uns_range ].
  simpl in Hloop. rewrite (proj2 (extend_nil_length "value" (n *w p))) in Hloop.
  destruct Hloop as (_ & _ & Hlen & Hc & _).
  pose proof (uns_range (n *w p)) as Hr.
  pose proof (uns_range n) as Hnr. pose proof (uns_range p) as Hpr.
  assert (Hprod : uns n * uns p < wordmax) by lia.
  split; [| exact Hprod].
  rewrite Hlen, uns_mul. apply Z.mod_small. nia.
Qed.

(** ** The buffer that [Reverse] hands to the sweep *)

Lemma seeded_position_row (short : bool) p d (r k : Z) :
  0 <= k < uns p -> 0 <= r ->
  seeded_position short p d (r * uns p + k) ->
  r = uns d /\ (short = true -> k = uns p - 1).
Proof.
  intros Hk Hr H. pose proof (uns_range d) as Hd. unfold seeded_position in H.
  destruct short.
  - assert (E : r * uns p + k = uns d * uns p + (uns p - 1)) by lia.
    apply row_col_unique in E; [| lia | lia]. destruct E as [-> ->].
    split; [reflexivity | intros _; reflexivity].
  - assert (r = uns d) by nia. split; [assumption | discriminate].
Qed.

(** X4: The seeding of [Reverse] writes into the rows of the dependent
    variables only, and with the short weight form only into their entries
    of order [p - 1]: every other entry of the buffer handed to the sweep is
    zero. *)
Theorem Reverse_seeds_dependent_rows_only p w s s' (r k : size_t) :
  Reverse_seeded p w s = Ok tt s' ->
  uns r < uns (total_num_var_ (this s)) ->
  uns k < uns p ->
  ~ In r (dep_taddr_ (this s)) \/
  (size w = size (dep_taddr_ (this s)) /\ uns k < uns p - 1) ->
  vget (frame_Partial s') (r *w p +w k) = Some zero.
Proof.
  intros Hrun Hr Hk Hfree. unfold Reverse_seeded in Hrun.
  apply bind_ok in Hrun. destruct Hrun as ([] & s1 & Hc & Hrun).
  apply bind_ok in Hrun. destruct Hrun as ([] & s2 & Hz & Hseed).
  destruct (Reverse_zeroed _ _ _ _ _ Hc Hz)
    as ((Hp & Hlen & Hnowrap & Hzero) & Ht2 & _ & _).
  rewrite Ht2 in Hlen, Hnowrap.
  unfold Reverse_seed in Hseed.
  apply bind_ok in Hseed. destruct Hseed as (m & s0 & Hm & Hseed).
  apply member_ok in Hm. destruct Hm as [-> ->]. rewrite Ht2 in Hseed.
  set (F := this s) in *. set (m := size (dep_taddr_ F)) in *.
  set (T := total_num_var_ F) in *. set (short := size w ==w m) in *.
  pose proof (uns_range p) as Hpr. pose proof (uns_range T) as HTr.
  pose (I := fun (st : St) =>
    this st = F /\
    Z.of_nat (length (frame_Partial st)) = uns T * uns p /\
    forall pos, 0 <= pos < uns T * uns p ->
      (forall d, In d (dep_taddr_ F) -> ~ seeded_position short p d pos) ->
      nth_error (frame_Partial st) (Z.to_nat pos) = Some zero).
  assert (Hend : I s').
  { apply (for_lt_inv (fun _ => I) m _ s2 s' Hseed).
    - unfold I. repeat split; try assumption.
      intros pos Hpos _. apply Hzero. lia.
    - intros i t1 t2 Hi (Ht1 & Hl1 & Hz1) Hentry.
      apply Reverse_seed_entry_ok in Hentry.
      destruct Hentry as (d & Hd & HdT & Hentry). rewrite Ht1 in Hd, HdT.
      fold T in HdT. fold short in Hentry.
      assert (Hin : In d (dep_taddr_ F)).
      { unfold vget in Hd. eapply nth_error_In. exact Hd. }
      pose proof (uns_range d) as Hdr.
      destruct short eqn:Es.
      + apply bind_ok in Hentry. destruct Hentry as (x & t0 & Hx & Hentry).
        apply frame_Partial_at_ok in Hx. destruct Hx as [_ ->].
        apply bind_ok in Hentry. destruct Hentry as (w_i & t0 & Hw & Hentry).
        apply at_ok in Hw. destruct Hw as [_ ->].
        apply frame_Partial_set_ok in Hentry. destruct Hentry as (P' & HP & ->).
        unfold I; simpl. repeat split; try assumption.
        * rewrite (vset_length _ _ _ _ HP). exact Hl1.
        * intros pos Hpos Hfree'.
          rewrite (vset_other_nat _ _ _ _ _ HP); [apply Hz1; assumption |].
          intros E. apply (Hfree' d Hin). unfold seeded_position.
          unfold idx in E. rewrite uns_row_last in E by nia. lia.
      + apply (for_lt_inv (fun _ => I) p _ t1 t2 Hentry).
        * unfold I. repeat split; assumption.
        * intros k' u1 u2 Hk' (Hu1 & Hlu & Hzu) Hstep.
          apply bind_ok in Hstep. destruct Hstep as (w_ik & u0 & Hw & Hstep).
          apply at_ok in Hw. destruct Hw as [_ ->].
          apply frame_Partial_set_ok in Hstep. destruct Hstep as (P' & HP & ->).
          unfold I; simpl. repeat split; try assumption.
          -- rewrite (vset_length _ _ _ _ HP). exact Hlu.
          -- intros pos Hpos Hfree'.
             rewrite (vset_other_nat _ _ _ _ _ HP); [apply Hzu; assumption |].
             intros E. apply (Hfree' d Hin). unfold seeded_position.
             unfold idx in E. rewrite uns_row in E by (rewrite uns_sz by lia; nia).
             rewrite uns_sz in E by lia. lia. }
  destruct Hend as (_ & _ & Hz').
  pose proof (uns_range r) as Hrr. pose proof (uns_range k) as Hkr.
  unfold vget, idx. rewrite uns_row by nia.
  apply Hz'; [nia |].
  intros d Hin Hpos.
  apply seeded_position_row in Hpos; [| lia | lia].
  destruct Hpos as (Erd & Hshort).
  destruct Hfree as [Hnot | (Hsz & Hklt)].
  - apply Hnot. replace r with d; [exact Hin |]. apply uns_inj. lia.
  - assert (Es : short = true) by (apply eqb_eq; exact Hsz).
    specialize (Hshort Es). lia.
Qed.

(** ** What a returning call of [Reverse] has checked *)

Lemma same_engine_extract_row p w m j :
  keeps same_engine (Reverse_extract_row p w m j).
Proof.
  unfold Reverse_extract_row.
  repeat first
    [ apply same_engine_value_set
    | apply (keeps_member same_engine same_engine_refl)
    | apply (keeps_assert_unknown same_engine same_engine_refl)
    | apply (keeps_at same_engine same_engine_refl)
    | apply (keeps_GetOp same_engine same_engine_refl same_engine_trans)
    | apply (keeps_frame_Partial_at same_engine same_engine_refl same_engine_trans)
    | (apply (keeps_for_lt same_engine same_engine_refl same_engine_trans); intros ? _)
    | (apply (keeps_bind same_engine same_engine_trans); [| intros ?])
    | match goal with |- keeps _ (if ?c then _ else _) => destruct c end ].
Qed.

Lemma Reverse_extract_row_checked p w m j s1 s2 :
  Reverse_extract_row p w m j s1 = Ok tt s2 ->
  exists a tp,
    vget (ind_taddr_ (this s1)) j = Some a /\
    uns a < uns (total_num_var_ (this s1)) /\
    vget (play_ (this s1)) a = Some tp /\
    OpCode_eqb (op tp) InvOp = true.
Proof.
  unfold Reverse_extract_row. intros H.
  apply bind_ok in H. destruct H as (ind & s0 & Hi & H).
  apply member_ok in Hi. destruct Hi as [-> ->].
  apply bind_ok in H. destruct H as (T & s0 & HT & H).
  apply member_ok in HT. destruct HT as [-> ->].
  apply bind_ok in H. destruct H as (a & s0 & Ha & H).
  apply at_ok in Ha. destruct Ha as [Ha ->].
  apply bind_ok in H. destruct H as ([] & s0 & HaT & H).
  apply assert_unknown_ok in HaT. destruct HaT as [HaT ->].
  apply bind_ok in H. destruct H as (play & s0 & Hpl & H).
  apply member_ok in Hpl. destruct Hpl as [-> ->].
  apply bind_ok in H. destruct H as (o & s0 & Ho & H).
  apply GetOp_ok in Ho. destruct Ho as (tp & Htp & -> & ->).
  apply bind_ok in H. destruct H as ([] & s0 & Hinv & H).
  apply assert_unknown_ok in Hinv. destruct Hinv as [Hinv ->].
  apply ltu_lt in HaT. exists a, tp. repeat split; assumption.
Qed.

(** X5: A call of [Reverse] returns only if the addresses of the engine are
    what the unknown assertions expect: every dependent and every
    independent variable has an address below [total_num_var_], and the
    operation recorded at the address of an independent variable is
    [InvOp]. *)
Theorem Reverse_returns_on_checked_addresses p w s v s' :
  Reverse p w s = Ok v s' ->
  (forall i, uns i < uns (size (dep_taddr_ (this s))) ->
     exists d, vget (dep_taddr_ (this s)) i = Some d /\
               uns d < uns (total_num_var_ (this s))) /\
  (forall j, uns j < uns (size (ind_taddr_ (this s))) ->
     exists a tp,
       vget (ind_taddr_ (this s)) j = Some a /\
       uns a < uns (total_num_var_ (this s)) /\
       vget (play_ (this s)) a = Some tp /\
       OpCode_eqb (op tp) InvOp = true).
Proof.
  intros Hrun. unfold Reverse in Hrun.
  apply bind_ok in Hrun. destruct Hrun as ([] & s3 & Hseeded & Hrun).
  apply bind_ok in Hrun. destruct Hrun as ([] & s4 & Hsweep & Hex).
  destruct (Reverse_seeded_ok _ _ _ _ Hseeded) as (Ht3 & _ & _).
  assert (Ht4 : this s4 = this s).
  { pose proof (same_engine_sweep p s3) as K. rewrite Hsweep in K.
    simpl in K. unfold same_engine in K. congruence. }
  split.
  - intros i Hi. unfold Reverse_seeded in Hseeded.
    apply bind_ok in Hseeded. destruct Hseeded as ([] & s1 & Hc & Hseeded).
    apply bind_ok in Hseeded. destruct Hseeded as ([] & s2 & Hz & Hseed).
    destruct (Reverse_zeroed _ _ _ _ _ Hc Hz) as (_ & Ht2 & _ & _).
    unfold Reverse_seed in Hseed.
    apply bind_ok in Hseed. destruct Hseed as (m & s0 & Hm & Hseed).
    apply member_ok in Hm. destruct Hm as [-> ->]. rewrite Ht2 in Hseed.
    pose proof (uns_range i) as Hir.
    destruct (for_lt_body_ok (fun st => this st = this s) _ _ s2 s3
                (fun k t1 t2 Hk Hb =>
                   eq_trans (Reverse_seed_entry_engine _ _ _ _ _ _ Hb) Hk)
                Hseed Ht2 (uns i) ltac:(lia)) as (t1 & t2 & Ht1 & Hbody).
    rewrite sz_uns in Hbody.
    apply Reverse_seed_entry_ok in Hbody. destruct Hbody as (d & Hd & HdT & _).
    rewrite Ht1 in Hd, HdT. exists d. split; assumption.
  - intros j Hj. unfold Reverse_extract in Hex.
    apply bind_ok in Hex. destruct Hex as (n & s0 & Hn & Hex).
    apply member_ok in Hn. destruct Hn as [-> ->].
    apply bind_ok in Hex. destruct Hex as (m & s0 & Hm & Hex).
    apply member_ok in Hm. destruct Hm as [-> ->].
    apply bind_ok in Hex. destruct Hex as ([] & s5 & Hput & Hex).
    injection Hput as <-.
    apply bind_ok in Hex. destruct Hex as ([] & s6 & Hloop & _).
    rewrite Ht4 in Hloop. pose proof (uns_range j) as Hjr.
    assert (Hkeep : forall k t1 t2,
              this t1 = this s ->
              Reverse_extract_row p w (size (dep_taddr_ (this s))) k t1 = Ok tt t2 ->
              this t2 = this s).
    { intros k t1 t2 Hk Hb.
      pose proof (same_engine_extract_row p w (size (dep_taddr_ (this s))) k t1)
        as K.
      rewrite Hb in K. simpl in K. unfold same_engine in K. congruence. }
    destruct (for_lt_body_ok (fun st => this st = this s) _ _ _ s6 Hkeep Hloop
                eq_refl (uns j) ltac:(lia)) as (t1 & t2 & Ht1 & Hbody).
    rewrite sz_uns in Hbody.
    apply Reverse_extract_row_checked in Hbody.
    rewrite Ht1 in Hbody. exact Hbody.
Qed.

(** ** The weights of [myReverse] *)

(** X7: [myReverse] looks at the length of [w] and at nothing else of it: the
    seed is the constant one (line 285), so two weight vectors of the same
    length give the same run. *)
Theorem myReverse_ignores_weights m p w w' dep_var_index s :
  size w = size w' ->
  myReverse m p w dep_var_index s = myReverse m p w' dep_var_index s.
Proof.
  intros H.
  assert (Hcheck : myReverse_check m p w s = myReverse_check m p w' s).
  { unfold myReverse_check. rewrite H. reflexivity. }
  unfold myReverse, myReverse_seeded, bind. rewrite Hcheck. reflexivity.
Qed.

End MoreEntryPoints.

(** ** Runs of the further statements *)

Lemma Reverse_reports_first_failed_check_witness :
  exists s',
    Reverse (Sweeps := Z_sweeps) (sz 0) [1; 2; 3]
      (start_state (engine_mul_add [0; 0; 0; 0; 0]) []) =
    Err (AssertKnown msg_w_size) s'.
Proof.
  apply (Reverse_reports_first_failed_check (Sweeps := Z_sweeps) (sz 0) [1; 2; 3]
           (start_state (engine_mul_add [0; 0; 0; 0; 0]) [])).
  left. reflexivity.
Defined.

Lemma myReverse_known_failures_witness :
  start_state (engine_mul_add [0; 0; 0; 0; 0]) [0; 0] =
  start_state (engine_mul_add [0; 0; 0; 0; 0]) [0; 0] /\
  ((sz 1 <> sz 1 /\ msg_w_size = msg_first_order) \/
   (sz 1 = sz 1 /\ size ([] : list Z) <> sz 1 /\ msg_w_size = msg_w_size) \/
   (sz 1 = sz 1 /\ size ([] : list Z) = sz 1 /\
    taylor_per_var_ (this (start_state (engine_mul_add [0; 0; 0; 0; 0]) [0; 0]))
    = sz 0 /\
    msg_w_size = msg_taylor)).
Proof.
  apply (myReverse_known_failures (Sweeps := Z_sweeps) (sz 1) (sz 1) [] (sz 0)
           (start_state (engine_mul_add [0; 0; 0; 0; 0]) [0; 0])).
  vm_compute. reflexivity.
Defined.

Lemma mul_add_dirty_run :
  myReverse (Sweeps := Z_sweeps) (sz 1) (sz 1) [1] (sz 0)
    (start_state (engine_mul_add [0; 7; 0; 0; 0]) [0; 0]) =
  Ok tt (start_state (engine_mul_add [0; 0; 0; 0; 0]) [12; 3]).
Proof. vm_compute. reflexivity. Qed.

Lemma myReverse_clears_marked_rows_witness :
  nth_error
    (Partial (this (start_state (engine_mul_add [0; 0; 0; 0; 0]) [12; 3]))) 1 =
  Some zero.
Proof.
  apply (myReverse_clears_marked_rows (Sweeps := Z_sweeps) (sz 1) (sz 1) [1] (sz 0)
           (start_state (engine_mul_add [0; 7; 0; 0; 0]) [0; 0])
           (start_state (engine_mul_add [0; 0; 0; 0; 0]) [12; 3]) 1).
  - exact mul_add_dirty_run.
  - exists (sz 1). split; [simpl; tauto |].
    exists (mk_tape_point (Ops := tape_ops) Tape.InvOp [] (sz 1)), (sz 0).
    repeat split; reflexivity.
Defined.

Lemma myReverse_extraction_rule_witness :
  exists s1 s2,
    myReverse_seeded (sz 1) (sz 1) [1] (sz 0)
      (start_state (engine_mul_add [0; 0; 0; 0; 0]) [0; 0]) = Ok tt s1 /\
    myReverse_sweep (Sweeps := Z_sweeps) (sz 1) (sz 0) s1 = Ok tt s2 /\
    forall it, In it (op_inv_index_ (this s2)) ->
      exists a x,
        vget (ind_taddr_ (this s2)) (it -w sz 1) = Some a /\
        vget (Partial (this s2)) a = Some x /\
        vget (value (start_state (engine_mul_add [0; 0; 0; 0; 0]) [5; 3]))
          (it -w sz 1) = Some x.
Proof.
  exact (myReverse_extraction_rule (Sweeps := Z_sweeps) (sz 1) (sz 1) [1] (sz 0)
           (start_state (engine_mul_add [0; 0; 0; 0; 0]) [0; 0])
           (start_state (engine_mul_add [0; 0; 0; 0; 0]) [5; 3])
           mul_add_selective_run).
Defined.

Lemma Reverse_result_length_witness :
  Z.of_nat (length [5; 3]) =
  uns (size (ind_taddr_
               (this (start_state (engine_mul_add [0; 0; 0; 0; 0]) [0; 0])))) *
  uns (sz 1) /\
  uns (size (ind_taddr_
               (this (start_state (engine_mul_add [0; 0; 0; 0; 0]) [0; 0])))) *
  uns (sz 1) < wordmax.
Proof.
  destruct mul_add_full_run as (s1 & Hfull).
  exact (Reverse_result_length (Sweeps := Z_sweeps) (sz 1) [1]
           (start_state (engine_mul_add [0; 0; 0; 0; 0]) [0; 0]) [5; 3] s1 Hfull).
Defined.

Lemma Reverse_seeds_dependent_rows_only_witness :
  exists s',
    Reverse_seeded (Sweeps := Z_sweeps) (sz 2) [1]
      (start_state (engine_order2 [4]) []) = Ok tt s' /\
    vget (frame_Partial s') (sz 4 *w sz 2 +w sz 0) = Some zero.
Proof.
  eexists. split; [vm_compute; reflexivity |].
  apply (Reverse_seeds_dependent_rows_only (Sweeps := Z_sweeps) (sz 2) [1]
           (start_state (engine_order2 [4]) []) _ (sz 4) (sz 0)).
  - vm_compute. reflexivity.
  - reflexivity.
  - reflexivity.
  - right. split; reflexivity.
Defined.

Lemma Reverse_returns_on_checked_addresses_witness :
  (forall i, uns i < uns (size (szs [4])) ->
     exists d, vget (szs [4]) i = Some d /\ uns d < uns (sz 5)) /\
  (forall j, uns j < uns (size (szs [1; 2])) ->
     exists a tp,
       vget (szs [1; 2]) j = Some a /\
       uns a < uns (sz 5) /\
       vget tape_mul_add a = Some tp /\
       OpCode_eqb (op tp) InvOp = true).
Proof.
  destruct mul_add_full_run as (s1 & Hfull).
  exact (Reverse_returns_on_checked_addresses (Sweeps := Z_sweeps) (sz 1) [1]
           (start_state (engine_mul_add [0; 0; 0; 0; 0]) [0; 0]) [5; 3] s1 Hfull).
Defined.

Lemma myReverse_ignores_weights_witness :
  myReverse (Sweeps := Z_sweeps) (sz 1) (sz 1) [1] (sz 0)
    (start_state (engine_mul_add [0; 0; 0; 0; 0]) [0; 0]) =
  myReverse (Sweeps := Z_sweeps) (sz 1) (sz 1) [40] (sz 0)
    (start_state (engine_mul_add [0; 0; 0; 0; 0]) [0; 0]).
Proof.
  apply (myReverse_ignores_weights (Sweeps := Z_sweeps)). reflexivity.
Defined.

(** * Facts about the radix sort *)

(** ** Loops that return *)

Section LoopFacts.

Context {A : Type}.

Lemma loop_from_total (Inv : Z -> A -> Prop) (body : size_t -> A -> option A) :
  forall count start a,
    Inv start a ->
    (forall k a1, start <= k < start + Z.of_nat count -> Inv k a1 ->
       exists a2, body (sz k) a1 = Some a2 /\ Inv (k + 1) a2) ->
    exists a', loop_from start count body a = Some a' /\
               Inv (start + Z.of_nat count) a'.
Proof.
  induction count as [| c IH]; intros start a H0 Hstep.
  - exists a. split; [reflexivity |].
    replace (start + Z.of_nat 0) with start by lia. exact H0.
  - destruct (Hstep start a ltac:(lia) H0) as (a1 & Hb & H1).
    destruct (IH (start + 1) a1 H1) as (a' & Hl & H').
    { intros k a2 Hk. apply Hstep. lia. }
    exists a'. split.
    + simpl. rewrite Hb. exact Hl.
    + replace (start + Z.of_nat (S c)) with (start + 1 + Z.of_nat c) by lia.
      exact H'.
Qed.

Lemma loop_lt_total (Inv : Z -> A -> Prop) (m : size_t)
  (body : size_t -> A -> option A) a :
  Inv 0 a ->
  (forall k a1, 0 <= k < uns m -> Inv k a1 ->
     exists a2, body (sz k) a1 = Some a2 /\ Inv (k + 1) a2) ->
  exists a', loop_lt m body a = Some a' /\ Inv (uns m) a'.
Proof.
  intros H0 Hstep. pose proof (uns_range m) as Hm.
  destruct (loop_from_total Inv body (idx m) 0 a H0) as (a' & Hl & H').
  - intros k a1 Hk. apply Hstep. unfold idx in Hk. lia.
  - exists a'. split; [exact Hl |].
    replace (uns m) with (0 + Z.of_nat (idx m)) by (unfold idx; lia). exact H'.
Qed.

Lemma loop_by_total (Inv : nat -> A -> Prop) (step : Z)
  (body : Z -> A -> option A) :
  forall count i a,
    Inv i a ->
    (forall i' a1, (i <= i' < i + count)%nat -> Inv i' a1 ->
       exists a2, body (step * Z.of_nat i') a1 = Some a2 /\ Inv (S i') a2) ->
    exists a', loop_by step (step * Z.of_nat i) count body a = Some a' /\
               Inv (i + count)%nat a'.
Proof.
  induction count as [| c IH]; intros i a H0 Hstep.
  - exists a. split; [reflexivity |]. rewrite Nat.add_0_r. exact H0.
  - destruct (Hstep i a ltac:(lia) H0) as (a1 & Hb & H1).
    destruct (IH (S i) a1 H1) as (a' & Hl & H').
    { intros i' a2 Hi'. apply Hstep. lia. }
    exists a'. split.
    + simpl. rewrite Hb. simpl.
      replace (step * Z.of_nat i + step) with (step * Z.of_nat (S i)) by lia.
      exact Hl.
    + replace (i + S c)%nat with (S i + c)%nat by lia. exact H'.
Qed.

End LoopFacts.

(** ** Words, positions and vectors *)

Lemma idx_sz (z : Z) : 0 <= z < wordmax -> idx (sz z) = Z.to_nat z.
Proof. intros H. unfold idx. rewrite uns_sz by exact H. reflexivity. Qed.

Lemma idx_sz_nat (q : nat) : Z.of_nat q < wordmax -> idx (sz (Z.of_nat q)) = q.
Proof. intros H. rewrite idx_sz by lia. apply Nat2Z.id. Qed.

Lemma sz_add (a b : Z) : sz a +w sz b = sz (a + b).
Proof.
  apply uns_inj. rewrite uns_add. unfold uns, sz.
  rewrite !word.unsigned_of_Z. unfold word.wrap.
  change (2 ^ 64) with wordmax. rewrite <- Zplus_mod. reflexivity.
Qed.

Lemma sz_sub_one (k : Z) : sz k -w sz 1 = sz (k - 1).
Proof.
  apply uns_inj. rewrite uns_sub. unfold uns, sz.
  rewrite !word.unsigned_of_Z. unfold word.wrap.
  change (2 ^ 64) with wordmax. rewrite <- Zminus_mod. reflexivity.
Qed.

Lemma idx_size {A} (v : list A) :
  Z.of_nat (length v) < wordmax -> idx (size v) = length v.
Proof. intros H. unfold size. apply idx_sz_nat. exact H. Qed.

Lemma uns_size {A} (v : list A) :
  Z.of_nat (length v) < wordmax -> uns (size v) = Z.of_nat (length v).
Proof. intros H. unfold size. apply uns_sz. lia. Qed.

Lemma upd_some {A} (v : list A) (n : nat) (a : A) :
  (n < length v)%nat -> exists v', upd v n a = Some v'.
Proof.
  revert n. induction v as [| h t IH]; intros [| n] H; simpl in *; try lia.
  - eexists. reflexivity.
  - destruct (IH n ltac:(lia)) as (t' & ->). eexists. reflexivity.
Qed.

Lemma vget_nat {A} (v : list A) (q : nat) :
  Z.of_nat q < wordmax -> vget v (sz (Z.of_nat q)) = nth_error v q.
Proof. intros H. unfold vget. rewrite idx_sz_nat by exact H. reflexivity. Qed.

Lemma firstn_snoc {A} (l : list A) (i : nat) (a : A) :
  nth_error l i = Some a -> firstn (S i) l = firstn i l ++ [a].
Proof.
  revert i. induction l as [| h t IH]; intros [| i] H; simpl in *;
    try discriminate.
  - injection H as ->. reflexivity.
  - f_equal. apply IH. exact H.
Qed.

Lemma fill_length {A} (v : list A) (a : A) : length (fill v a) = length v.
Proof. apply length_map. Qed.

Lemma fill_nth {A} (v : list A) (a : A) (q : nat) :
  (q < length v)%nat -> nth_error (fill v a) q = Some a.
Proof.
  intros H. unfold fill. rewrite nth_error_map.
  destruct (nth_error v q) eqn:E; [reflexivity |].
  apply nth_error_None in E. lia.
Qed.

(** ** Buckets *)

Section BucketFacts.

Context {A : Type}.
Variable d : A -> nat.

Lemma bucket_cons (b : nat) (a : A) (l : list A) :
  bucket d b (a :: l) = if Nat.eqb (d a) b then a :: bucket d b l else bucket d b l.
Proof. reflexivity. Qed.

Lemma bucket_app (b : nat) (l l' : list A) :
  bucket d b (l ++ l') = bucket d b l ++ bucket d b l'.
Proof. apply filter_app. Qed.

Lemma buckets_S (nb : nat) (l : list A) :
  buckets d (S nb) l = buckets d nb l ++ bucket d nb l.
Proof.
  unfold buckets. rewrite seq_S, flat_map_app. simpl. rewrite app_nil_r.
  reflexivity.
Qed.

Lemma In_bucket (b : nat) (l : list A) (a : A) :
  In a (bucket d b l) <-> In a l /\ d a = b.
Proof.
  unfold bucket. rewrite filter_In, Nat.eqb_eq. reflexivity.
Qed.

Lemma In_buckets (nb : nat) (l : list A) (a : A) :
  In a (buckets d nb l) <-> In a l /\ (d a < nb)%nat.
Proof.
  unfold buckets. rewrite in_flat_map. split.
  - intros (b & Hb & Ha). apply in_seq in Hb. apply In_bucket in Ha.
    destruct Ha as [Ha <-]. split; [exact Ha | lia].
  - intros (Ha & Hd). exists (d a). split; [apply in_seq; lia |].
    apply In_bucket. split; [exact Ha | reflexivity].
Qed.

Lemma buckets_mono (b nb : nat) (l : list A) :
  (b <= nb)%nat -> (length (buckets d b l) <= length (buckets d nb l))%nat.
Proof.
  induction 1 as [| nb _ IH]; [lia |].
  rewrite buckets_S, length_app. lia.
Qed.

Lemma buckets_next (b : nat) (l : list A) :
  length (buckets d (S b) l) = (length (buckets d b l) + length (bucket d b l))%nat.
Proof. rewrite buckets_S, length_app. reflexivity. Qed.

Lemma buckets_cons_length (nb : nat) (a : A) (l : list A) :
  length (buckets d nb (a :: l)) =
  ((if Nat.ltb (d a) nb then 1 else 0) + length (buckets d nb l))%nat.
Proof.
  induction nb as [| nb IH]; [reflexivity |].
  rewrite !buckets_S, !length_app, IH, bucket_cons.
  destruct (Nat.eqb_spec (d a) nb) as [E | N];
    destruct (Nat.ltb_spec (d a) nb); destruct (Nat.ltb_spec (d a) (S nb));
    simpl; lia.
Qed.

Lemma buckets_length_le (nb : nat) (l : list A) :
  (length (buckets d nb l) <= length l)%nat.
Proof.
  induction l as [| a l IH].
  - unfold buckets. induction (seq 0 nb); simpl; [lia | assumption].
  - rewrite buckets_cons_length. simpl.
    destruct (Nat.ltb (d a) nb); lia.
Qed.

Lemma buckets_length (nb : nat) (l : list A) :
  (forall a, In a l -> (d a < nb)%nat) -> length (buckets d nb l) = length l.
Proof.
  induction l as [| a l IH]; intros H.
  - unfold buckets. induction (seq 0 nb); simpl; [reflexivity | assumption].
  - rewrite buckets_cons_length. simpl.
    destruct (Nat.ltb_spec (d a) nb) as [_ | Hge].
    + rewrite IH; [reflexivity |]. intros c Hc. apply H. right. exact Hc.
    + specialize (H a (or_introl eq_refl)). lia.
Qed.

Lemma bucket_prefix_length (b i : nat) (l : list A) :
  (length (bucket d b (firstn i l)) <= length (bucket d b l))%nat.
Proof.
  rewrite <- (firstn_skipn i l) at 2. rewrite bucket_app, length_app. lia.
Qed.

(** The element number [r] of the bucket [b] is where the buckets before
    it end, [r] places on. *)
Lemma nth_buckets (nb b r : nat) (l : list A) (a : A) :
  (b < nb)%nat ->
  nth_error (bucket d b l) r = Some a ->
  nth_error (buckets d nb l) (length (buckets d b l) + r) = Some a.
Proof.
  intros Hb Hr. induction nb as [| nb IH]; [lia |].
  rewrite buckets_S.
  assert (Hlt : (r < length (bucket d b l))%nat).
  { apply nth_error_Some. congruence. }
  destruct (Nat.eq_dec b nb) as [-> | Hne].
  - rewrite nth_error_app2 by lia.
    replace (length (buckets d nb l) + r - length (buckets d nb l))%nat with r
      by lia.
    exact Hr.
  - rewrite nth_error_app1.
    + apply IH. lia.
    + pose proof (buckets_mono (S b) nb l ltac:(lia)) as Hm.
      rewrite buckets_next in Hm. lia.
Qed.

Lemma buckets_decompose (nb p : nat) (l : list A) :
  (p < length (buckets d nb l))%nat ->
  exists b r, (b < nb)%nat /\ (r < length (bucket d b l))%nat /\
              p = (length (buckets d b l) + r)%nat.
Proof.
  induction nb as [| nb IH]; intros Hp.
  - unfold buckets in Hp. simpl in Hp. lia.
  - rewrite buckets_next in Hp.
    destruct (Nat.lt_ge_cases p (length (buckets d nb l))) as [Hlt | Hge].
    + destruct (IH Hlt) as (b & r & Hb & Hr & ->).
      exists b, r. repeat split; [lia | exact Hr].
    + exists nb, (p - length (buckets d nb l))%nat.
      repeat split; lia.
Qed.

Lemma buckets_cons_ge (nb : nat) (a : A) (l : list A) :
  (nb <= d a)%nat -> buckets d nb (a :: l) = buckets d nb l.
Proof.
  induction nb as [| nb IH]; intros H; [reflexivity |].
  rewrite !buckets_S, IH by lia. rewrite bucket_cons.
  destruct (Nat.eqb_spec (d a) nb); [lia | reflexivity].
Qed.

Lemma buckets_cons_perm (nb : nat) (a : A) (l : list A) :
  (d a < nb)%nat -> Permutation (buckets d nb (a :: l)) (a :: buckets d nb l).
Proof.
  induction nb as [| nb IH]; intros H; [lia |].
  rewrite !buckets_S, bucket_cons.
  destruct (Nat.eqb_spec (d a) nb) as [E | N].
  - rewrite buckets_cons_ge by lia. symmetry. apply Permutation_middle.
  - change (a :: buckets d nb l ++ bucket d nb l)
      with ((a :: buckets d nb l) ++ bucket d nb l).
    apply Permutation_app_tail. apply IH. lia.
Qed.

(** Sorting into buckets rearranges the elements. *)
Lemma buckets_perm (nb : nat) (l : list A) :
  (forall a, In a l -> (d a < nb)%nat) -> Permutation (buckets d nb l) l.
Proof.
  induction l as [| a l IH]; intros H.
  - replace (buckets d nb []) with (@nil A); [constructor |].
    unfold buckets. induction (seq 0 nb); simpl; [reflexivity | assumption].
  - rewrite buckets_cons_perm by (apply H; left; reflexivity).
    constructor. apply IH. intros c Hc. apply H. right. exact Hc.
Qed.

End BucketFacts.

(** ** Orders *)

Section Orders.

Context {A : Type}.

Lemma StronglySorted_app (R : A -> A -> Prop) (l1 l2 : list A) :
  StronglySorted R l1 -> StronglySorted R l2 ->
  (forall a b, In a l1 -> In b l2 -> R a b) ->
  StronglySorted R (l1 ++ l2).
Proof.
  intros H1 H2 H. induction H1 as [| a l1 H1 IH Ha]; simpl; [exact H2 |].
  constructor.
  - apply IH. intros c b Hc Hb. apply H; [right; exact Hc | exact Hb].
  - apply Forall_app. split; [exact Ha |].
    apply Forall_forall. intros b Hb. apply H; [left; reflexivity | exact Hb].
Qed.

Lemma StronglySorted_weaken (R R' : A -> A -> Prop) (l : list A) :
  StronglySorted R l ->
  (forall a b, In a l -> In b l -> R a b -> R' a b) ->
  StronglySorted R' l.
Proof.
  intros H. induction H as [| a l H IH Ha]; intros Hw; constructor.
  - apply IH. intros c b Hc Hb. apply Hw; right; assumption.
  - rewrite Forall_forall in *. intros b Hb.
    apply Hw; [left; reflexivity | right; exact Hb | apply Ha; exact Hb].
Qed.

Lemma StronglySorted_filter (R : A -> A -> Prop) (f : A -> bool) (l : list A) :
  StronglySorted R l -> StronglySorted R (filter f l).
Proof.
  intros H. induction H as [| a l H IH Ha]; simpl; [constructor |].
  destruct (f a); [| exact IH]. constructor; [exact IH |].
  rewrite Forall_forall in *. intros b Hb. apply Ha.
  apply filter_In in Hb. apply Hb.
Qed.

Lemma StronglySorted_nth (R : A -> A -> Prop) (l : list A) (i j : nat) (a b : A) :
  StronglySorted R l -> (i < j)%nat ->
  nth_error l i = Some a -> nth_error l j = Some b -> R a b.
Proof.
  intros H. revert i j. induction H as [| c l H IH Hc]; intros i j Hij Hi Hj.
  - destruct i; discriminate.
  - destruct j as [| j]; [lia |]. simpl in Hj. destruct i as [| i]; simpl in Hi.
    + injection Hi as ->. rewrite Forall_forall in Hc. apply Hc.
      eapply nth_error_In. exact Hj.
    + apply (IH i j); [lia | assumption | assumption].
Qed.

(** A pass turns a vector in the order [R] into one in the order [R'],
    when [R'] is the order of the keys, and [R] among equal keys. *)
Lemma StronglySorted_buckets (d : A -> nat) (R R' : A -> A -> Prop)
  (nb : nat) (l : list A) :
  (forall a b, In a l -> In b l -> d a = d b -> R a b -> R' a b) ->
  (forall a b, (d a < d b)%nat -> R' a b) ->
  StronglySorted R l -> StronglySorted R' (buckets d nb l).
Proof.
  intros Hsame Hlt H. induction nb as [| nb IH].
  - unfold buckets. simpl. constructor.
  - rewrite buckets_S. apply StronglySorted_app.
    + exact IH.
    + apply (StronglySorted_weaken R).
      * apply StronglySorted_filter. exact H.
      * intros a b Ha Hb. apply In_bucket in Ha. apply In_bucket in Hb.
        apply Hsame; [apply Ha | apply Hb |]. destruct Ha, Hb. congruence.
    + intros a b Ha Hb. apply In_buckets in Ha. apply In_bucket in Hb.
      apply Hlt. destruct Ha, Hb. lia.
Qed.

End Orders.

(** ** The moving loop, on lists *)

Section Filled.

Context {A B : Type}.
Variable d : A -> nat.
Variable g : A -> B.

Lemma filled_start (L : list A) (Y : list B) : filled d g L Y 0.
Proof. intros b r a H. simpl in H. destruct r; discriminate. Qed.

(** The place of the element number [i]: inside the vector. *)
Lemma slot_lt (L : list A) (i : nat) (a0 : A) :
  nth_error L i = Some a0 ->
  (length (buckets d (d a0) L) + length (bucket d (d a0) (firstn i L))
   < length L)%nat.
Proof.
  intros Hi.
  pose proof (bucket_prefix_length d (d a0) (S i) L) as Hp.
  rewrite (firstn_snoc L i a0 Hi), bucket_app, length_app in Hp.
  simpl in Hp. rewrite Nat.eqb_refl in Hp. simpl in Hp.
  pose proof (buckets_length_le d (S (d a0)) L) as Hle.
  rewrite buckets_next in Hle. lia.
Qed.

Lemma filled_step (L : list A) (Y Y' : list B) (i : nat) (a0 : A) :
  nth_error L i = Some a0 ->
  filled d g L Y i ->
  upd Y (length (buckets d (d a0) L) + length (bucket d (d a0) (firstn i L)))
    (g a0) = Some Y' ->
  filled d g L Y' (S i).
Proof.
  intros Hi HY Hupd b r a Hr.
  rewrite (firstn_snoc L i a0 Hi), bucket_app in Hr.
  pose proof (bucket_prefix_length d (d a0) (S i) L) as Hp0.
  rewrite (firstn_snoc L i a0 Hi), bucket_app, length_app in Hp0.
  simpl in Hp0. rewrite Nat.eqb_refl in Hp0. simpl in Hp0.
  simpl in Hr.
  destruct (Nat.eqb_spec (d a0) b) as [E | N].
  - subst b.
    destruct (Nat.lt_ge_cases r (length (bucket d (d a0) (firstn i L))))
      as [Hlt | Hge].
    + rewrite nth_error_app1 in Hr by exact Hlt.
      rewrite (upd_other _ _ _ _ _ Hupd) by lia. apply HY. exact Hr.
    + rewrite nth_error_app2 in Hr by exact Hge.
      destruct (r - length (bucket d (d a0) (firstn i L)))%nat as [| r'] eqn:Er;
        simpl in Hr; [| destruct r'; discriminate].
      injection Hr as <-.
      replace r with (length (bucket d (d a0) (firstn i L))) by lia.
      eapply upd_same. exact Hupd.
  - rewrite app_nil_r in Hr.
    assert (Hlt : (r < length (bucket d b (firstn i L)))%nat).
    { apply nth_error_Some. congruence. }
    pose proof (bucket_prefix_length d b i L) as Hp.
    rewrite (upd_other _ _ _ _ _ Hupd); [apply HY; exact Hr |].
    destruct (Nat.lt_ge_cases b (d a0)) as [Hb | Hb].
    + pose proof (buckets_mono d (S b) (d a0) L ltac:(lia)) as Hm.
      rewrite buckets_next in Hm. lia.
    + pose proof (buckets_mono d (S (d a0)) b L ltac:(lia)) as Hm.
      rewrite buckets_next in Hm. lia.
Qed.

Lemma filled_end (nb : nat) (L : list A) (Y : list B) :
  filled d g L Y (length L) ->
  length Y = length L ->
  (forall a, In a L -> (d a < nb)%nat) ->
  Y = map g (buckets d nb L).
Proof.
  intros HY Hlen Hd. unfold filled in HY. rewrite firstn_all in HY.
  pose proof (buckets_length d nb L Hd) as Hbl.
  apply list_ext. intros p.
  destruct (Nat.lt_ge_cases p (length L)) as [Hp | Hp].
  - rewrite <- Hbl in Hp.
    destruct (buckets_decompose d nb p L Hp) as (b & r & Hb & Hr & ->).
    destruct (nth_error (bucket d b L) r) as [a |] eqn:Ea;
      [| apply nth_error_None in Ea; lia].
    rewrite (HY b r a Ea).
    rewrite nth_error_map, (nth_buckets d nb b r L a Hb Ea). reflexivity.
  - transitivity (@None B).
    + apply nth_error_None. lia.
    + symmetry. apply nth_error_None. rewrite length_map. lia.
Qed.

End Filled.

Lemma Permutation_filter_length {A} (f : A -> bool) (l l' : list A) :
  Permutation l l' -> length (filter f l) = length (filter f l').
Proof.
  induction 1 as [| a l l' _ IH | a b l | l l' l'' _ IH1 _ IH2]; simpl.
  - reflexivity.
  - destruct (f a); simpl; congruence.
  - destruct (f a), (f b); reflexivity.
  - congruence.
Qed.

(** ** Keys *)

Lemma mask_ones : radix.mask = Z.ones 8.
Proof. reflexivity. Qed.

Lemma key_value (v k : Z) :
  0 <= k -> uns (radix.key v k) = (v / 2 ^ k) mod 2 ^ 8.
Proof.
  intros Hk. unfold radix.key. rewrite mask_ones, Z.land_ones by lia.
  rewrite Z.shiftr_div_pow2 by exact Hk.
  apply uns_sz. pose proof (Z.mod_pos_bound (v / 2 ^ k) (2 ^ 8) ltac:(lia)).
  unfold wordmax. lia.
Qed.

Lemma key_range (v k : Z) : 0 <= uns (radix.key v k) < 256.
Proof.
  unfold radix.key. rewrite mask_ones, Z.land_ones by lia.
  pose proof (Z.mod_pos_bound (Z.shiftr v k) (2 ^ 8) ltac:(lia)) as H.
  rewrite uns_sz by (unfold wordmax; lia). exact H.
Qed.

Lemma digit_lt (k : Z) (a : Z * nat) : (digit k a < 256)%nat.
Proof. unfold digit, idx. pose proof (key_range (fst a) k). lia. Qed.

Lemma key_idx (v k : Z) : radix.key v k = sz (Z.of_nat (idx (radix.key v k))).
Proof.
  unfold idx. pose proof (key_range v k). rewrite Z2Nat.id by lia.
  symmetry. apply sz_uns.
Qed.

Lemma low_bounds (j : nat) (v : Z) :
  0 <= low j v < 2 ^ (radix.radix_width * Z.of_nat j).
Proof.
  unfold low. apply Z.mod_pos_bound. apply Z.pow_pos_nonneg; [lia |].
  unfold radix.radix_width. lia.
Qed.

(** The bits seen after one more pass: the key of that pass on top of the
    bits seen before. *)
Lemma low_S (j : nat) (v : Z) :
  low (S j) v =
  low j v +
  2 ^ (radix.radix_width * Z.of_nat j) *
  uns (radix.key v (radix.radix_width * Z.of_nat j)).
Proof.
  unfold low, radix.radix_width.
  rewrite key_value by lia.
  replace (8 * Z.of_nat (S j)) with (8 * Z.of_nat j + 8) by lia.
  rewrite Z.pow_add_r by lia.
  apply Z.rem_mul_r; [| lia].
  apply Z.pow_nonzero; lia.
Qed.

Lemma before_S_same (j : nat) (a b : Z * nat) :
  digit (radix.radix_width * Z.of_nat j) a =
  digit (radix.radix_width * Z.of_nat j) b ->
  before j a b -> before (S j) a b.
Proof.
  unfold digit, idx, before. intros E H. rewrite !low_S.
  pose proof (key_range (fst a) (radix.radix_width * Z.of_nat j)).
  pose proof (key_range (fst b) (radix.radix_width * Z.of_nat j)).
  assert (E' : uns (radix.key (fst a) (radix.radix_width * Z.of_nat j)) =
               uns (radix.key (fst b) (radix.radix_width * Z.of_nat j))) by lia.
  rewrite E'. lia.
Qed.

Lemma before_S_lt (j : nat) (a b : Z * nat) :
  (digit (radix.radix_width * Z.of_nat j) a <
   digit (radix.radix_width * Z.of_nat j) b)%nat ->
  before (S j) a b.
Proof.
  unfold digit, idx, before. intros H. rewrite !low_S. left.
  pose proof (key_range (fst a) (radix.radix_width * Z.of_nat j)).
  pose proof (key_range (fst b) (radix.radix_width * Z.of_nat j)).
  pose proof (low_bounds j (fst a)). pose proof (low_bounds j (fst b)).
  nia.
Qed.

(** Elements that contain the common bits and are contained in the joint
    bits have the key of both, where those two have the same key. *)
Lemma key_between (mn mx v k : Z) :
  0 <= k ->
  Z.land mn v = mn -> Z.lor mx v = mx ->
  radix.key mn k = radix.key mx k ->
  radix.key v k = radix.key mn k.
Proof.
  intros Hk Hmn Hmx E.
  assert (E' : Z.land (Z.shiftr mn k) radix.mask =
               Z.land (Z.shiftr mx k) radix.mask).
  { apply (f_equal uns) in E. unfold radix.key in E.
    rewrite !uns_sz in E; [exact E | |].
    - rewrite mask_ones, Z.land_ones by lia.
      pose proof (Z.mod_pos_bound (Z.shiftr mx k) (2 ^ 8) ltac:(lia)).
      unfold wordmax. lia.
    - rewrite mask_ones, Z.land_ones by lia.
      pose proof (Z.mod_pos_bound (Z.shiftr mn k) (2 ^ 8) ltac:(lia)).
      unfold wordmax. lia. }
  unfold radix.key. f_equal. apply Z.bits_inj'. intros t Ht.
  apply (f_equal (fun z => Z.testbit z t)) in E'.
  rewrite !Z.land_spec, !Z.shiftr_spec in * by exact Ht.
  apply (f_equal (fun z => Z.testbit z (t + k))) in Hmn.
  apply (f_equal (fun z => Z.testbit z (t + k))) in Hmx.
  rewrite Z.land_spec in Hmn. rewrite Z.lor_spec in Hmx.
  destruct (Z.testbit radix.mask t); [| rewrite !andb_false_r; reflexivity].
  rewrite !andb_true_r in *.
  destruct (Z.testbit mn (t + k)), (Z.testbit mx (t + k)),
    (Z.testbit v (t + k)); simpl in *; congruence.
Qed.

(** ** Tagged vectors *)

Lemma combine_seq_fst {A} (l : list A) (s : nat) :
  map fst (combine l (seq s (length l))) = l.
Proof.
  revert s. induction l as [| a l IH]; intros s; simpl; [reflexivity |].
  rewrite IH. reflexivity.
Qed.

Lemma combine_seq_snd {A} (l : list A) (s : nat) :
  map snd (combine l (seq s (length l))) = seq s (length l).
Proof.
  revert s. induction l as [| a l IH]; intros s; simpl; [reflexivity |].
  rewrite IH. reflexivity.
Qed.

Lemma tagged_fst (x : list Z) : map fst (tagged x) = x.
Proof. apply combine_seq_fst. Qed.

Lemma tagged_snd (x : list Z) : map snd (tagged x) = seq 0 (length x).
Proof. apply combine_seq_snd. Qed.

Lemma tagged_length (x : list Z) : length (tagged x) = length x.
Proof. rewrite <- (length_map fst), tagged_fst. reflexivity. Qed.

Lemma In_tagged_from {A} (l : list A) (s : nat) (v : A) (q : nat) :
  In (v, q) (combine l (seq s (length l))) <->
  (s <= q)%nat /\ nth_error l (q - s) = Some v.
Proof.
  revert s. induction l as [| a l IH]; intros s; simpl.
  - split; [intros [] | intros [_ H]; destruct (q - s)%nat; discriminate].
  - rewrite IH. split.
    + intros [E | [Hs Hn]].
      * injection E as -> ->. rewrite Nat.sub_diag. split; [lia | reflexivity].
      * split; [lia |]. replace (q - s)%nat with (S (q - S s)) by lia.
        exact Hn.
    + intros [Hs Hn]. destruct (q - s)%nat as [| r] eqn:E.
      * left. injection Hn as ->. f_equal. lia.
      * right. split; [lia |]. replace (q - S s)%nat with r by lia. exact Hn.
Qed.

Lemma In_tagged (x : list Z) (v : Z) (q : nat) :
  In (v, q) (tagged x) <-> nth_error x q = Some v.
Proof.
  unfold tagged. rewrite In_tagged_from, Nat.sub_0_r. split.
  - intros [_ H]. exact H.
  - intros H. split; [lia | exact H].
Qed.

(** The input is in the order that no pass at all establishes. *)
Lemma tagged_sorted (x : list Z) : StronglySorted (before 0) (tagged x).
Proof.
  unfold tagged.
  assert (G : forall s, StronglySorted (before 0) (combine x (seq s (length x))));
    [| apply G].
  induction x as [| a x IH]; intros s; simpl; constructor.
  - apply IH.
  - apply Forall_forall. intros [v q] Hin.
    apply In_tagged_from in Hin. destruct Hin as [Hs _].
    right. simpl. split; [| lia].
    unfold low. rewrite Z.mul_0_r. simpl. rewrite !Z.mod_1_r. reflexivity.
Qed.

Lemma map_fst_bucket (k : Z) (b : nat) (L : list (Z * nat)) :
  map fst (bucket (digit k) b L) =
  filter (fun v => Nat.eqb (idx (radix.key v k)) b) (map fst L).
Proof. unfold bucket, digit. rewrite filter_map_swap. reflexivity. Qed.

(** ** The loops of [run_sort] *)

Lemma word_mul_zero (m : size_t) : m *w sz 0 = sz 0.
Proof.
  apply uns_inj. rewrite uns_mul, uns_zero, Z.mul_0_r. reflexivity.
Qed.

Lemma resize_length {A} (v : list A) (n : size_t) (a : A) :
  length (resize v n a) = idx n.
Proof.
  unfold resize. rewrite length_app, length_firstn, repeat_length. lia.
Qed.

Lemma num_passes_value (sizeof_T : nat) : radix.num_passes sizeof_T = sizeof_T.
Proof.
  unfold radix.num_passes, radix.total_width, radix.radix_width.
  replace (Z.of_nat sizeof_T * 8 + 8 - 1) with (Z.of_nat sizeof_T * 8 + 7) by lia.
  rewrite Z.div_add_l by lia. change (7 / 8) with 0. lia.
Qed.

Section RunSortFacts.

Variable sizeof_T : nat.

Context {I : Type} {index : IndexType I}.

Lemma iota_ok (v : list I) :
  Z.of_nat (length v) < wordmax ->
  radix.iota v = Some (map position (seq 0 (length v))).
Proof.
  intros Hlen.
  pose (Inv := fun (i : Z) (v' : list I) =>
    length v' = length v /\
    forall q, Z.of_nat q < i -> nth_error v' q = Some (position q)).
  destruct (loop_lt_total Inv (size v)
              (fun i v' => vset v' i (I_of_size_t i)) v)
    as (v' & Hrun & Hl & Hinv).
  - split; [reflexivity | intros q Hq; lia].
  - intros k v1 Hk [Hl1 H1]. rewrite uns_size in Hk by exact Hlen.
    destruct (upd_some v1 (Z.to_nat k) (I_of_size_t (sz k)) ltac:(lia))
      as (v2 & Hv2).
    exists v2. split; [unfold vset; rewrite idx_sz by lia; exact Hv2 |].
    split; [rewrite (upd_length _ _ _ _ Hv2); exact Hl1 |].
    intros q Hq. destruct (Z.eq_dec (Z.of_nat q) k) as [E | N].
    + subst k. rewrite Nat2Z.id in Hv2. apply (upd_same _ _ _ _ Hv2).
    + rewrite (upd_other _ _ _ _ q Hv2) by lia. apply H1. lia.
  - unfold radix.iota. rewrite Hrun. f_equal. apply list_ext. intros q.
    rewrite nth_error_map, nth_error_seq. rewrite uns_size in Hinv by exact Hlen.
    destruct (Nat.ltb_spec q (length v)) as [Hq | Hq]; simpl.
    + apply Hinv. lia.
    + apply nth_error_None. lia.
Qed.


(** The input vector; its length is a [size_t]. *)
Variable xs : list Z.
Hypothesis xs_length : Z.of_nat (length xs) < wordmax.

Lemma min_max_ok :
  exists mn mx,
    radix.min_max sizeof_T xs = Some (mn, mx) /\
    forall v, In v xs -> Z.land mn v = mn /\ Z.lor mx v = mx.
Proof.
  pose (Inv := fun (i : Z) (mm : Z * Z) =>
    forall q v, Z.of_nat q < i -> nth_error xs q = Some v ->
      Z.land (fst mm) v = fst mm /\ Z.lor (snd mm) v = snd mm).
  destruct (loop_lt_total Inv (size xs)
              (fun i '(bitwise_min, bitwise_max) =>
                 obind (vget xs i) (fun x_i =>
                   Some (Z.land bitwise_min x_i, Z.lor bitwise_max x_i)))
              (radix.T_of_int sizeof_T (Z.lnot 0), radix.T_of_int sizeof_T 0))
    as ([mn mx] & Hrun & Hinv).
  - intros q v Hq. lia.
  - intros k [mn mx] Hk HI. rewrite uns_size in Hk by exact xs_length.
    destruct (nth_error xs (Z.to_nat k)) as [xk |] eqn:Ek;
      [| apply nth_error_None in Ek; lia].
    exists (Z.land mn xk, Z.lor mx xk). split.
    + unfold vget. rewrite idx_sz by lia. rewrite Ek. reflexivity.
    + intros q v Hq Hv. simpl.
      destruct (Z.eq_dec (Z.of_nat q) k) as [E | N].
      * subst k. rewrite Nat2Z.id in Ek. rewrite Hv in Ek. injection Ek as ->.
        rewrite <- Z.land_assoc, Z.land_diag, <- Z.lor_assoc, Z.lor_diag.
        split; reflexivity.
      * destruct (HI q v ltac:(lia) Hv) as [H1 H2]. simpl in H1, H2.
        rewrite <- Z.land_assoc, (Z.land_comm xk v), Z.land_assoc, H1.
        rewrite <- Z.lor_assoc, (Z.lor_comm xk v), Z.lor_assoc, H2.
        split; reflexivity.
  - exists mn, mx. split; [exact Hrun |].
    intros v Hin. apply In_nth_error in Hin. destruct Hin as (q & Hq).
    apply (Hinv q v); [| exact Hq].
    rewrite uns_size by exact xs_length.
    assert (q < length xs)%nat by (apply nth_error_Some; congruence). lia.
Qed.

(** *** One pass *)

Section Pass.

Variable k : Z.

(** The elements with their positions in the input, in the order that
    [x_sort] has them at the beginning of the pass. *)
Variable L : list (Z * nat).
Hypothesis L_perm : Permutation L (tagged xs).

Lemma L_length : length L = length xs.
Proof. rewrite (Permutation_length L_perm). apply tagged_length. Qed.

Lemma L_values : Permutation (map fst L) xs.
Proof. rewrite <- (tagged_fst xs). apply Permutation_map. exact L_perm. Qed.

Lemma bucket_count (b : nat) :
  length (bucket (digit k) b L) =
  length (filter (fun v => Nat.eqb (idx (radix.key v k)) b) xs).
Proof.
  rewrite <- (length_map fst), map_fst_bucket.
  apply Permutation_filter_length. exact L_values.
Qed.

Lemma count_keys_ok (c0 : list size_t) :
  length c0 = 256%nat ->
  exists c,
    radix.count_keys k xs (fill c0 (sz 0)) = Some c /\
    length c = 256%nat /\
    forall b, (b < 256)%nat ->
      nth_error c b = Some (sz (Z.of_nat (length (bucket (digit k) b L)))).
Proof.
  intros Hc0.
  pose (cnt := fun (b i : nat) =>
    length (filter (fun v => Nat.eqb (idx (radix.key v k)) b) (firstn i xs))).
  pose (Inv := fun (i : Z) (c : list size_t) =>
    length c = 256%nat /\
    forall b, (b < 256)%nat ->
      nth_error c b = Some (sz (Z.of_nat (cnt b (Z.to_nat i))))).
  destruct (loop_lt_total Inv (size xs)
              (fun i count =>
                 obind (vget xs i) (fun x_i =>
                 obind (vget count (radix.key x_i k)) (fun c =>
                 vset count (radix.key x_i k) (c +w sz 1))))
              (fill c0 (sz 0)))
    as (c & Hrun & Hl & Hinv).
  - split; [rewrite fill_length; exact Hc0 |].
    intros b Hb. rewrite fill_nth by lia. reflexivity.
  - intros i c1 Hi [Hl1 H1]. rewrite uns_size in Hi by exact xs_length.
    destruct (nth_error xs (Z.to_nat i)) as [xi |] eqn:Ei;
      [| apply nth_error_None in Ei; lia].
    set (b0 := idx (radix.key xi k)).
    assert (Hb0 : (b0 < 256)%nat).
    { unfold b0, idx. pose proof (key_range xi k). lia. }
    destruct (upd_some c1 b0 (sz (Z.of_nat (cnt b0 (Z.to_nat i))) +w sz 1)
                ltac:(lia)) as (c2 & Hc2).
    exists c2. split.
    + unfold vget at 1. rewrite idx_sz by lia. rewrite Ei. simpl.
      unfold vget, vset. fold b0. rewrite (H1 b0 Hb0). simpl. exact Hc2.
    + split; [rewrite (upd_length _ _ _ _ Hc2); exact Hl1 |].
      intros b Hb. replace (Z.to_nat (i + 1)) with (S (Z.to_nat i)) by lia.
      unfold cnt. rewrite (firstn_snoc xs _ xi Ei), filter_app, length_app.
      simpl. fold b0.
      destruct (Nat.eqb_spec b0 b) as [E | N].
      * subst b. rewrite (upd_same _ _ _ _ Hc2), sz_add. simpl.
        f_equal. f_equal. unfold cnt. lia.
      * rewrite (upd_other _ _ _ _ b Hc2) by congruence.
        rewrite (H1 b Hb). simpl. rewrite Nat.add_0_r. reflexivity.
  - exists c. split; [exact Hrun |]. split; [exact Hl |].
    intros b Hb. rewrite (Hinv b Hb). rewrite uns_size by exact xs_length.
    rewrite Nat2Z.id. unfold cnt. rewrite firstn_all, bucket_count.
    reflexivity.
Qed.

Lemma offsets_ok (c p0 : list size_t) :
  length p0 = 256%nat ->
  (forall b, (b < 256)%nat ->
     nth_error c b = Some (sz (Z.of_nat (length (bucket (digit k) b L))))) ->
  exists p,
    radix.offsets c (fill p0 (sz 0)) = Some p /\
    length p = 256%nat /\
    forall b, (b < 256)%nat ->
      nth_error p b = Some (sz (Z.of_nat (length (buckets (digit k) b L)))).
Proof.
  intros Hp0 Hc.
  pose (Inv := fun (i : Z) (p : list size_t) =>
    length p = 256%nat /\
    forall b, Z.of_nat b < i ->
      nth_error p b = Some (sz (Z.of_nat (length (buckets (digit k) b L))))).
  assert (Hsize : idx (size (fill p0 (sz 0))) = 256%nat).
  { rewrite idx_size; rewrite fill_length, Hp0; [reflexivity |].
    unfold wordmax. lia. }
  destruct (loop_from_total Inv
              (fun i pos =>
                 obind (vget pos (i -w sz 1)) (fun p =>
                 obind (vget c (i -w sz 1)) (fun c' =>
                 vset pos i (p +w c'))))
              (256 - 1)%nat 1 (fill p0 (sz 0)))
    as (p & Hrun & Hl & Hinv).
  - split; [rewrite fill_length; exact Hp0 |].
    intros b Hb. assert (b = 0%nat) as -> by lia.
    rewrite fill_nth by lia. reflexivity.
  - intros i p1 Hi [Hl1 H1].
    assert (Hw : Z.of_nat 256 < wordmax) by (unfold wordmax; lia).
    set (b := Z.to_nat (i - 1)).
    assert (Hib : i - 1 = Z.of_nat b) by (unfold b; lia).
    destruct (upd_some p1 (S b)
                (sz (Z.of_nat (length (buckets (digit k) b L))) +w
                 sz (Z.of_nat (length (bucket (digit k) b L))))
                ltac:(lia)) as (p2 & Hp2).
    exists p2. split.
    + rewrite sz_sub_one, Hib, !vget_nat by lia.
      rewrite (H1 b ltac:(lia)). simpl. rewrite (Hc b ltac:(lia)). simpl.
      unfold vset. rewrite idx_sz by lia.
      replace (Z.to_nat i) with (S b) by lia. exact Hp2.
    + split; [rewrite (upd_length _ _ _ _ Hp2); exact Hl1 |].
      intros b' Hb'. destruct (Nat.eq_dec b' (S b)) as [-> | N].
      * rewrite (upd_same _ _ _ _ Hp2), sz_add, buckets_next.
        f_equal. f_equal. lia.
      * rewrite (upd_other _ _ _ _ b' Hp2) by exact N. apply H1. lia.
  - exists p. split; [unfold radix.offsets; rewrite Hsize; exact Hrun |].
    split; [exact Hl |]. intros b Hb. apply Hinv. lia.
Qed.

Lemma bucket_snoc_length (b i : nat) (a0 : Z * nat) :
  nth_error L i = Some a0 ->
  length (bucket (digit k) b (firstn (S i) L)) =
  (length (bucket (digit k) b (firstn i L)) +
   (if Nat.eqb (digit k a0) b then 1 else 0))%nat.
Proof.
  intros Hi. rewrite (firstn_snoc L i a0 Hi), bucket_app, length_app.
  simpl. destruct (Nat.eqb (digit k a0) b); reflexivity.
Qed.

Lemma scatter_ok (go : bool) (r : radix.radix (I:=I)) (p : list size_t)
  (ys : list Z) (yo : list I) :
  radix.x r = xs ->
  radix.x_sort r = map fst L ->
  (if go then
     radix.x_order r = map (fun a => position (snd a)) L /\
     length yo = length xs
   else True) ->
  length p = 256%nat ->
  (forall b, (b < 256)%nat ->
     nth_error p b = Some (sz (Z.of_nat (length (buckets (digit k) b L))))) ->
  length ys = length xs ->
  exists p',
    radix.scatter go k r p ys yo =
    Some (p', map fst (buckets (digit k) 256 L),
          if go then map (fun a => position (snd a)) (buckets (digit k) 256 L)
          else yo) /\
    length p' = 256%nat.
Proof.
  intros Hx Hsort Horder Hp Hstart Hys.
  pose proof L_length as HL.
  pose (slot := fun (b i : nat) =>
    (length (buckets (digit k) b L) +
     length (bucket (digit k) b (firstn i L)))%nat).
  pose (Inv := fun (i : Z) (st : list size_t * list Z * list I) =>
    let '(p', ys', yo') := st in
    length p' = 256%nat /\
    length ys' = length xs /\
    (forall b, (b < 256)%nat ->
       nth_error p' b = Some (sz (Z.of_nat (slot b (Z.to_nat i))))) /\
    filled (digit k) fst L ys' (Z.to_nat i) /\
    if go then
      length yo' = length xs /\
      filled (digit k) (fun a => position (snd a)) L yo' (Z.to_nat i)
    else yo' = yo).
  destruct (loop_lt_total Inv (size (radix.x r))
              (fun i '(pos, y_sort, y_order) =>
                 obind (vget (radix.x_sort r) i) (fun x_sort_i =>
                 obind (vget pos (radix.key x_sort_i k)) (fun j =>
                 obind (vset y_sort j x_sort_i) (fun y_sort =>
                 obind (if go
                        then obind (vget (radix.x_order r) i)
                               (fun o => vset y_order j o)
                        else Some y_order) (fun y_order =>
                 obind (vset pos (radix.key x_sort_i k) (j +w sz 1)) (fun pos =>
                 Some (pos, y_sort, y_order)))))))
              (p, ys, yo))
    as ([[p' ys'] yo'] & Hrun & Hinv).
  - unfold Inv. repeat split; try assumption.
    + intros b Hb. unfold slot. simpl. rewrite Nat.add_0_r. apply Hstart. exact Hb.
    + apply filled_start.
    + destruct go; [| reflexivity]. split; [apply Horder | apply filled_start].
  - intros i [[p1 ys1] yo1] Hi (Hlp & Hlys & Hpos & Hfs & Hfo).
    rewrite Hx, uns_size in Hi by exact xs_length.
    destruct (nth_error L (Z.to_nat i)) as [a0 |] eqn:Ea;
      [| apply nth_error_None in Ea; lia].
    set (b0 := digit k a0).
    pose proof (digit_lt k a0) as Hb0. fold b0 in Hb0.
    pose proof (slot_lt (digit k) L (Z.to_nat i) a0 Ea) as Hslot.
    fold b0 in Hslot. fold (slot b0 (Z.to_nat i)) in Hslot.
    assert (Hkey : radix.key (fst a0) k = sz (Z.of_nat b0)) by apply key_idx.
    assert (Hw : Z.of_nat 256 < wordmax) by (unfold wordmax; lia).
    destruct (upd_some ys1 (slot b0 (Z.to_nat i)) (fst a0) ltac:(lia))
      as (ys2 & Hys2).
    destruct (upd_some p1 b0 (sz (Z.of_nat (slot b0 (Z.to_nat i))) +w sz 1)
                ltac:(lia)) as (p2 & Hp2).
    assert (Hyo : exists yo2,
      (if go
       then obind (vget (radix.x_order r) (sz i))
              (fun o => vset yo1 (sz (Z.of_nat (slot b0 (Z.to_nat i)))) o)
       else Some yo1) = Some yo2 /\
      if go then
        length yo2 = length xs /\
        filled (digit k) (fun a => position (snd a)) L yo2 (S (Z.to_nat i))
      else yo2 = yo).
    { destruct go.
      - destruct Hfo as [Hlyo Hfo]. destruct Horder as [Hxo _].
        destruct (upd_some yo1 (slot b0 (Z.to_nat i)) (position (snd a0))
                    ltac:(lia)) as (yo2 & Hyo2).
        exists yo2. split.
        + unfold vget. rewrite idx_sz by lia.
          rewrite Hxo, nth_error_map, Ea. simpl.
          unfold vset. rewrite idx_sz_nat by lia. exact Hyo2.
        + split; [rewrite (upd_length _ _ _ _ Hyo2); exact Hlyo |].
          eapply filled_step; eassumption.
      - exists yo1. split; [reflexivity | exact Hfo]. }
    destruct Hyo as (yo2 & Hyo2 & Hfo2).
    exists (p2, ys2, yo2). split.
    + unfold vget at 1. rewrite idx_sz by lia.
      rewrite Hsort, nth_error_map, Ea. simpl.
      rewrite Hkey. rewrite vget_nat by lia. rewrite (Hpos b0 Hb0). simpl.
      unfold vset at 1. rewrite idx_sz_nat by lia. rewrite Hys2. simpl.
      rewrite Hyo2. simpl.
      unfold vset. rewrite idx_sz_nat by lia. rewrite Hp2. reflexivity.
    + unfold Inv. replace (Z.to_nat (i + 1)) with (S (Z.to_nat i)) by lia.
      split; [rewrite (upd_length _ _ _ _ Hp2); exact Hlp |].
      split; [rewrite (upd_length _ _ _ _ Hys2); exact Hlys |].
      split; [| split; [eapply filled_step; eassumption | exact Hfo2]].
      intros b Hb. unfold slot.
      rewrite (bucket_snoc_length b _ a0 Ea). fold b0.
      destruct (Nat.eqb_spec b0 b) as [E | N].
      * subst b. rewrite (upd_same _ _ _ _ Hp2), sz_add.
        f_equal. f_equal. unfold slot. lia.
      * rewrite (upd_other _ _ _ _ b Hp2) by congruence.
        rewrite (Hpos b Hb). unfold slot. rewrite Nat.add_0_r. reflexivity.
  - destruct Hinv as (Hlp & Hlys & _ & Hfs & Hfo).
    exists p'. split; [| exact Hlp].
    unfold radix.scatter. rewrite Hrun.
    rewrite Hx, uns_size, Nat2Z.id, <- HL in * by exact xs_length.
    f_equal. f_equal; [f_equal |].
    + apply filled_end; [exact Hfs | lia |]. intros a _. apply digit_lt.
    + destruct go; [| exact Hfo]. destruct Hfo as [Hlyo Hfo].
      apply filled_end; [exact Hfo | lia |]. intros a _. apply digit_lt.
Qed.

End Pass.

Lemma In_L_value (L : list (Z * nat)) (a : Z * nat) :
  Permutation L (tagged xs) -> In a L -> In (fst a) xs.
Proof.
  intros HL Ha. apply (Permutation_in _ HL) in Ha. destruct a as [v q].
  apply In_tagged in Ha. eapply nth_error_In. exact Ha.
Qed.

Lemma pass_ok (go : bool) (mn mx : Z) (j : nat)
  (st : radix.radix (I:=I) * radix.locals (I:=I)) :
  (forall v, In v xs -> Z.land mn v = mn /\ Z.lor mx v = mx) ->
  pass_inv xs go j st ->
  exists st',
    radix.pass go mn mx (radix.radix_width * Z.of_nat j) st = Some st' /\
    pass_inv xs go (S j) st'.
Proof.
  intros Hmm (Hx & Hc & Hp & Hys & L & HL & Hsorted & Hsort & Horder).
  destruct st as [r l]. simpl in Hx, Hc, Hp, Hys, Hsort, Horder.
  set (k := radix.radix_width * Z.of_nat j).
  assert (Hk : 0 <= k) by (unfold k, radix.radix_width; lia).
  unfold radix.pass.
  destruct (radix.key mn k ==w radix.key mx k) eqn:Eskip.
  - (* all elements have the same key: the pass is skipped *)
    apply eqb_eq in Eskip.
    exists (r, l). split; [reflexivity |].
    repeat split; try assumption.
    exists L. repeat split; try assumption.
    apply (StronglySorted_weaken (before j)); [exact Hsorted |].
    intros a b Ha Hb. apply before_S_same. unfold digit. fold k.
    destruct (Hmm _ (In_L_value L a HL Ha)) as [Ha1 Ha2].
    destruct (Hmm _ (In_L_value L b HL Hb)) as [Hb1 Hb2].
    rewrite (key_between mn mx (fst a) k Hk Ha1 Ha2 Eskip).
    rewrite (key_between mn mx (fst b) k Hk Hb1 Hb2 Eskip). reflexivity.
  - destruct (count_keys_ok k L HL (radix.count l) Hc) as (c & Hcount & Hlc & Hcs).
    rewrite Hx, Hcount. simpl.
    destruct (offsets_ok k L c (radix.pos l) Hp Hcs) as (p & Hoff & Hlp & Hps).
    rewrite Hoff. simpl.
    destruct (scatter_ok k L HL go r p (radix.y_sort l) (radix.y_order l)
                Hx Hsort) as (p' & Hsc & Hlp'); try assumption.
    { destruct go; [exact Horder | exact Logic.I]. }
    rewrite Hsc. simpl.
    eexists. split; [reflexivity |].
    pose proof (L_length L HL) as HLl.
    unfold pass_inv.
    cbn [fst snd radix.x radix.x_sort radix.x_order radix.count radix.pos
         radix.y_sort radix.y_order].
    repeat split; try assumption.
    + rewrite Hsort, length_map. exact HLl.
    + exists (buckets (digit k) 256 L). split; [| split; [| split]].
      * rewrite buckets_perm; [exact HL |]. intros a _. apply digit_lt.
      * apply (StronglySorted_buckets (digit k) (before j)).
        -- intros a b _ _. apply before_S_same.
        -- intros a b. apply before_S_lt.
        -- exact Hsorted.
      * reflexivity.
      * destruct go.
        -- split; [reflexivity |]. destruct Horder as [-> _].
           rewrite length_map. exact HLl.
        -- destruct Horder as [-> ->]. split; reflexivity.
Qed.

End RunSortFacts.

(** ** [run_sort] *)

Section SortFacts.

Variable sizeof_T : nat.

Context {I : Type} {index : IndexType I}.

Lemma run_sort_ok (go : bool) (r : radix.radix (I:=I)) :
  Z.of_nat (length (radix.x r)) < wordmax ->
  exists r' L,
    radix.run_sort sizeof_T go r = Some r' /\
    radix.x r' = radix.x r /\
    Permutation L (tagged (radix.x r)) /\
    StronglySorted (before sizeof_T) L /\
    radix.x_sort r' = map fst L /\
    radix.x_order r' =
    if go then map (fun a => position (snd a)) L else [].
Proof.
  intros Hlen. set (xs := radix.x r) in *.
  destruct (min_max_ok sizeof_T xs Hlen) as (mn & mx & Hmm & Hbits).
  unfold radix.run_sort. fold xs. rewrite Hmm.
  cbn [obind].
  set (n_order := size xs *w sz (Z.b2z go)).
  assert (Hn_order : idx n_order = if go then length xs else 0%nat).
  { unfold n_order. destruct go; simpl Z.b2z.
    - rewrite word_mul_one. apply idx_size. exact Hlen.
    - rewrite word_mul_zero. reflexivity. }
  assert (Hw : Z.of_nat (idx n_order) < wordmax).
  { rewrite Hn_order. destruct go; [exact Hlen | unfold wordmax; lia]. }
  rewrite iota_ok by (rewrite resize_length; exact Hw).
  cbn [obind]. rewrite resize_length.
  destruct (loop_by_total (pass_inv xs go) radix.radix_width
              (radix.pass go mn mx) (radix.num_passes sizeof_T) 0
              (radix.mk_radix xs xs (map position (seq 0 (idx n_order))),
               radix.mk_locals
                 (vector (sz radix.num_keys) (sz 0))
                 (vector (sz radix.num_keys) (sz 0))
                 (vector n_order (I_of_size_t (sz 0)))
                 (vector (size xs) 0)))
    as ([r' l'] & Hrun & Hinv).
  - unfold pass_inv.
    cbn [fst snd radix.x radix.x_sort radix.x_order radix.count radix.pos
         radix.y_sort radix.y_order].
    split; [reflexivity |]. split; [reflexivity |]. split; [reflexivity |].
    split; [unfold vector; rewrite repeat_length; apply idx_size; exact Hlen |].
    exists (tagged xs). split; [apply Permutation_refl |].
    split; [apply tagged_sorted |]. split; [symmetry; apply tagged_fst |].
    rewrite Hn_order. unfold vector. rewrite repeat_length, Hn_order.
    destruct go.
    + split; [| reflexivity].
      rewrite <- (tagged_snd xs), map_map. reflexivity.
    + split; reflexivity.
  - intros j st _ Hst. apply pass_ok; assumption.
  - change (radix.radix_width * Z.of_nat 0) with 0 in Hrun.
    rewrite Hrun. cbn [obind fst].
    rewrite Nat.add_0_l, num_passes_value in Hinv.
    destruct Hinv as (Hx & _ & _ & _ & L & HL & Hsorted & Hsort & Horder).
    cbn [fst snd] in *.
    exists r', L. repeat split; try assumption.
    destruct go; apply Horder.
Qed.

(** *** What the order after all passes means *)

Lemma low_all (v : Z) :
  0 <= v < 2 ^ radix.total_width sizeof_T -> low sizeof_T v = v.
Proof.
  intros H. unfold low. apply Z.mod_small.
  unfold radix.total_width in H. unfold radix.radix_width.
  rewrite Z.mul_comm. exact H.
Qed.

Section Sorted.

Variable xs : list Z.
Variable L : list (Z * nat).
Hypothesis L_perm : Permutation L (tagged xs).
Hypothesis L_sorted : StronglySorted (before sizeof_T) L.

Lemma L_at (i : nat) (v : Z) (q : nat) :
  nth_error L i = Some (v, q) -> nth_error xs q = Some v.
Proof.
  intros H. apply nth_error_In in H. apply (Permutation_in _ L_perm) in H.
  apply In_tagged. exact H.
Qed.

Lemma L_find (v : Z) (q : nat) :
  nth_error xs q = Some v -> exists i, nth_error L i = Some (v, q).
Proof.
  intros H. apply In_tagged in H.
  apply (Permutation_in _ (Permutation_sym L_perm)) in H.
  apply In_nth_error in H. exact H.
Qed.

Lemma L_positions : Permutation (map snd L) (seq 0 (length xs)).
Proof. rewrite <- tagged_snd. apply Permutation_map. exact L_perm. Qed.

Lemma L_position_inj (i i' : nat) (v v' : Z) (q : nat) :
  nth_error L i = Some (v, q) -> nth_error L i' = Some (v', q) -> i = i'.
Proof.
  intros H H'.
  assert (Hnd : NoDup (map snd L)).
  { apply (Permutation_NoDup (Permutation_sym L_positions)). apply seq_NoDup. }
  rewrite NoDup_nth_error in Hnd. apply Hnd.
  - rewrite length_map. apply nth_error_Some. congruence.
  - rewrite !nth_error_map, H, H'. reflexivity.
Qed.

Lemma L_values_at : map (fun q => nth q xs 0) (map snd L) = map fst L.
Proof.
  rewrite map_map. apply map_ext_in. intros [v q'] Hin. simpl.
  apply In_nth_error in Hin. destruct Hin as (i & Hi).
  apply nth_error_nth. eapply L_at. exact Hi.
Qed.

(** Among elements with the same value, the one that comes first in [L]
    comes first in the input. *)
Lemma L_stable (i j : nat) (v : Z) (q q' : nat) :
  (i < j)%nat ->
  nth_error L i = Some (v, q) -> nth_error L j = Some (v, q') -> (q < q')%nat.
Proof.
  intros Hij Hi Hj.
  pose proof (StronglySorted_nth _ L i j _ _ L_sorted Hij Hi Hj) as H.
  destruct H as [H | [_ H]]; simpl in H; [lia | exact H].
Qed.

(** An element that no equal one precedes in [L] is the first of its value
    in the input. *)
Lemma first_of_run (i : nat) (v : Z) (q : nat) :
  nth_error L i = Some (v, q) ->
  (forall i' q', (i' < i)%nat -> nth_error L i' <> Some (v, q')) ->
  first_at xs v q.
Proof.
  intros Hi Hfirst. split; [eapply L_at; exact Hi |].
  intros q' Hq' Hv. destruct (L_find v q' Hv) as (i' & Hi').
  destruct (Nat.lt_trichotomy i' i) as [Hlt | [-> | Hgt]].
  - exact (Hfirst i' q' Hlt Hi').
  - rewrite Hi in Hi'. injection Hi' as ->. lia.
  - pose proof (L_stable i i' v q q' Hgt Hi Hi'). lia.
Qed.

Hypothesis xs_values : values_of_T sizeof_T xs.

Lemma L_low (a : Z * nat) : In a L -> low sizeof_T (fst a) = fst a.
Proof.
  intros Ha. apply low_all.
  pose proof (In_L_value xs L a L_perm Ha) as Hin.
  unfold values_of_T in xs_values. rewrite Forall_forall in xs_values.
  apply xs_values. exact Hin.
Qed.

Lemma L_ascending (i j : nat) (a b : Z * nat) :
  (i < j)%nat -> nth_error L i = Some a -> nth_error L j = Some b ->
  fst a <= fst b.
Proof.
  intros Hij Hi Hj.
  pose proof (StronglySorted_nth _ L i j _ _ L_sorted Hij Hi Hj) as H.
  rewrite <- (L_low a), <- (L_low b) by (eapply nth_error_In; eassumption).
  destruct H as [H | [H _]]; lia.
Qed.

Lemma L_values_sorted : Sorted Z.le (map fst L).
Proof.
  apply StronglySorted_Sorted.
  assert (G : forall l, StronglySorted (before sizeof_T) l ->
                        (forall a, In a l -> In a L) ->
                        StronglySorted Z.le (map fst l)).
  { induction 1 as [| a l H IH Ha]; intros Hin; simpl; constructor.
    - apply IH. intros b Hb. apply Hin. right. exact Hb.
    - apply Forall_map. rewrite Forall_forall in *. intros b Hb.
      specialize (Ha b Hb).
      assert (HaL : In a L) by (apply Hin; left; reflexivity).
      assert (HbL : In b L) by (apply Hin; right; exact Hb).
      rewrite <- (L_low a HaL), <- (L_low b HbL).
      destruct Ha as [Ha | [Ha _]]; lia. }
  apply G; [exact L_sorted | auto].
Qed.

End Sorted.

End SortFacts.

(** ** The member functions and the functions of the namespace *)

Lemma make_ok (sizeof_T : nat) {I} {index : IndexType I} (xs : list Z) :
  sizeof_T <> 0%nat ->
  radix.make sizeof_T xs = Some (radix.mk_radix (I:=I) xs [] []).
Proof.
  intros Hs. unfold radix.make, radix.ASSERT, radix.T_of_int.
  set (m := 2 ^ radix.total_width sizeof_T).
  assert (Hm : 256 <= m).
  { unfold m, radix.total_width. change 256 with (2 ^ 8).
    apply Z.pow_le_mono_r; lia. }
  rewrite Z.mod_0_l by lia.
  assert (E : (-1) mod m = m - 1).
  { symmetry. apply Z.mod_unique_pos with (q := -1); lia. }
  rewrite E.
  destruct (Z.ltb_spec 0 (m - 1)) as [_ | H]; [| lia]. cbn [obind].
  unfold radix.total_width, radix.radix_width. rewrite Z.mod_mul by lia.
  reflexivity.
Qed.

Section MemberFunctions.

Variable sizeof_T : nat.

Context {I : Type} {index : IndexType I}.

(** X10: [sort] returns the elements in ascending order, whatever the object
    holds from earlier calls. *)
Theorem radix_sort_ascending (r : radix.radix (I:=I)) :
  Z.of_nat (length (radix.x r)) < wordmax ->
  values_of_T sizeof_T (radix.x r) ->
  exists v r', radix.sort sizeof_T r = Some (v, r') /\ Sorted Z.le v.
Proof.
  intros Hlen Hval.
  destruct (run_sort_ok sizeof_T false r Hlen)
    as (r' & L & Hrun & _ & HL & Hsorted & Hsort & _).
  exists (radix.x_sort r'), r'. split.
  - unfold radix.sort. rewrite Hrun. reflexivity.
  - rewrite Hsort. apply (L_values_sorted sizeof_T (radix.x r)); assumption.
Qed.

(** X11: [sort] returns a rearrangement of the input: every value as often as
    the input has it.  The input is left alone, the vector returned is kept
    in [x_sort], and [x_order] is left empty. *)
Theorem radix_sort_rearranges (r : radix.radix (I:=I)) :
  Z.of_nat (length (radix.x r)) < wordmax ->
  exists v r',
    radix.sort sizeof_T r = Some (v, r') /\
    Permutation v (radix.x r) /\
    radix.x r' = radix.x r /\ radix.x_sort r' = v /\ radix.x_order r' = [].
Proof.
  intros Hlen.
  destruct (run_sort_ok sizeof_T false r Hlen)
    as (r' & L & Hrun & Hx & HL & _ & Hsort & Horder).
  exists (radix.x_sort r'), r'. split; [| split; [| repeat split]].
  - unfold radix.sort. rewrite Hrun. reflexivity.
  - rewrite Hsort, <- (tagged_fst (radix.x r)). apply Permutation_map. exact HL.
  - exact Hx.
  - exact Horder.
Qed.

(** X12: [order(x)] returns the positions of the input, each once, in an order
    in which the elements ascend. *)
Theorem order_sorts (xs : list Z) :
  sizeof_T <> 0%nat ->
  Z.of_nat (length xs) < wordmax ->
  values_of_T sizeof_T xs ->
  exists pi : list nat,
    order sizeof_T xs = Some (map position pi) /\
    Permutation pi (seq 0 (length xs)) /\
    Sorted Z.le (map (fun q => nth q xs 0) pi).
Proof.
  intros Hs Hlen Hval.
  destruct (run_sort_ok sizeof_T true (radix.mk_radix xs [] []) Hlen)
    as (r' & L & Hrun & _ & HL & Hsorted & _ & Horder).
  cbn [radix.x] in *.
  exists (map snd L). split; [| split].
  - unfold order. rewrite (make_ok sizeof_T xs Hs). cbn [obind].
    unfold radix.order. rewrite Hrun. cbn [obind option_map fst].
    rewrite Horder, map_map. reflexivity.
  - apply L_positions. exact HL.
  - rewrite (L_values_at xs L HL).
    apply (L_values_sorted sizeof_T xs); assumption.
Qed.

(** X13: [order(x)] is stable: of two positions that hold the same value, the
    smaller one comes first. *)
Theorem order_stable (xs : list Z) :
  sizeof_T <> 0%nat ->
  Z.of_nat (length xs) < wordmax ->
  exists pi : list nat,
    order sizeof_T xs = Some (map position pi) /\
    forall i j q q',
      (i < j)%nat -> nth_error pi i = Some q -> nth_error pi j = Some q' ->
      nth_error xs q = nth_error xs q' -> (q < q')%nat.
Proof.
  intros Hs Hlen.
  destruct (run_sort_ok sizeof_T true (radix.mk_radix xs [] []) Hlen)
    as (r' & L & Hrun & _ & HL & Hsorted & _ & Horder).
  cbn [radix.x] in *.
  exists (map snd L). split.
  - unfold order. rewrite (make_ok sizeof_T xs Hs). cbn [obind].
    unfold radix.order. rewrite Hrun. cbn [obind option_map fst].
    rewrite Horder, map_map. reflexivity.
  - intros i j q q' Hij Hi Hj Hsame.
    rewrite nth_error_map in Hi, Hj.
    destruct (nth_error L i) as [[v q1] |] eqn:Ei; [| discriminate].
    destruct (nth_error L j) as [[v' q2] |] eqn:Ej; [| discriminate].
    simpl in Hi, Hj. injection Hi as ->. injection Hj as ->.
    rewrite (L_at xs L HL i v q Ei), (L_at xs L HL j v' q' Ej) in Hsame.
    injection Hsame as <-.
    exact (L_stable sizeof_T L Hsorted i j v q q' Hij Ei Ej).
Qed.

(** *** [first_occurance] *)

Lemma first_occurance_ok (r : radix.radix (I:=I)) :
  Z.of_nat (length (radix.x r)) < wordmax ->
  values_of_T sizeof_T (radix.x r) ->
  (forall q, (q < length (radix.x r))%nat ->
             size_t_of_I (position q) = sz (Z.of_nat q)) ->
  exists ans r',
    radix.first_occurance sizeof_T r = Some (ans, r') /\
    length ans = length (radix.x r) /\
    forall p v, nth_error (radix.x r) p = Some v ->
      exists q, first_at (radix.x r) v q /\
                nth_error ans p = Some (position q).
Proof.
  intros Hlen Hval Hrt. set (xs := radix.x r) in *.
  destruct (run_sort_ok sizeof_T true r Hlen)
    as (r' & L & Hrun & _ & HL & Hsorted & Hsort & Horder).
  fold xs in HL.
  pose proof (L_length xs L HL) as HLl.
  assert (Hso : idx (size (radix.x_sort r')) = length xs).
  { rewrite idx_size; rewrite Hsort, length_map, HLl; [reflexivity | exact Hlen]. }
  assert (Hoo : idx (size (radix.x_order r')) = length xs).
  { rewrite idx_size; rewrite Horder, length_map, HLl; [reflexivity | exact Hlen]. }
  unfold radix.first_occurance. rewrite Hrun. cbn [obind].
  rewrite iota_ok by (unfold vector; rewrite repeat_length, Hoo; exact Hlen).
  cbn [obind]. unfold vector at 1. rewrite repeat_length, Hoo, Hso.
  pose (Inv := fun (t : Z) (ans : list I) =>
    length ans = length xs /\
    forall i v q, nth_error L i = Some (v, q) ->
      (Z.of_nat i < t ->
       exists q', first_at xs v q' /\ nth_error ans q = Some (position q')) /\
      (t <= Z.of_nat i -> nth_error ans q = Some (position q))).
  assert (Hq : forall i v q, nth_error L i = Some (v, q) -> (q < length xs)%nat).
  { intros i v q Hi. apply nth_error_Some. rewrite (L_at xs L HL i v q Hi).
    discriminate. }
  match goal with
  | |- context [loop_from 1 ?c ?body ?a] =>
      destruct (loop_from_total Inv body c 1 a) as (ans & Hloop & Hl & Hinv)
  end.
  - split; [rewrite length_map, length_seq; reflexivity |].
    intros i v q Hi.
    assert (Hstart : nth_error (map position (seq 0 (length xs))) q =
                     Some (position q)).
    { rewrite nth_error_map, nth_error_seq.
      destruct (Nat.ltb_spec q (length xs)) as [_ | Hge]; [reflexivity |].
      specialize (Hq i v q Hi). lia. }
    split; [| intros _; exact Hstart].
    intros Hi0. assert (i = 0%nat) as -> by lia.
    exists q. split; [| exact Hstart].
    apply (first_of_run sizeof_T xs L HL Hsorted 0 v q Hi).
    intros i' q' Hi'. lia.
  - intros t ans1 Ht [Hl1 H1].
    set (i1 := Z.to_nat (t - 1)).
    assert (Ht2 : t = Z.of_nat (S i1)) by (unfold i1; lia).
    clearbody i1. subst t. cbv beta.
    destruct (nth_error L i1) as [[v1 q1] |] eqn:E1;
      [| apply nth_error_None in E1; lia].
    destruct (nth_error L (S i1)) as [[v2 q2] |] eqn:E2;
      [| apply nth_error_None in E2; lia].
    rewrite sz_sub_one.
    replace (Z.of_nat (S i1) - 1) with (Z.of_nat i1) by lia.
    rewrite !vget_nat by lia.
    rewrite Hsort, !nth_error_map, E1, E2. cbn [option_map obind fst].
    destruct (Z.eqb_spec v1 v2) as [Ev | Nv].
    + (* the same value as the element before: its first position *)
      subst v2.
      rewrite Horder, !nth_error_map, E1, E2. cbn [option_map obind snd].
      rewrite (Hrt q1 (Hq _ _ _ E1)), (Hrt q2 (Hq _ _ _ E2)).
      rewrite vget_nat by (specialize (Hq _ _ _ E1); lia).
      destruct (proj1 (H1 i1 v1 q1 E1) ltac:(lia)) as (q' & Hfirst & Hans).
      rewrite Hans. cbn [obind].
      destruct (upd_some ans1 q2 (position q') ltac:(specialize (Hq _ _ _ E2); lia))
        as (ans2 & Hans2).
      exists ans2. split.
      * unfold vset. rewrite idx_sz_nat by (specialize (Hq _ _ _ E2); lia).
        exact Hans2.
      * split; [rewrite (upd_length _ _ _ _ Hans2); exact Hl1 |].
        intros i v q Hi.
        destruct (Nat.eq_dec i (S i1)) as [-> | Hne].
        -- rewrite E2 in Hi. injection Hi as <- <-.
           split; [| intros Hge; lia].
           intros _. exists q'. split; [exact Hfirst |].
           apply (upd_same _ _ _ _ Hans2).
        -- assert (Hqq : q <> q2).
           { intros ->. apply Hne.
             exact (L_position_inj xs L HL _ _ _ _ _ Hi E2). }
           rewrite (upd_other _ _ _ _ q Hans2) by exact Hqq.
           destruct (H1 i v q Hi) as [Hlt Hge].
           split; [intros Hi'; apply Hlt; lia | intros Hi'; apply Hge; lia].
    + (* a new value: the element is the first that has it *)
      exists ans1. split; [reflexivity |]. split; [exact Hl1 |].
      intros i v q Hi.
      destruct (Nat.eq_dec i (S i1)) as [-> | Hne].
      * rewrite E2 in Hi. injection Hi as <- <-.
        split; [| intros Hge; lia].
        intros _. exists q2. split; [| apply (H1 (S i1) v2 q2 E2); lia].
        apply (first_of_run sizeof_T xs L HL Hsorted (S i1) v2 q2 E2).
        intros i' q' Hi' E'.
        pose proof (L_ascending sizeof_T xs L HL Hsorted Hval i1 (S i1) _ _
                      ltac:(lia) E1 E2) as Hle. simpl in Hle.
        destruct (Nat.eq_dec i' i1) as [-> | Hne'].
        -- rewrite E1 in E'. injection E' as -> _. apply Nv. reflexivity.
        -- pose proof (L_ascending sizeof_T xs L HL Hsorted Hval i' i1 _ _
                         ltac:(lia) E' E1) as Hle'. simpl in Hle'. lia.
      * destruct (H1 i v q Hi) as [Hlt Hge].
        split; [intros Hi'; apply Hlt; lia | intros Hi'; apply Hge; lia].
  - rewrite Hloop. cbn [obind]. exists ans, r'.
    split; [reflexivity |]. split; [exact Hl |].
    intros p v Hp. destruct (L_find xs L HL v p Hp) as (i & Hi).
    apply (Hinv i v p Hi).
    assert (i < length L)%nat by (apply nth_error_Some; congruence). lia.
Qed.

Lemma first_at_unique (xs : list Z) (v : Z) (q q' : nat) :
  first_at xs v q -> first_at xs v q' -> q = q'.
Proof.
  intros [H1 H2] [H1' H2'].
  destruct (Nat.lt_trichotomy q q') as [H | [H | H]]; [| exact H |].
  - exfalso. exact (H2' q H H1).
  - exfalso. exact (H2 q' H H1').
Qed.

(** X14: [first_occurance(x)] returns, for every position of the input, the first
    position that holds the same value. *)
Theorem first_occurance_first_position (xs : list Z) :
  sizeof_T <> 0%nat ->
  Z.of_nat (length xs) < wordmax ->
  values_of_T sizeof_T xs ->
  (forall q, (q < length xs)%nat -> size_t_of_I (position q) = sz (Z.of_nat q)) ->
  exists ans,
    first_occurance sizeof_T xs = Some ans /\
    length ans = length xs /\
    forall p v, nth_error xs p = Some v ->
      exists q, first_at xs v q /\ nth_error ans p = Some (position q).
Proof.
  intros Hs Hlen Hval Hrt.
  destruct (first_occurance_ok (radix.mk_radix xs [] []) Hlen Hval Hrt)
    as (ans & r' & Hrun & Hl & Hans).
  exists ans. split; [| split; [exact Hl | exact Hans]].
  unfold first_occurance. rewrite (make_ok sizeof_T xs Hs). cbn [obind].
  rewrite Hrun. reflexivity.
Qed.

(** X15: [first_occurance(x)] gives two positions the same entry exactly when
    they hold the same value. *)
Theorem first_occurance_same_entry (xs : list Z) :
  sizeof_T <> 0%nat ->
  Z.of_nat (length xs) < wordmax ->
  values_of_T sizeof_T xs ->
  (forall q, (q < length xs)%nat -> size_t_of_I (position q) = sz (Z.of_nat q)) ->
  exists ans,
    first_occurance sizeof_T xs = Some ans /\
    forall p p' v v',
      nth_error xs p = Some v -> nth_error xs p' = Some v' ->
      (nth_error ans p = nth_error ans p' <-> v = v').
Proof.
  intros Hs Hlen Hval Hrt.
  destruct (first_occurance_ok (radix.mk_radix xs [] []) Hlen Hval Hrt)
    as (ans & r' & Hrun & _ & Hans).
  cbn [radix.x] in Hans.
  exists ans. split.
  { unfold first_occurance. rewrite (make_ok sizeof_T xs Hs). cbn [obind].
    rewrite Hrun. reflexivity. }
  intros p p' v v' Hp Hp'.
  destruct (Hans p v Hp) as (q & Hq & Ha).
  destruct (Hans p' v' Hp') as (q' & Hq' & Ha').
  rewrite Ha, Ha'. split.
  - intros E. injection E as E.
    assert (Hlt : forall u w, first_at xs w u -> (u < length xs)%nat).
    { intros u w [Hu _]. apply nth_error_Some. congruence. }
    apply (f_equal size_t_of_I) in E.
    rewrite (Hrt q (Hlt _ _ Hq)), (Hrt q' (Hlt _ _ Hq')) in E.
    apply (f_equal idx) in E.
    rewrite !idx_sz_nat in E
      by (pose proof (Hlt _ _ Hq); pose proof (Hlt _ _ Hq'); lia).
    subst q'. destruct Hq as [Hq _]. destruct Hq' as [Hq' _]. congruence.
  - intros <-. rewrite (first_at_unique xs v q q' Hq Hq'). reflexivity.
Qed.

End MemberFunctions.

(** ** Runs of the radix sort with [unsigned int] positions *)

Lemma unsigned_int_position (n : nat) :
  Z.of_nat n <= 2 ^ 32 ->
  forall q, (q < n)%nat ->
    size_t_of_I (position (I:=Z) q) = sz (Z.of_nat q).
Proof.
  intros Hn q Hq. unfold position. simpl. f_equal.
  rewrite uns_sz by (unfold wordmax; lia). apply Z.mod_small. lia.
Qed.

Lemma six_values_of_T : values_of_T 4 [300; 5; 70000; 5; 0; 300].
Proof. unfold values_of_T. repeat constructor; simpl; lia. Qed.

Lemma radix_sort_ascending_witness :
  exists v r',
    radix.sort (I:=Z) 4 (radix.mk_radix [300; 5; 70000; 5; 0; 300] [7] [1; 2]) =
    Some (v, r') /\
    Sorted Z.le v.
Proof.
  apply (radix_sort_ascending 4
           (radix.mk_radix (I:=Z) [300; 5; 70000; 5; 0; 300] [7] [1; 2])).
  - reflexivity.
  - exact six_values_of_T.
Defined.

Lemma radix_sort_rearranges_witness :
  exists v r',
    radix.sort (I:=Z) 4 (radix.mk_radix [300; 5; 70000; 5; 0; 300] [7] [1; 2]) =
    Some (v, r') /\
    Permutation v [300; 5; 70000; 5; 0; 300] /\
    radix.x r' = [300; 5; 70000; 5; 0; 300] /\
    radix.x_sort r' = v /\ radix.x_order r' = [].
Proof.
  apply (radix_sort_rearranges 4
           (radix.mk_radix (I:=Z) [300; 5; 70000; 5; 0; 300] [7] [1; 2])).
  reflexivity.
Defined.

Lemma order_sorts_witness :
  exists pi : list nat,
    order (I:=Z) 4 [300; 5; 70000; 5; 0; 300] = Some (map position pi) /\
    Permutation pi (seq 0 6) /\
    Sorted Z.le (map (fun q => nth q [300; 5; 70000; 5; 0; 300] 0) pi).
Proof.
  apply (order_sorts 4 (I:=Z) [300; 5; 70000; 5; 0; 300]).
  - discriminate.
  - reflexivity.
  - exact six_values_of_T.
Defined.

Lemma order_stable_witness :
  exists pi : list nat,
    order (I:=Z) 4 [300; 5; 70000; 5; 0; 300] = Some (map position pi) /\
    forall i j q q',
      (i < j)%nat -> nth_error pi i = Some q -> nth_error pi j = Some q' ->
      nth_error [300; 5; 70000; 5; 0; 300] q =
      nth_error [300; 5; 70000; 5; 0; 300] q' -> (q < q')%nat.
Proof.
  apply (order_stable 4 (I:=Z) [300; 5; 70000; 5; 0; 300]).
  - discriminate.
  - reflexivity.
Defined.

Lemma first_occurance_first_position_witness :
  exists ans,
    first_occurance (I:=Z) 4 [300; 5; 70000; 5; 0; 300] = Some ans /\
    length ans = 6%nat /\
    forall p v, nth_error [300; 5; 70000; 5; 0; 300] p = Some v ->
      exists q, first_at [300; 5; 70000; 5; 0; 300] v q /\
                nth_error ans p = Some (position q).
Proof.
  apply (first_occurance_first_position 4 (I:=Z) [300; 5; 70000; 5; 0; 300]).
  - discriminate.
  - reflexivity.
  - exact six_values_of_T.
  - apply unsigned_int_position. simpl. lia.
Defined.

Lemma first_occurance_same_entry_witness :
  exists ans,
    first_occurance (I:=Z) 4 [300; 5; 70000; 5; 0; 300] = Some ans /\
    forall p p' v v',
      nth_error [300; 5; 70000; 5; 0; 300] p = Some v ->
      nth_error [300; 5; 70000; 5; 0; 300] p' = Some v' ->
      (nth_error ans p = nth_error ans p' <-> v = v').
Proof.
  apply (first_occurance_same_entry 4 (I:=Z) [300; 5; 70000; 5; 0; 300]).
  - discriminate.
  - reflexivity.
  - exact six_values_of_T.
  - apply unsigned_int_position. simpl. lia.
Defined.

(** The run of the witnesses, spelled out. *)
Example radix_runs :
  option_map fst
    (radix.sort (I:=Z) 4 (radix.mk_radix [300; 5; 70000; 5; 0; 300] [7] [1; 2])) =
    Some [0; 5; 5; 300; 300; 70000] /\
  order (I:=Z) 4 [300; 5; 70000; 5; 0; 300] = Some [4; 1; 3; 0; 5; 2] /\
  first_occurance (I:=Z) 4 [300; 5; 70000; 5; 0; 300] = Some [0; 1; 2; 1; 4; 0].
Proof. repeat split; vm_compute; reflexivity. Qed.
